(** * Backend dispatch and byte-addressable buffers: a verification development

    The development follows the repository's maintenance tooling
    ([scripts/fix_shader_byte_access.py], [migrate_backend.py],
    [examples/web-benchmark/fix_channel_conversions*.py],
    [tests/fixtures/generate_fixtures.py]) and the
    contracts of the layer this tooling repairs: the word-packed byte
    buffer, the channel-aware conversion selection, the capability lookup
    and the backend dispatcher. *)

From Stdlib Require Import ZArith Lia Bool Ascii String List.
From stdpp Require Import base option list gmap strings sorting.
Import ListNotations.

(** ** Word-packed byte buffer

    The shader fixer inserts the contents of
    [src/gpu/shaders/byte_access_helpers.wgsl] in every shader and rewrites
    element accesses into calls of [read_byte] and [write_byte].  The
    helper file is not among the sources at hand, so the two helpers are
    modelled from their contract. *)

Module ByteBuffer.
Local Open Scope Z_scope.

(** A storage buffer is WGSL's [array<u32>]: a list of 32-bit words. *)
Definition u32_modulus : Z := 2 ^ 32.
Definition wrap32 (x : Z) : Z := x mod u32_modulus.
Definition is_u32 (x : Z) : Prop := 0 <= x < u32_modulus.
Definition is_u8 (x : Z) : Prop := 0 <= x < 256.

Definition byte_length (buffer : list Z) : Z := 4 * Z.of_nat (length buffer).

(** [buffer[word_index]]; an index past the end reads as zero. *)
Definition load_word (buffer : list Z) (word_index : Z) : Z :=
  nth (Z.to_nat word_index) buffer 0.

(** [buffer[word_index] = w]; an index past the end stores nothing. *)
Definition store_word (buffer : list Z) (word_index w : Z) : list Z :=
  <[Z.to_nat word_index := w]> buffer.

(** The byte-to-word mapping shared by every access path. *)
Definition word_index (byte_index : Z) : Z := byte_index / 4.
Definition byte_offset (byte_index : Z) : Z := byte_index mod 4.

(** Modelled from the spec: the helper [read_byte] of
    [byte_access_helpers.wgsl]: fetch the word [byte_index / 4] and
    extract the [(byte_index % 4)]-th byte of it, byte 0 being the least
    significant one. *)
Definition read_byte (buffer : list Z) (byte_index : Z) : Z :=
  let word := load_word buffer (word_index byte_index) in
  let shift := byte_offset byte_index * 8 in
  Z.land (Z.shiftr word shift) 255.

(** The read-modify-write of one word: clear the bits of the target byte,
    OR in the new value shifted into position.  All operations are u32
    operations, so the shifts and the complement wrap at 32 bits. *)
Definition replace_byte (word offset value : Z) : Z :=
  let shift := offset * 8 in
  let mask := wrap32 (Z.shiftl 255 shift) in
  let cleared := Z.land word (wrap32 (Z.lnot mask)) in
  Z.lor cleared (wrap32 (Z.shiftl value shift)).

(** Modelled from the spec: the helper [write_byte] of
    [byte_access_helpers.wgsl]: read the containing word, replace the
    target byte, store the word back. *)
Definition write_byte (buffer : list Z) (byte_index value : Z) : list Z :=
  let w := word_index byte_index in
  let word := load_word buffer w in
  store_word buffer w (replace_byte word (byte_offset byte_index) value).

(** The [k]-th byte of a word in little-endian order, stated with
    arithmetic rather than with bit operations. *)
Definition le_byte (word k : Z) : Z := (word / 256 ^ k) mod 256.

End ByteBuffer.

(** ** Python strings

    The scripts read whole files as [str] and work on them with [in],
    [str.replace], slicing and the [re] module.  A text is a list of
    characters; the files are taken to be ASCII text (the shaders and Rust
    sources the scripts patch), so a character is an [ascii]. *)

Module Text.

Definition txt (s : string) : list ascii := list_ascii_of_string s.

(** The line feed, written [\n] in the Python sources. *)
Definition nl : list ascii := [ascii_of_nat 10].

Fixpoint text_eqb (a b : list ascii) : bool :=
  match a, b with
  | [], [] => true
  | x :: a', y :: b' => Ascii.eqb x y && text_eqb a' b'
  | _, _ => false
  end.

(** [s.startswith(p)] *)
Fixpoint starts_with (p s : list ascii) : bool :=
  match p, s with
  | [], _ => true
  | x :: p', y :: s' => Ascii.eqb x y && starts_with p' s'
  | _ :: _, [] => false
  end.

(** [needle in hay] *)
Fixpoint contains (needle hay : list ascii) : bool :=
  starts_with needle hay ||
  match hay with
  | [] => false
  | _ :: hay' => contains needle hay'
  end.

(** [s.replace(old, new)]: every occurrence of [old], found from left to
    right without overlap, becomes [new].  [skip] counts the characters of
    the occurrence under way that are still to be dropped. *)
Fixpoint replace_from (old new : list ascii) (skip : nat) (s : list ascii)
  : list ascii :=
  match s with
  | [] => []
  | c :: s' =>
      match skip with
      | S n => replace_from old new n s'
      | O =>
          if starts_with old s
          then new ++ replace_from old new (length old - 1) s'
          else c :: replace_from old new 0 s'
      end
  end.

Definition replace (old new s : list ascii) : list ascii :=
  match old with
  | [] => new ++ flat_map (fun c => c :: new) s
  | _ :: _ => replace_from old new 0 s
  end.

(** Character classes of [re] on ASCII text.  The patterns of the
    scripts are [str] patterns, so on a character above 127 Python's
    [\s], [\w] and [\b] also follow the Unicode tables (the no-break
    space is white space, an accented letter is a word character).  The
    classes below are Python's on the characters up to 127; the statements
    that depend on them are made for [ascii_only] texts. *)
Definition in_range (lo hi : nat) (c : ascii) : bool :=
  (lo <=? nat_of_ascii c)%nat && (nat_of_ascii c <=? hi)%nat.

Definition is_char (x c : ascii) : bool := Ascii.eqb c x.

(** [\s] on ASCII text: tab, line feed, vertical tab, form feed, carriage
    return, the four separators 28 to 31, and the space. *)
Definition is_space (c : ascii) : bool := in_range 9 13 c || in_range 28 32 c.

(** [\w] on ASCII text: letters, digits and the underscore. *)
Definition is_word (c : ascii) : bool :=
  in_range 97 122 c || in_range 65 90 c || in_range 48 57 c || is_char "_" c.

(** A character of the ASCII range, and a text made of such characters
    only. *)
Definition is_ascii (c : ascii) : bool := in_range 0 127 c.

Definition ascii_only (s : list ascii) : Prop := forallb is_ascii s = true.

End Text.

(** ** The fragment of Python's [re] the scripts use

    A backtracking matcher in continuation-passing style: alternatives are
    tried in the order Python tries them, and the first complete match
    wins.  Repetition is only ever applied to a character class in the
    scripts, so [Star] and [Plus] take a class. *)

Module Re.
Import Text.

Inductive regex : Type :=
| Chr (c : ascii)                 (* one literal character *)
| Str (s : string)                (* a literal text *)
| Cls (p : ascii -> bool)         (* a character class *)
| Seq (r1 r2 : regex)             (* r1 r2 *)
| Alt (r1 r2 : regex)             (* r1|r2 *)
| Star (p : ascii -> bool)        (* [class]*, greedy *)
| Plus (p : ascii -> bool)        (* [class]+, greedy *)
| Grp (n : nat) (r : regex)       (* the n-th capturing group *)
| WordBoundary                    (* \b *)
| LineStart                       (* ^ under re.MULTILINE *)
| NotAhead (r : regex).           (* (?!r) *)

(** Captured groups, most recent binding first. *)
Definition captures : Type := list (nat * list ascii).

(** [match.group(n)] *)
Fixpoint group (n : nat) (cs : captures) : list ascii :=
  match cs with
  | [] => []
  | (m, t) :: cs' => if Nat.eqb n m then t else group n cs'
  end.

(** The text between two positions, the second given by what is left. *)
Definition consumed (s rest : list ascii) : list ascii :=
  take (length s - length rest) s.

Definition is_word_at (c : option ascii) : bool :=
  match c with
  | Some a => is_word a
  | None => false
  end.

Section Matcher.
Context {R : Type}.

(** A continuation receives the character before the position reached,
    the rest of the input and the groups captured so far. *)
Definition cont : Type := option ascii -> list ascii -> captures -> option R.

Fixpoint run_str (t : list ascii) (prev : option ascii) (s : list ascii)
    (cs : captures) (k : cont) : option R :=
  match t with
  | [] => k prev s cs
  | x :: t' =>
      match s with
      | a :: s' => if Ascii.eqb a x then run_str t' (Some a) s' cs k else None
      | [] => None
      end
  end.

(** Greedy repetition: take one more character of the class if possible,
    and give it back when the rest of the pattern then fails. *)
Fixpoint run_star (p : ascii -> bool) (prev : option ascii) (s : list ascii)
    (cs : captures) (k : cont) : option R :=
  match s with
  | a :: s' =>
      if p a then
        match run_star p (Some a) s' cs k with
        | Some x => Some x
        | None => k prev s cs
        end
      else k prev s cs
  | [] => k prev s cs
  end.

End Matcher.

Fixpoint run (r : regex) {R : Type} (prev : option ascii) (s : list ascii)
    (cs : captures) (k : @cont R) : option R :=
  match r with
  | Chr c =>
      match s with
      | a :: s' => if Ascii.eqb a c then k (Some a) s' cs else None
      | [] => None
      end
  | Str t => run_str (txt t) prev s cs k
  | Cls p =>
      match s with
      | a :: s' => if p a then k (Some a) s' cs else None
      | [] => None
      end
  | Seq r1 r2 =>
      run r1 prev s cs (fun prev' s' cs' => run r2 prev' s' cs' k)
  | Alt r1 r2 =>
      match run r1 prev s cs k with
      | Some x => Some x
      | None => run r2 prev s cs k
      end
  | Star p => run_star p prev s cs k
  | Plus p =>
      match s with
      | a :: s' => if p a then run_star p (Some a) s' cs k else None
      | [] => None
      end
  | Grp n r =>
      run r prev s cs (fun prev' s' cs' => k prev' s' ((n, consumed s s') :: cs'))
  | WordBoundary =>
      if xorb (is_word_at prev) (is_word_at (head s)) then k prev s cs else None
  | LineStart =>
      match prev with
      | None => k prev s cs
      | Some c => if is_char (ascii_of_nat 10) c then k prev s cs else None
      end
  | NotAhead r' =>
      match run r' prev s cs (fun _ _ _ => Some tt) with
      | Some _ => None
      | None => k prev s cs
      end
  end.

(** A match starting at the current position: the groups and the rest of
    the input after the match. *)
Definition match_here (r : regex) (prev : option ascii) (s : list ascii)
  : option (captures * list ascii) :=
  run r prev s [] (fun _ rest cs => Some (cs, rest)).

(** [re.search(r, s)]: the leftmost match; [pos] counts the characters
    already passed.  The result is [match.start()] with the groups. *)
Fixpoint search_from (r : regex) (prev : option ascii) (pos : nat)
    (s : list ascii) : option (nat * captures) :=
  match match_here r prev s with
  | Some (cs, _) => Some (pos, cs)
  | None =>
      match s with
      | [] => None
      | c :: s' => search_from r (Some c) (S pos) s'
      end
  end.

Definition search (r : regex) (s : list ascii) : option (nat * captures) :=
  search_from r None 0 s.

(** [re.sub(r, repl, s)]: the non-overlapping matches, leftmost first, are
    replaced by what [repl] makes of their groups; everything else is
    copied.  [skip] counts the characters of the match under way that are
    still to be passed over. *)
Fixpoint sub_from (r : regex) (repl : captures -> list ascii)
    (prev : option ascii) (skip : nat) (s : list ascii) : list ascii :=
  match s with
  | [] =>
      match skip, match_here r prev [] with
      | O, Some (cs, _) => repl cs
      | _, _ => []
      end
  | c :: s' =>
      match skip with
      | S n => sub_from r repl (Some c) n s'
      | O =>
          match match_here r prev s with
          | Some (cs, rest) =>
              match length s - length rest with
              | O => repl cs ++ c :: sub_from r repl (Some c) 0 s'
              | S n => repl cs ++ sub_from r repl (Some c) n s'
              end
          | None => c :: sub_from r repl (Some c) 0 s'
          end
      end
  end.

Definition sub (r : regex) (repl : captures -> list ascii) (s : list ascii)
  : list ascii :=
  sub_from r repl None 0 s.

(** What is left of a text after each of its characters but the first. *)
Fixpoint proper_suffixes (u : list ascii) : list (list ascii) :=
  match u with
  | [] => []
  | _ :: u' => u' :: proper_suffixes u'
  end.

(** The texts a pattern can consume.  The zero-width assertions consume
    nothing; what they demand of the context is not recorded here. *)
Fixpoint lang (r : regex) (w : list ascii) : Prop :=
  match r with
  | Chr c => w = [c]
  | Str t => w = txt t
  | Cls p => exists a, w = [a] /\ p a = true
  | Seq r1 r2 => exists w1 w2, w = w1 ++ w2 /\ lang r1 w1 /\ lang r2 w2
  | Alt r1 r2 => lang r1 w \/ lang r2 w
  | Star p => Forall (fun a => p a = true) w
  | Plus p => w <> [] /\ Forall (fun a => p a = true) w
  | Grp _ r' => lang r' w
  | WordBoundary | LineStart | NotAhead _ => w = []
  end.

End Re.

(** ** The files the scripts patch

    A script sees the file system as a mapping from paths to contents.
    The record also keeps the paths written and the lines printed, so that
    "no write happened" is a statement about the state. *)

Module Fs.

Inductive message : Type :=
| Processing (path : string)
| AlreadyFixed
| NoU32Arrays
| NoInsertionPoint
| ShaderFixed
| NoChangesNeeded
| Fixed (path : string)
| NoChanges (path : string)
| ErrorIn (path : string)
| AllDone.

Record World : Type := mkWorld {
  disk : gmap string (list ascii);
  written : list string;
  console : list message
}.

(** [print(...)] *)
Definition print (m : message) (w : World) : World :=
  mkWorld (disk w) (written w) (m :: console w).

(** [path.write_text(content)], [open(path, 'w').write(content)] *)
Definition write_text (path : string) (content : list ascii) (w : World) : World :=
  mkWorld (<[path := content]> (disk w)) (path :: written w) (console w).

(** [path.read_text()], [open(path, 'r').read()]; [None] stands for the
    exception raised when the file does not exist. *)
Definition read_text (path : string) (w : World) : option (list ascii) :=
  disk w !! path.

End Fs.

(** ** [scripts/fix_shader_byte_access.py] *)

Module ShaderFix.
Import Text Re Fs.

(** r"(@compute|^fn\s)" with re.MULTILINE *)
Definition insert_marker_pattern : regex :=
  Grp 1 (Alt (Str "@compute") (Seq LineStart (Seq (Str "fn") (Cls is_space)))).

Definition not_char (x c : ascii) : bool := negb (is_char x c).

(** r'\binput\[([^\]]+)\](?!\s*=)' *)
Definition input_pattern : regex :=
  Seq WordBoundary
 (Seq (Str "input[")
 (Seq (Grp 1 (Plus (not_char "]")))
 (Seq (Chr "]")
      (NotAhead (Seq (Star is_space) (Chr "=")))))).

(** r'read_byte(&input, \1)' *)
Definition input_replacement (cs : captures) : list ascii :=
  txt "read_byte(&input, " ++ group 1 cs ++ txt ")".

(** r'\boutput\[([^\]]+)\]\s*=\s*([^;]+);' *)
Definition output_pattern : regex :=
  Seq WordBoundary
 (Seq (Str "output[")
 (Seq (Grp 1 (Plus (not_char "]")))
 (Seq (Chr "]")
 (Seq (Star is_space)
 (Seq (Chr "=")
 (Seq (Star is_space)
 (Seq (Grp 2 (Plus (not_char ";")))
      (Chr ";")))))))).

(** r'write_byte(&output, \1, \2);' *)
Definition output_replacement (cs : captures) : list ascii :=
  txt "write_byte(&output, " ++ group 1 cs ++ txt ", " ++ group 2 cs ++ txt ");".

(** The helpers framed by their separator comments, as inserted at
    [insert_pos]. *)
Definition helper_block (BYTE_ACCESS_HELPERS : list ascii) : list ascii :=
  nl ++ txt "// === Byte Access Helpers ===" ++ nl ++
  txt "// Required for correct RGBA byte extraction from u32 storage buffers"
    ++ nl ++ nl ++
  BYTE_ACCESS_HELPERS ++
  nl ++ txt "// === End Byte Access Helpers ===" ++ nl ++ nl.

(** What [fix_shader] makes of a file's content: [None] when it returns
    without building a new content, the new content otherwise. *)
Definition fixed_content (BYTE_ACCESS_HELPERS content : list ascii)
  : message + list ascii :=
  if contains (txt "read_byte") content then inl AlreadyFixed
  else if negb (contains (txt "array<u32>") content) then inl NoU32Arrays
  else
    match search insert_marker_pattern content with
    | None => inl NoInsertionPoint
    | Some (insert_pos, _) =>
        let new_content :=
          take insert_pos content ++
          helper_block BYTE_ACCESS_HELPERS ++
          drop insert_pos content in
        let new_content := sub input_pattern input_replacement new_content in
        let new_content := sub output_pattern output_replacement new_content in
        inr new_content
    end.

(** [fix_shader(shader_path)]: the boolean result and the state after the
    call; [None] when reading the file raises. *)
Definition fix_shader (BYTE_ACCESS_HELPERS : list ascii) (shader_path : string)
    (w : World) : option (bool * World) :=
  let w := print (Processing shader_path) w in
  match read_text shader_path w with
  | None => None
  | Some content =>
      match fixed_content BYTE_ACCESS_HELPERS content with
      | inl skipped => Some (false, print skipped w)
      | inr new_content =>
          if negb (text_eqb new_content content)
          then Some (true, print ShaderFixed (write_text shader_path new_content w))
          else Some (false, print NoChangesNeeded w)
      end
  end.

End ShaderFix.

(** ** [examples/web-benchmark/fix_channel_conversions.py] *)

Module ChannelFix.
Import Text Re Fs.

Definition files : list string :=
  [ "../../src/wasm/basic/edge.rs";
    "../../src/wasm/basic/filtering.rs";
    "../../src/wasm/basic/threshold.rs";
    "../../src/wasm/calib3d/camera.rs";
    "../../src/wasm/features/detection.rs";
    "../../src/wasm/features/object.rs";
    "../../src/wasm/imgproc/contour.rs";
    "../../src/wasm/imgproc/histogram.rs";
    "../../src/wasm/misc/various.rs";
    "../../src/wasm/segmentation/cluster.rs";
    "../../src/wasm/video/tracking.rs" ]%string.

(** The class [a-z_\.] *)
Definition is_var_char (c : ascii) : bool :=
  in_range 97 122 c || is_char "_" c || is_char "." c.

Definition call_tail : string := ", &mut g, ColorConversionCode::BgrToGray)".

(** r'cvt_color\(&([a-z_\.]+), &mut g, ColorConversionCode::BgrToGray\)' *)
Definition pattern : regex :=
  Seq (Str "cvt_color(&") (Seq (Grp 1 (Plus is_var_char)) (Str call_tail)).

Definition indent (n : nat) : list ascii := repeat (ascii_of_nat 32) n.

(** The lines both replacements share: the selection of the conversion
    code from the channel count of [var]. *)
Definition selection_lines (var : list ascii) : list ascii :=
  txt "// Use correct color conversion based on number of channels" ++ nl ++
  indent 8 ++ txt "let conversion_code = if " ++ var ++ txt ".channels() == 4 {" ++ nl ++
  indent 12 ++ txt "ColorConversionCode::RgbaToGray" ++ nl ++
  indent 8 ++ txt "} else {" ++ nl ++
  indent 12 ++ txt "ColorConversionCode::BgrToGray" ++ nl ++
  indent 8 ++ txt "};" ++ nl.

(** The replacement template of the first version, with its two [\1]. *)
Definition replacement (cs : captures) : list ascii :=
  selection_lines (group 1 cs) ++
  indent 8 ++ txt "cvt_color(&" ++ group 1 cs ++ txt ", &mut g, conversion_code)".

(** The body of the loop, for one path. *)
Definition process_file (r : regex) (repl : captures -> list ascii)
    (file_path : string) (w : World) : World :=
  match read_text file_path w with
  | None => print (ErrorIn file_path) w
  | Some original =>
      let content := sub r repl original in
      if negb (text_eqb content original)
      then print (Fixed file_path) (write_text file_path content w)
      else print (NoChanges file_path) w
  end.

Definition run_script (r : regex) (repl : captures -> list ascii)
    (paths : list string) (w : World) : World :=
  foldl (fun w file_path => process_file r repl file_path w) w paths.

Definition main (w : World) : World :=
  print AllDone (run_script pattern replacement files w).

(** An occurrence of the call both patterns look for: [cvt_color(&var,
    &mut g, ColorConversionCode::BgrToGray)] with a non-empty [var] made
    of lowercase letters, underscores and dots. *)
Definition cvt_call (var : list ascii) : list ascii :=
  txt "cvt_color(&" ++ var ++ txt call_tail.

Definition has_cvt_call (content : list ascii) : Prop :=
  exists before var after,
    var <> [] /\ Forall (fun c => is_var_char c = true) var /\
    content = before ++ cvt_call var ++ after.

(** Whether [re.search] finds the call somewhere in a content. *)
Definition call_found (content : list ascii) : bool :=
  match search pattern content with
  | Some _ => true
  | None => false
  end.

(** What a run from [w] to [w'] spares a file: its content is still
    [content], and none of the writes added by the run is to its path. *)
Definition untouched (file_path : string) (content : list ascii)
    (w w' : World) : Prop :=
  read_text file_path w' = Some content /\
  exists new, written w' = new ++ written w /\ file_path ∉ new.

End ChannelFix.

(** ** [examples/web-benchmark/fix_channel_conversions_v2.py]

    The second version has the list of files and the loop of the first;
    its pattern also takes the module path in front of [cvt_color], and
    its replacement is a function of the match. *)

Module ChannelFixV2.
Import Text Re Fs.
Import ChannelFix (is_var_char, call_tail, indent, selection_lines, run_script).

Definition files : list string := ChannelFix.files.

(** The class [\w:] on ASCII text *)
Definition is_path_char (c : ascii) : bool := is_word c || is_char ":" c.

(** The pattern of the second version: the same call, as group 3 within
    r'(P)(cvt_color)\(&([a-z_\.]+), &mut g, ColorConversionCode::BgrToGray\)'
    where the optional module prefix P is the class [\w:] repeated zero or
    more times, greedily. *)
Definition pattern : regex :=
  Seq (Grp 1 (Star is_path_char))
 (Seq (Grp 2 (Str "cvt_color"))
 (Seq (Str "(&")
 (Seq (Grp 3 (Plus is_var_char))
      (Str call_tail)))).

(** [replacement(match)] *)
Definition replacement (cs : captures) : list ascii :=
  let prefix := group 1 cs in
  let func := group 2 cs in
  let var := group 3 cs in
  selection_lines var ++
  indent 8 ++ prefix ++ func ++ txt "(&" ++ var ++ txt ", &mut g, conversion_code)".

Definition main (w : World) : World :=
  print AllDone (run_script pattern replacement files w).

End ChannelFixV2.

(** ** The selection of the conversion code

    Both channel fixers replace every call
    [cvt_color(&var, &mut g, ColorConversionCode::BgrToGray)] by

      let conversion_code = if var.channels() == 4 {
          ColorConversionCode::RgbaToGray
      } else {
          ColorConversionCode::BgrToGray
      };
      cvt_color(&var, &mut g, conversion_code)

    The selection below is that [if] expression. *)

Module Selector.

Inductive ColorConversionCode : Type := BgrToGray | RgbaToGray.

(** An image, with the fields of the data model; the selection reads the
    channel count only. *)
Record Image : Type := mkImage {
  width : nat;
  height : nat;
  channels : nat;
  samples : list Z
}.

(** [if channels == 4 { RgbaToGray } else { BgrToGray }] *)
Definition conversion_code (channels : nat) : ColorConversionCode :=
  if Nat.eqb channels 4 then RgbaToGray else BgrToGray.

Inductive SelectionError : Type := UnsupportedChannelCount.

(** The selection as a call that could fail.  The expression the fixers
    emit has type [ColorConversionCode] and no failing branch, so every
    call returns a code. *)
Definition select_conversion (source_channels : nat)
  : SelectionError + ColorConversionCode :=
  inr (conversion_code source_channels).

End Selector.

(** ** [migrate_backend.py] *)

Module Migrate.
Import Text.
Local Open Scope string_scope.

(** List of GPU operations available (from src/gpu/ops/) *)
Definition GPU_OPS : gset string :=
  list_to_set
  [ "canny"; "sobel"; "scharr"; "laplacian";
    "gaussian_blur"; "box_blur"; "median_blur"; "bilateral_filter"; "filter2d";
    "erode"; "dilate";
    "resize"; "flip"; "rotate"; "warp_affine"; "warp_perspective";
    "threshold"; "adaptive_threshold";
    "rgb_to_gray"; "rgb_to_hsv"; "rgb_to_lab"; "rgb_to_ycrcb";
    "hsv_to_rgb"; "lab_to_rgb"; "ycrcb_to_rgb";
    "add"; "subtract"; "multiply"; "add_weighted"; "absdiff";
    "bitwise_and"; "bitwise_or"; "bitwise_xor"; "bitwise_not";
    "min"; "max"; "convert_scale"; "normalize"; "in_range";
    "pyrdown"; "pyrup"; "remap"; "lut";
    "split"; "merge";
    "exp"; "log"; "sqrt"; "pow";
    "equalize_hist"; "integral_image"; "distance_transform";
    "gradient_magnitude" ].

(** [op_name.replace('_wasm', '').replace('_async', '')] *)
Definition base_name (op_name : string) : string :=
  string_of_list_ascii
    (replace (txt "_async") [] (replace (txt "_wasm") [] (txt op_name))).

(** Check if operation likely has GPU support based on common patterns *)
Definition has_gpu_support (op_name : string) : bool :=
  bool_decide (base_name op_name ∈ GPU_OPS).

(** Convert WASM function name to GPU function name *)
Definition get_gpu_function_name (op_name : string) : string :=
  string_of_list_ascii (replace (txt "_wasm") [] (txt op_name) ++ txt "_gpu_async").

Inductive LookupError : Type := UnknownOperation.

(** The backends an operation resolves to. *)
Inductive Backends : Type := HostOnly | HostAndGpu.

(** The capability lookup as a call that could fail.  [has_gpu_support]
    is the only lookup there is: it raises nothing, and whatever is not in
    [GPU_OPS] has no GPU support. *)
Definition lookup (op_name : string) : LookupError + Backends :=
  inr (if has_gpu_support op_name then HostAndGpu else HostOnly).

End Migrate.

(** ** Kernel invocations over the word-packed buffer

    No kernel launch code is at hand either.  An invocation is modelled
    from the dispatch rule of the buffer contract: invocation [g] handles
    pixel-channel-group [g], the four consecutive bytes [4g .. 4g+3].  A
    [write_byte] is not atomic: it is a load of the word into a register
    of the invocation followed by a store, and the loads and stores of
    concurrently scheduled invocations interleave in any order. *)

Module Kernel.
Import ByteBuffer.
Local Open Scope Z_scope.

(** Modelled from the spec: the memory operations of a kernel body, which
    touches the buffer through [read_byte] and [write_byte] only. *)
Inductive MicroOp : Type :=
| Load (w : Z)                   (* register := buffer[w] *)
| Store (w offset value : Z).    (* buffer[w] := register with one byte replaced *)

Record Thread : Type := mkThread {
  reg : Z;
  pc : list MicroOp
}.

(** Modelled from the spec: the effect of one memory operation on the
    buffer and on the register of the invocation performing it. *)
Definition exec_op (op : MicroOp) (buffer : list Z) (r : Z) : list Z * Z :=
  match op with
  | Load w => (buffer, load_word buffer w)
  | Store w offset value => (store_word buffer w (replace_byte r offset value), r)
  end.

(** Modelled from the spec: the read-modify-write of one [write_byte],
    as the two memory operations it consists of. *)
Definition write_byte_ops (byte_index value : Z) : list MicroOp :=
  [ Load (word_index byte_index);
    Store (word_index byte_index) (byte_offset byte_index) value ].

(** Modelled from the spec: the bytes invocation [g] owns, the four
    consecutive channel bytes of pixel-channel-group [g]. *)
Definition owned_bytes (g : Z) : list Z := [4 * g; 4 * g + 1; 4 * g + 2; 4 * g + 3].

(** Modelled from the spec: the body of invocation [g] of a kernel
    launch: one [write_byte] per owned byte, in order, with the given
    values. *)
Definition invocation_ops (g : Z) (values : list Z) : list MicroOp :=
  concat (zip_with write_byte_ops (owned_bytes g) values).

(** The same invocation run on its own, with whole [write_byte] calls. *)
Definition run_invocation (buffer : list Z) (g : Z) (values : list Z) : list Z :=
  foldl (fun b iv => write_byte b (fst iv) (snd iv)) buffer
        (zip (owned_bytes g) values).

(** The word indices a list of memory operations stores to. *)
Definition written_words (ops : list MicroOp) : list Z :=
  omap (fun op => match op with Store w _ _ => Some w | Load _ => None end) ops.

(** Two invocations in flight over one buffer. *)
Record System : Type := mkSystem {
  buffer : list Z;
  first : Thread;
  second : Thread
}.

Definition step_thread (b : list Z) (t : Thread) : list Z * Thread :=
  match pc t with
  | [] => (b, t)
  | op :: rest =>
      let '(b', r') := exec_op op b (reg t) in (b', mkThread r' rest)
  end.

(** Modelled from the spec: the execution of a launch, in which no order
    is guaranteed between invocations.  One scheduling decision: [true] lets the first invocation perform its
    next memory operation, [false] the second. *)
Definition step (who : bool) (s : System) : System :=
  if who then
    let '(b, t) := step_thread (buffer s) (first s) in mkSystem b t (second s)
  else
    let '(b, t) := step_thread (buffer s) (second s) in mkSystem b (first s) t.

Definition run_schedule (schedule : list bool) (s : System) : System :=
  foldl (fun s who => step who s) s schedule.

Definition launch (b : list Z) (g1 : Z) (values1 : list Z)
    (g2 : Z) (values2 : list Z) : System :=
  mkSystem b (mkThread 0 (invocation_ops g1 values1))
             (mkThread 0 (invocation_ops g2 values2)).

Definition finished (s : System) : Prop := pc (first s) = [] /\ pc (second s) = [].

(** A list of memory operations run without interruption. *)
Definition run_ops (ops : list MicroOp) (b : list Z) (r : Z) : list Z * Z :=
  foldl (fun br op => exec_op op (fst br) (snd br)) (b, r) ops.

(** What the buffer becomes if, from state [s], the first invocation runs
    to its end and then the second one does. *)
Definition outcome (s : System) : list Z :=
  let b1 := fst (run_ops (pc (first s)) (buffer s) (reg (first s))) in
  fst (run_ops (pc (second s)) b1 (reg (second s))).

(** All the operations of a thread address word [g]. *)
Definition on_word (g : Z) (op : MicroOp) : Prop :=
  match op with
  | Load w => w = g
  | Store w _ _ => w = g
  end.

End Kernel.

(** ** The backend dispatcher

    No source of the dispatcher is at hand; the state machine below is
    modelled from its description. *)

Module Dispatcher.
Import Selector.

(** Modelled from the spec: the options of [execute]. *)
Inductive Backend : Type := Auto | Host | Gpu.

Record Options : Type := mkOptions {
  prefer_backend : Backend;
  validate_parity : bool
}.

(** Modelled from the spec: the capability entry of an operation. *)
Record CapabilityEntry : Type := mkEntry {
  host_available : bool;
  gpu_available : bool;
  gpu_channel_support : list nat
}.

(** Modelled from the spec: the two fatal error kinds. *)
Inductive Error : Type := UnknownOperation | UnsupportedChannelCount.

(** Modelled from the spec: the ways a GPU attempt fails; a wait the
    caller gave up on counts as a failure. *)
Inductive GpuFailure : Type := GpuUnavailable | GpuLaunchFailed | GpuTimeout.

(** Modelled from the spec: what an invocation does, as a record of
    events: a GPU attempt, the fallback after a failure, a host execution,
    a parity mismatch. *)
Inductive Event : Type :=
| GpuAttempted
| GpuFellBack (why : GpuFailure)
| HostExecuted
| BackendDivergence.

(** Modelled from the spec: the states of the dispatcher. *)
Inductive State : Type :=
| Start
| CapabilityCheck
| GpuAttempt
| GpuFailed (why : GpuFailure)
| HostExecute
| Done (result : Error + Image).

(** A configuration: the state, the GPU result kept for the parity
    comparison when one was asked for, and the events so far, oldest
    first. *)
Record Config : Type := mkConfig {
  state : State;
  pending : option Image;
  trace : list Event
}.

Definition forces_host (b : Backend) : bool :=
  match b with
  | Host => true
  | Auto | Gpu => false
  end.

Definition is_event (e e' : Event) : bool :=
  match e, e' with
  | GpuAttempted, GpuAttempted => true
  | GpuFellBack _, GpuFellBack _ => true
  | HostExecuted, HostExecuted => true
  | BackendDivergence, BackendDivergence => true
  | _, _ => false
  end.

(** How often an event of the kind of [e] occurs in a trace. *)
Definition occurrences (e : Event) (t : list Event) : nat :=
  length (filter (fun e' => is_event e e' = true) t).

(** Modelled from the spec: the test of [CapabilityCheck] that sends an
    invocation directly to [HostExecute]: no GPU implementation, a channel
    count outside the supported set, or a caller preference for the host. *)
Definition host_only (entry : CapabilityEntry) (input : Image)
    (options : Options) : bool :=
  negb (gpu_available entry)
  || negb (bool_decide (channels input ∈ gpu_channel_support entry))
  || forces_host (prefer_backend options).

Section Machine.

(** Modelled from the spec: the collaborators of the dispatcher.  The
    registry lookup ([None] for a name it does not know), the host
    implementation of every operation, what a GPU attempt comes to for an
    operation and an input, and the comparator of the parity check. *)
Variable registry : string -> option CapabilityEntry.
Variable host_impl : string -> Image -> Image.
Variable gpu_impl : string -> Image -> GpuFailure + Image.
Variable within_tolerance : string -> Image -> Image -> bool.

Variable op_name : string.
Variable input : Image.

(** Modelled from the spec: one transition of
    [Start -> CapabilityCheck -> {GpuAttempt | HostExecute} ->
     [GpuFailed -> HostExecute] -> Done]. *)
Definition step (options : Options) (c : Config) : Config :=
  match state c with
  | Start => mkConfig CapabilityCheck (pending c) (trace c)
  | CapabilityCheck =>
      match registry op_name with
      | None => mkConfig (Done (inl UnknownOperation)) (pending c) (trace c)
      | Some entry =>
          if host_only entry input options
          then mkConfig HostExecute (pending c) (trace c)
          else mkConfig GpuAttempt (pending c) (trace c)
      end
  | GpuAttempt =>
      match gpu_impl op_name input with
      | inr result =>
          if validate_parity options
          then mkConfig HostExecute (Some result) (trace c ++ [GpuAttempted])
          else mkConfig (Done (inr result)) (pending c) (trace c ++ [GpuAttempted])
      | inl why => mkConfig (GpuFailed why) (pending c) (trace c ++ [GpuAttempted])
      end
  | GpuFailed why =>
      mkConfig HostExecute (pending c) (trace c ++ [GpuFellBack why])
  | HostExecute =>
      let result := host_impl op_name input in
      let diverged :=
        match pending c with
        | Some gpu_result => negb (within_tolerance op_name result gpu_result)
        | None => false
        end in
      mkConfig (Done (inr result)) (pending c)
               (trace c ++ HostExecuted :: (if diverged then [BackendDivergence] else []))
  | Done _ => c
  end.

Fixpoint run (fuel : nat) (options : Options) (c : Config) : Config :=
  match fuel with
  | O => c
  | S fuel' =>
      match state c with
      | Done _ => c
      | _ => run fuel' options (step options c)
      end
  end.

(** Modelled from the spec: [execute(op_name, input, options)], with the
    events of the invocation.  The longest path through the machine has
    five transitions; [None] would mean that it did not reach [Done]. *)
Definition execute (options : Options) : option ((Error + Image) * list Event) :=
  let c := run 5 options (mkConfig Start None []) in
  match state c with
  | Done result => Some (result, trace c)
  | _ => None
  end.

End Machine.

Definition with_host (options : Options) : Options :=
  mkOptions Host (validate_parity options).

End Dispatcher.

(** ** Patterns with their captured groups *)

Module ReSem.
Import Text Re.

(** The texts a pattern can consume together with the groups it captures
    on the way: [sem r w cs cs'] says that [r] can consume [w] and turn the
    captures [cs] into [cs']. *)
Fixpoint sem (r : regex) (w : list ascii) (cs cs' : captures) : Prop :=
  match r with
  | Chr c => w = [c] /\ cs' = cs
  | Str t => w = txt t /\ cs' = cs
  | Cls p => (exists a, w = [a] /\ p a = true) /\ cs' = cs
  | Seq r1 r2 =>
      exists w1 w2 cs1, w = w1 ++ w2 /\ sem r1 w1 cs cs1 /\ sem r2 w2 cs1 cs'
  | Alt r1 r2 => sem r1 w cs cs' \/ sem r2 w cs cs'
  | Star p => Forall (fun a => p a = true) w /\ cs' = cs
  | Plus p => w <> [] /\ Forall (fun a => p a = true) w /\ cs' = cs
  | Grp n r' => exists cs0, sem r' w cs cs0 /\ cs' = (n, w) :: cs0
  | WordBoundary | LineStart | NotAhead _ => w = [] /\ cs' = cs
  end.

End ReSem.

(** ** [main] of [scripts/fix_shader_byte_access.py] *)

Module ShaderMain.
Import Text Fs ShaderFix.

(** What [main] itself prints: the error for a missing directory, the
    banner, the number of shader files found, the summary line, and the
    advice printed when something was fixed. *)
Inductive report : Type :=
| DirectoryNotFound
| Banner
| Found (count : nat)
| Summary (fixed_count total : nat)
| ReviewRecommended.

(** [path.name]: what follows the last ["/"] of a path. *)
Fixpoint last_component (s acc : list ascii) : list ascii :=
  match s with
  | [] => acc
  | c :: s' =>
      if is_char "/" c then last_component s' []
      else last_component s' (acc ++ [c])
  end.

Definition name (path : string) : string :=
  string_of_list_ascii (last_component (txt path) []).

(** The order [sorted] puts paths of one directory in. *)
Definition path_le (a b : string) : Prop := String.leb a b = true.

#[global] Instance path_le_dec : RelDecision path_le :=
  fun a b => decide (String.leb a b = true).

(** All .wgsl files except the helpers, sorted; [globbed] is what
    [shaders_dir.glob("*.wgsl")] returns. *)
Definition shader_files (globbed : list string) : list string :=
  merge_sort path_le
    (filter (fun f => name f <> "byte_access_helpers.wgsl"%string) globbed).

(** The loop of [main]: [fix_shader] on every file, counting the calls
    that return [True]; [None] when a call raises. *)
Fixpoint fix_each (BYTE_ACCESS_HELPERS : list ascii) (paths : list string)
    (fixed_count : nat) (w : World) : option (nat * World) :=
  match paths with
  | [] => Some (fixed_count, w)
  | shader_path :: rest =>
      match fix_shader BYTE_ACCESS_HELPERS shader_path w with
      | None => None
      | Some (true, w') => fix_each BYTE_ACCESS_HELPERS rest (S fixed_count) w'
      | Some (false, w') => fix_each BYTE_ACCESS_HELPERS rest fixed_count w'
      end
  end.

(** [main()]: the exit code, what [main] prints and the state it leaves.
    [dir_exists] is [shaders_dir.exists()]. *)
Definition main (BYTE_ACCESS_HELPERS : list ascii) (dir_exists : bool)
    (globbed : list string) (w : World) : option (Z * list report * World) :=
  if negb dir_exists then Some (1%Z, [DirectoryNotFound], w)
  else
    let files := shader_files globbed in
    match fix_each BYTE_ACCESS_HELPERS files 0 w with
    | None => None
    | Some (fixed_count, w') =>
        Some (0%Z,
              [Banner; Found (length files); Summary fixed_count (length files)]
              ++ (if (0 <? fixed_count)%nat then [ReviewRecommended] else []),
              w')
    end.

(** A content [fix_shader] leaves alone. *)
Definition quiet (helpers content : list ascii) : Prop :=
  match fixed_content helpers content with
  | inl _ => True
  | inr new => new = content
  end.

(** The text whose presence makes [fix_shader] skip a file. *)
Definition marker : list ascii := txt "read_byte".

(** A file [fix_shader] can read and leaves alone. *)
Definition settled (helpers : list ascii) (p : string) (w : World) : Prop :=
  exists content, read_text p w = Some content /\ quiet helpers content.

End ShaderMain.

(** ** Concrete inputs

    Small inputs on which the statements below are evaluated. *)

Module Samples.
Import Text Fs Selector.

(** Two contents the patterns of the channel fixers pass over: a
    destination other than [g], and a source variable with an uppercase
    letter. *)
Definition other_destination : list ascii :=
  txt "cvt_color(&src.inner, &mut gray, ColorConversionCode::BgrToGray)?;".
Definition camel_case_source : list ascii :=
  txt "crate::imgproc::color::cvt_color(&srcImg, &mut g, ColorConversionCode::BgrToGray)?;".

Definition two_files : World :=
  mkWorld (<["../../src/wasm/basic/edge.rs"%string := other_destination]>
          (<["../../src/wasm/misc/various.rs"%string := camel_case_source]> ∅))
          [] [].

(** A shader that already calls the helpers. *)
Definition fixed_shader : list ascii :=
  txt "fn read_byte(i: u32) -> u32 { return 0u; } @compute fn main() { output[0] = input[0]; }".

Definition one_shader : World :=
  mkWorld (<["src/gpu/shaders/blur.wgsl"%string := fixed_shader]> ∅) [] [].

(** A registry with one GPU operation, a host implementation, and a GPU
    whose every launch fails. *)
Definition blur_only (op_name : string) : option Dispatcher.CapabilityEntry :=
  if String.eqb op_name "gaussian_blur"
  then Some (Dispatcher.mkEntry true true [3; 4])
  else None.

Definition host_keeps_first_sample (op_name : string) (input : Image) : Image :=
  mkImage (width input) (height input) 1 (take 1 (samples input)).

Definition gpu_never_launches (op_name : string) (input : Image)
  : Dispatcher.GpuFailure + Image :=
  inl Dispatcher.GpuLaunchFailed.

Definition exact_parity (op_name : string) (a b : Image) : bool :=
  bool_decide (width a = width b) && bool_decide (height a = height b) &&
  bool_decide (channels a = channels b) && bool_decide (samples a = samples b).

Definition rgba_pixel : Image := mkImage 1 1 4 [10; 20; 30; 255]%Z.

(** Sixteen scheduling decisions that interleave the loads and stores of
    two invocations and let both finish. *)
Definition interleaved : list bool :=
  [true; false; false; true; true; true; false; false;
   false; true; false; true; true; false; false; true].

End Samples.

(** ** Concrete inputs for the scripts *)

Module MoreSamples.
Import Text Fs ShaderFix ShaderMain.

Definition helpers_text : list ascii :=
  txt "fn read_byte(i: u32) -> u32 { return 0u; }".

Definition raw_shader : list ascii :=
  txt "var<storage> input: array<u32>;" ++ nl ++
  txt "@compute fn main() { output[i] = input[i] + 1u; }".

Definition blur_path : string := "src/gpu/shaders/blur.wgsl".
Definition helpers_path : string := "src/gpu/shaders/byte_access_helpers.wgsl".
Definition plain_path : string := "src/gpu/shaders/plain.wgsl".

(** A shader directory with a shader to fix, the helpers file and a
    shader without storage buffers. *)
Definition shader_dir : World :=
  mkWorld (<[blur_path := raw_shader]>
          (<[helpers_path := helpers_text]>
          (<[plain_path := txt "// nothing to do"]> ∅)))
          [] [].

Definition globbed : list string := [plain_path; helpers_path; blur_path].

Definition after_first_fix : World :=
  match fix_shader helpers_text blur_path shader_dir with
  | Some (_, w') => w'
  | None => shader_dir
  end.

Definition main_reports : list report :=
  match main helpers_text true globbed shader_dir with
  | Some (_, reports, _) => reports
  | None => []
  end.

Definition after_main : World :=
  match main helpers_text true globbed shader_dir with
  | Some (_, _, w') => w'
  | None => shader_dir
  end.

End MoreSamples.

(** ** What a substitution does, declaratively *)

Module Rewrite.
Import Text Re.

(** The character before the position reached after reading [t], when
    [prev] was the character before [t]. *)
Fixpoint char_before (prev : option ascii) (t : list ascii) : option ascii :=
  match t with
  | [] => prev
  | c :: t' => char_before (Some c) t'
  end.

(** No position inside [t], read with [following] after it and [prev]
    before it, starts a match. *)
Definition no_match_in (r : regex) (prev : option ascii)
    (t following : list ascii) : Prop :=
  forall t1 c t2, t = t1 ++ c :: t2 ->
    match_here r (char_before prev t1) (c :: t2 ++ following) = None.

(** [replaces r repl prev s out]: [out] is [s] with the matches of [r],
    leftmost first and without overlap, replaced by what [repl] makes of
    their groups, and everything else kept; [prev] is the character
    before [s]. *)
Inductive replaces (r : regex) (repl : captures -> list ascii)
  : option ascii -> list ascii -> list ascii -> Prop :=
| replaces_none (prev : option ascii) (tail : list ascii) :
    no_match_in r prev tail [] -> replaces r repl prev tail tail
| replaces_one (prev : option ascii) (t w rest out : list ascii) (cs : captures) :
    no_match_in r prev t (w ++ rest) ->
    w <> [] ->
    match_here r (char_before prev t) (w ++ rest) = Some (cs, rest) ->
    replaces r repl (char_before (char_before prev t) w) rest out ->
    replaces r repl prev (t ++ w ++ rest) (t ++ repl cs ++ out).

End Rewrite.

(** ** What the channel fixers make of a file *)

Module ChannelSpec.
Import Text Re Fs ChannelFix.

(** The text a call with source [var] becomes: the selection of the
    conversion code, then the call with [conversion_code]. *)
Definition fixed_call (var : list ascii) : list ascii :=
  selection_lines var ++
  indent 8 ++ txt "cvt_color(&" ++ var ++ txt ", &mut g, conversion_code)".

(** The same for the second version: the module path [prefix] goes in
    front of the call, after the selection. *)
Definition fixed_call_v2 (prefix var : list ascii) : list ascii :=
  selection_lines var ++
  indent 8 ++ prefix ++ txt "cvt_color" ++ txt "(&" ++ var ++
  txt ", &mut g, conversion_code)".

Definition is_var (var : list ascii) : Prop :=
  var <> [] /\ Forall (fun c => is_var_char c = true) var.

(** [calls_fixed content out]: [out] is [content] with every call
    replaced by its fixed form, the calls taken from left to right; the
    text between the calls is kept and holds no call. *)
Inductive calls_fixed : list ascii -> list ascii -> Prop :=
| calls_fixed_done (tail : list ascii) :
    ~ has_cvt_call tail -> calls_fixed tail tail
| calls_fixed_call (t var rest out : list ascii) :
    ~ has_cvt_call t -> is_var var -> calls_fixed rest out ->
    calls_fixed (t ++ cvt_call var ++ rest) (t ++ fixed_call var ++ out).

(** No call starts inside [t] when the text is read on into
    [following]. *)
Definition no_call_from (t following : list ascii) : Prop :=
  forall t1 c t2 var after, t = t1 ++ c :: t2 -> is_var var ->
    c :: t2 ++ following <> cvt_call var ++ after.

(** The module path in front of a call: the whole run of characters of
    the class [\w:] that ends where the call starts.  [t] is the text in
    front of the run, from the start of the content or from the end of the
    call before, which is a parenthesis; so the run is whole when [t] does
    not end with a character of the class. *)
Definition module_path (t prefix : list ascii) : Prop :=
  Forall (fun c => ChannelFixV2.is_path_char c = true) prefix /\
  forall t' c, t = t' ++ [c] -> ChannelFixV2.is_path_char c = false.

(** [calls_fixed_v2 content out]: the same for the second version; each
    call is taken with its module path, which goes between the selection
    and the call.  The text in front of a path holds no start of a
    call. *)
Inductive calls_fixed_v2 : list ascii -> list ascii -> Prop :=
| calls_fixed_v2_done (tail : list ascii) :
    ~ has_cvt_call tail -> calls_fixed_v2 tail tail
| calls_fixed_v2_call (t prefix var rest out : list ascii) :
    no_call_from t (prefix ++ cvt_call var ++ rest) ->
    module_path t prefix ->
    is_var var -> calls_fixed_v2 rest out ->
    calls_fixed_v2 (t ++ prefix ++ cvt_call var ++ rest)
                   (t ++ fixed_call_v2 prefix var ++ out).

(** What processing some paths may do to the files: nothing appears or
    disappears, the writes added are to paths processed that could be
    read, and the other files keep their content. *)
Definition confined (paths : list string) (w w' : World) : Prop :=
  dom (disk w') = dom (disk w) /\
  exists new,
    written w' = new ++ written w /\
    (forall p, p ∈ new -> p ∈ paths /\ is_Some (disk w !! p)) /\
    (forall p, p ∉ new -> disk w' !! p = disk w !! p).

End ChannelSpec.

(** ** Patterns in their context *)

Module ReCtx.
Import Text Re Rewrite.

(** [sem_at r prev w rest cs cs']: at a position with [prev] before it, [r]
    can consume [w] with [rest] left after it, turning the captures [cs]
    into [cs'].  The assertions are read in their context: [\b] looks at
    the characters on both sides, [^] at the one before, and [(?!r)] runs
    [r] on what lies ahead. *)
Fixpoint sem_at (r : regex) (prev : option ascii) (w rest : list ascii)
    (cs cs' : captures) : Prop :=
  match r with
  | Chr c => w = [c] /\ cs' = cs
  | Str t => w = txt t /\ cs' = cs
  | Cls p => (exists a, w = [a] /\ p a = true) /\ cs' = cs
  | Seq r1 r2 =>
      exists w1 w2 cs1,
        w = w1 ++ w2 /\
        sem_at r1 prev w1 (w2 ++ rest) cs cs1 /\
        sem_at r2 (char_before prev w1) w2 rest cs1 cs'
  | Alt r1 r2 => sem_at r1 prev w rest cs cs' \/ sem_at r2 prev w rest cs cs'
  | Star p => Forall (fun a => p a = true) w /\ cs' = cs
  | Plus p => w <> [] /\ Forall (fun a => p a = true) w /\ cs' = cs
  | Grp n r' => exists cs0, sem_at r' prev w rest cs cs0 /\ cs' = (n, w) :: cs0
  | WordBoundary =>
      w = [] /\ cs' = cs /\ xorb (is_word_at prev) (is_word_at (head rest)) = true
  | LineStart =>
      w = [] /\ cs' = cs /\ (prev = None \/ prev = Some (ascii_of_nat 10))
  | NotAhead r' =>
      w = [] /\ cs' = cs /\ run r' prev rest cs (fun _ _ _ => Some tt) = None
  end.

End ReCtx.

(** ** What the shader fixer makes of the buffer accesses *)

Module ShaderSpec.
Import Text Re Rewrite ShaderFix.

(** What follows is an assignment (or a comparison): optional white
    space, then ["="]. *)
Definition assigned (rest : list ascii) : Prop :=
  exists ws rest',
    Forall (fun c => is_space c = true) ws /\ rest = ws ++ "="%char :: rest'.

(** A read access at the start of [s]: the word [input], not glued to a
    word before it, an index in brackets, and no ["="] after it. *)
Definition read_access (prev : option ascii) (s idx rest : list ascii) : Prop :=
  s = txt "input[" ++ idx ++ "]"%char :: rest /\
  is_word_at prev = false /\
  idx <> [] /\ Forall (fun c => c <> "]"%char) idx /\
  ~ assigned rest.

Definition no_read_in (prev : option ascii) (t following : list ascii) : Prop :=
  forall t1 c t2 idx rest, t = t1 ++ c :: t2 ->
    ~ read_access (char_before prev t1) (c :: t2 ++ following) idx rest.

(** [reads_rewritten prev s out]: [out] is [s] with its read accesses,
    taken from left to right, turned into calls of [read_byte]; the text
    between them holds no read access and is kept. *)
Inductive reads_rewritten : option ascii -> list ascii -> list ascii -> Prop :=
| reads_done (prev : option ascii) (tail : list ascii) :
    no_read_in prev tail [] -> reads_rewritten prev tail tail
| reads_one (prev : option ascii) (t idx rest out : list ascii) :
    no_read_in prev t (txt "input[" ++ idx ++ "]"%char :: rest) ->
    read_access (char_before prev t) (txt "input[" ++ idx ++ "]"%char :: rest)
                idx rest ->
    reads_rewritten (Some "]"%char) rest out ->
    reads_rewritten prev (t ++ txt "input[" ++ idx ++ "]"%char :: rest)
                    (t ++ txt "read_byte(&input, " ++ idx ++ txt ")" ++ out).

(** An assignment to an element of [output] at the start of [s]: the
    word [output], not glued to a word before it, an index in brackets,
    ["="] with optional white space around it, a value and [";"]. *)
Definition write_access (prev : option ascii) (s idx value rest : list ascii)
  : Prop :=
  exists ws1 ws2,
    Forall (fun c => is_space c = true) ws1 /\
    Forall (fun c => is_space c = true) ws2 /\
    s = txt "output[" ++ idx ++ "]"%char :: ws1 ++ "="%char :: ws2 ++
        value ++ ";"%char :: rest /\
    is_word_at prev = false /\
    idx <> [] /\ Forall (fun c => c <> "]"%char) idx /\
    value <> [] /\ Forall (fun c => c <> ";"%char) value.

(** Where the value of an assignment starts: [\s*] after ["="] is
    greedy, so the value starts with a character that is not white space;
    only when white space is all there is before [";"] the value is its
    last character. *)
Definition value_start (value : list ascii) : Prop :=
  match value with
  | c :: v => is_space c = false \/ v = []
  | [] => False
  end.

Definition no_write_in (prev : option ascii) (t following : list ascii) : Prop :=
  forall t1 c t2 idx value rest, t = t1 ++ c :: t2 ->
    ~ write_access (char_before prev t1) (c :: t2 ++ following) idx value rest.

(** [writes_rewritten prev s out]: [out] is [s] with its assignments to
    elements of [output], taken from left to right, turned into calls of
    [write_byte]; the text between them holds no such assignment and is
    kept.  The index is the text up to the first ["]"], the value the text
    from [value_start] up to the first [";"]. *)
Inductive writes_rewritten : option ascii -> list ascii -> list ascii -> Prop :=
| writes_done (prev : option ascii) (tail : list ascii) :
    no_write_in prev tail [] -> writes_rewritten prev tail tail
| writes_one (prev : option ascii) (t stmt idx value rest out : list ascii) :
    no_write_in prev t (stmt ++ rest) ->
    write_access (char_before prev t) (stmt ++ rest) idx value rest ->
    value_start value ->
    writes_rewritten (Some ";"%char) rest out ->
    writes_rewritten prev (t ++ stmt ++ rest)
      (t ++ txt "write_byte(&output, " ++ idx ++ txt ", " ++ value ++ txt ");"
         ++ out).

(** The text at which [fix_shader] inserts the helpers: ["@compute"], or
    ["fn"] and a white space at the start of a line. *)
Definition entry_point (prev : option ascii) (s : list ascii) : Prop :=
  (exists rest, s = txt "@compute" ++ rest) \/
  ((prev = None \/ prev = Some (ascii_of_nat 10)) /\
   exists sp rest, is_space sp = true /\ s = txt "fn" ++ sp :: rest).

(** No position inside [t], read with [following] after it and [prev]
    before it, is an entry point. *)
Definition no_entry_in (prev : option ascii) (t following : list ascii) : Prop :=
  forall t1 c t2, t = t1 ++ c :: t2 ->
    ~ entry_point (char_before prev t1) (c :: t2 ++ following).

End ShaderSpec.

(** The content the sample shader is given. *)
Module ShaderSamples.
Import Text ShaderFix MoreSamples.

Definition fixed_blur : list ascii :=
  match fixed_content helpers_text raw_shader with
  | inr new => new
  | inl _ => []
  end.

End ShaderSamples.

(** ** Inputs for the lookups and for a file that holds a call *)

Module CallSamples.
Import Text Fs.

Definition gray_call : list ascii :=
  txt "let r = crate::imgproc::color::cvt_color(&src.inner, &mut g, ColorConversionCode::BgrToGray)?;".



End CallSamples.

(** ** The spellings of an operation in [migrate_backend.py] *)

Module MigrateSpec.
Import Text Migrate.
Local Open Scope string_scope.

(** What is expected of an operation of the table under the names the
    WASM layer gives it. *)
Definition spelled (op : string) : bool :=
  has_gpu_support op &&
  has_gpu_support (op ++ "_wasm") &&
  has_gpu_support (op ++ "_async") &&
  has_gpu_support (op ++ "_wasm_async") &&
  String.eqb (get_gpu_function_name (op ++ "_wasm")) (op ++ "_gpu_async") &&
  String.eqb (get_gpu_function_name (op ++ "_wasm_async"))
             (op ++ "_async_gpu_async").

End MigrateSpec.

(** ** [tests/fixtures/generate_fixtures.py]

    The six generators build an image in memory with numpy and Pillow and
    touch no file, except that [create_text] tries to load a font; the
    images themselves are left abstract here.  [main] is modelled in full:
    which files it tests, creates and reports. *)

Module Fixtures.
Local Open Scope string_scope.

Inductive message : Type :=
| Generating
| AlreadyExists (filename : string)
| Creating (filename : string)
| Saved (filepath : string)
| Generated
| VerifyWith.

(** What the script sees and changes: the files that exist, the state of
    numpy's global random generator, and the lines printed. *)
Record World (Content Rng : Type) : Type := mkWorld {
  disk : gmap string Content;
  rng : Rng;
  console : list message
}.
Arguments mkWorld {Content Rng}.
Arguments disk {Content Rng}.
Arguments rng {Content Rng}.
Arguments console {Content Rng}.

(** The images of the generators, and [img.save]: the content of the PNG
    file of an image.  [create_text] depends on the font file it tries to
    load, [create_noise] draws from the random generator. *)
Class Imaging (Content Rng Image : Type) : Type := {
  create_lenna_alternative : Image;
  create_shapes : Image;
  create_text : option Content -> Image;
  create_gradient : Image;
  create_noise : Rng -> Image * Rng;
  create_edges : Image;
  save : Image -> Content
}.

(** [b.startswith('/')] *)
Definition starts_with_sep (b : string) : bool :=
  match b with
  | String c _ => Ascii.eqb c "/"
  | EmptyString => false
  end.

(** [path.endswith('/')] *)
Fixpoint ends_with_sep (a : string) : bool :=
  match a with
  | EmptyString => false
  | String c EmptyString => Ascii.eqb c "/"
  | String _ rest => ends_with_sep rest
  end.

(** [os.path.join(a, b)] of posixpath *)
Definition join (a b : string) : string :=
  if starts_with_sep b then b
  else if String.eqb a "" || ends_with_sep a then a ++ b
  else a ++ "/" ++ b.

Section Script.
Context {Content Rng Image : Type} `{!Imaging Content Rng Image}.

Definition font_path : string :=
  "/usr/share/fonts/truetype/dejavu/DejaVuSans.ttf".

(** A generator, called in a state: its image and the random state it
    leaves. *)
Definition generator : Type := World Content Rng -> Image * Rng.

(** The dictionary [fixtures], in the order of its items. *)
Definition fixtures : list (string * generator) :=
  [ ("lenna.png", fun w => (create_lenna_alternative, rng w));
    ("shapes.png", fun w => (create_shapes, rng w));
    ("text.png", fun w => (create_text (disk w !! font_path), rng w));
    ("gradient.png", fun w => (create_gradient, rng w));
    ("noise.png", fun w => create_noise (rng w));
    ("edges.png", fun w => (create_edges, rng w)) ].

Definition print (m : message) (w : World Content Rng) : World Content Rng :=
  mkWorld (disk w) (rng w) (m :: console w).

(** [os.path.exists(filepath)] *)
Definition path_exists (filepath : string) (w : World Content Rng) : bool :=
  bool_decide (is_Some (disk w !! filepath)).

(** One round of the loop of [main]; [script_dir] is
    [os.path.dirname(__file__)]. *)
Definition generate (script_dir : string) (w : World Content Rng)
    (fixture : string * generator) : World Content Rng :=
  let filename := fst fixture in
  let filepath := join script_dir filename in
  if path_exists filepath w then print (AlreadyExists filename) w
  else
    let w1 := print (Creating filename) w in
    let img := snd fixture w1 in
    print (Saved filepath)
      (mkWorld (<[filepath := save (fst img)]> (disk w1)) (snd img) (console w1)).

Definition main (script_dir : string) (w : World Content Rng) : World Content Rng :=
  print VerifyWith
    (print Generated
       (foldl (generate script_dir) (print Generating w) fixtures)).



End Script.
End Fixtures.

(** A small instance: images, contents and random states are numbers,
    and [create_noise] hands out its state and moves on. *)
Module FixtureSamples.
Import Fixtures.

Definition counting : Imaging nat nat nat :=
  {| create_lenna_alternative := 1;
     create_shapes := 2;
     create_text := fun font => match font with Some _ => 3 | None => 4 end;
     create_gradient := 5;
     create_noise := fun r => (100 + r, S r);
     create_edges := 6;
     save := fun img => img |}.

Definition only_shapes : World nat nat :=
  mkWorld (<["tests/fixtures/shapes.png"%string := 0]> ∅) 7 [].

End FixtureSamples.

(** * Properties *)

(** ** Word-packed byte buffer *)

Section ByteBufferFacts.
Import ByteBuffer.
Local Open Scope Z_scope.

Lemma byte_offset_cases (i : Z) :
  byte_offset i = 0 \/ byte_offset i = 1 \/ byte_offset i = 2 \/ byte_offset i = 3.
Proof.
  unfold byte_offset.
  pose proof (Z.mod_pos_bound i 4 ltac:(lia)). lia.
Qed.

Lemma testbit_255 (n : Z) : 0 <= n -> Z.testbit 255 n = (n <? 8).
Proof.
  intros Hn. change 255 with (Z.ones 8).
  rewrite Z.testbit_ones by lia.
  destruct (Z.leb_spec 0 n); [reflexivity | lia].
Qed.

Lemma testbit_wrap32 (x n : Z) :
  0 <= n -> Z.testbit (wrap32 x) n = (n <? 32) && Z.testbit x n.
Proof.
  intros Hn. unfold wrap32, u32_modulus.
  rewrite Z.testbit_mod_pow2 by lia. reflexivity.
Qed.

Lemma testbit_u8_high (v n : Z) : is_u8 v -> 8 <= n -> Z.testbit v n = false.
Proof.
  intros [Hlo Hhi] Hn.
  destruct (Z.eq_dec v 0) as [-> | Hv]; [apply Z.bits_0 |].
  apply Z.bits_above_log2; [lia |].
  assert (Z.log2 v < 8); [| lia].
  apply Z.log2_lt_pow2; lia.
Qed.

(** Bit [n] of a word after its byte [k] was replaced. *)
Lemma testbit_replace_byte (word k v n : Z) :
  0 <= k < 4 -> is_u8 v -> 0 <= n ->
  Z.testbit (replace_byte word k v) n =
    if (k * 8 <=? n) && (n <? k * 8 + 8) then Z.testbit v (n - k * 8)
    else (n <? 32) && Z.testbit word n.
Proof.
  intros Hk Hv Hn. unfold replace_byte.
  rewrite Z.lor_spec, Z.land_spec, !testbit_wrap32 by lia.
  rewrite Z.lnot_spec by lia. rewrite testbit_wrap32 by lia.
  rewrite !Z.shiftl_spec by lia.
  destruct (Z.leb_spec (k * 8) n) as [Hle | Hlt]; simpl.
  - rewrite testbit_255 by lia.
    destruct (Z.ltb_spec n (k * 8 + 8)) as [Hin | Hout].
    + replace (n - k * 8 <? 8) with true by (symmetry; apply Z.ltb_lt; lia).
      replace (n <? 32) with true by (symmetry; apply Z.ltb_lt; lia).
      simpl. rewrite andb_false_r. reflexivity.
    + replace (n - k * 8 <? 8) with false by (symmetry; apply Z.ltb_ge; lia).
      rewrite (testbit_u8_high v (n - k * 8)) by (auto; lia).
      rewrite !andb_false_r, orb_false_r. simpl.
      rewrite andb_true_r. apply andb_comm.
  - rewrite !(Z.testbit_neg_r _ (n - k * 8)) by lia.
    rewrite !andb_false_r, orb_false_r. simpl.
    rewrite andb_true_r. apply andb_comm.
Qed.

(** The byte extracted by shift and mask is the arithmetic byte. *)
Lemma shift_mask_le_byte (word k : Z) :
  0 <= k -> Z.land (Z.shiftr word (k * 8)) 255 = le_byte word k.
Proof.
  intros Hk. unfold le_byte.
  change 255 with (Z.ones 8). rewrite Z.land_ones by lia.
  rewrite Z.shiftr_div_pow2 by lia.
  replace (256 ^ k) with (2 ^ (k * 8)); [reflexivity |].
  change 256 with (2 ^ 8). rewrite <- Z.pow_mul_r by lia. f_equal. lia.
Qed.

Lemma testbit_extract (word k n : Z) :
  0 <= k -> 0 <= n ->
  Z.testbit (Z.land (Z.shiftr word (k * 8)) 255) n =
    (n <? 8) && Z.testbit word (n + k * 8).
Proof.
  intros Hk Hn.
  rewrite Z.land_spec, Z.shiftr_spec, testbit_255 by lia. apply andb_comm.
Qed.

Lemma extract_replace_same (word k v : Z) :
  0 <= k < 4 -> is_u8 v ->
  Z.land (Z.shiftr (replace_byte word k v) (k * 8)) 255 = v.
Proof.
  intros Hk Hv. apply Z.bits_inj'. intros n Hn.
  rewrite testbit_extract, testbit_replace_byte by (auto; lia).
  destruct (Z.ltb_spec n 8) as [Hin | Hout]; simpl.
  - replace (k * 8 <=? n + k * 8) with true by (symmetry; apply Z.leb_le; lia).
    replace (n + k * 8 <? k * 8 + 8) with true by (symmetry; apply Z.ltb_lt; lia).
    simpl. f_equal. lia.
  - symmetry. apply testbit_u8_high; [assumption | lia].
Qed.

Lemma extract_replace_other (word k k' v : Z) :
  0 <= k < 4 -> 0 <= k' < 4 -> k' <> k -> is_u8 v ->
  Z.land (Z.shiftr (replace_byte word k v) (k' * 8)) 255 =
  Z.land (Z.shiftr word (k' * 8)) 255.
Proof.
  intros Hk Hk' Hne Hv. apply Z.bits_inj'. intros n Hn.
  rewrite !testbit_extract, testbit_replace_byte by (auto; lia).
  destruct (Z.ltb_spec n 8) as [Hin | Hout]; simpl; [| reflexivity].
  replace ((k * 8 <=? n + k' * 8) && (n + k' * 8 <? k * 8 + 8)) with false.
  - replace (n + k' * 8 <? 32) with true by (symmetry; apply Z.ltb_lt; lia).
    reflexivity.
  - symmetry. apply andb_false_iff.
    rewrite Z.leb_gt, Z.ltb_ge. lia.
Qed.

Lemma replace_byte_is_u32 (word k v : Z) :
  0 <= k < 4 -> is_u8 v -> is_u32 (replace_byte word k v).
Proof.
  intros Hk Hv.
  assert (Hmod : replace_byte word k v = wrap32 (replace_byte word k v)).
  { apply Z.bits_inj'. intros n Hn.
    rewrite testbit_wrap32, testbit_replace_byte by (auto; lia).
    destruct (Z.ltb_spec n 32) as [Hin | Hout]; simpl; [reflexivity |].
    replace ((k * 8 <=? n) && (n <? k * 8 + 8)) with false; [reflexivity |].
    symmetry. apply andb_false_iff. rewrite Z.leb_gt, Z.ltb_ge. lia. }
  rewrite Hmod. unfold is_u32, wrap32, u32_modulus.
  apply Z.mod_pos_bound. lia.
Qed.

Lemma load_store_same (buffer : list Z) (w x : Z) :
  0 <= w < Z.of_nat (length buffer) -> load_word (store_word buffer w x) w = x.
Proof.
  intros Hw. unfold load_word, store_word.
  apply nth_lookup_Some with (d := 0).
  apply list_lookup_insert_eq. lia.
Qed.

Lemma load_store_other (buffer : list Z) (w w' x : Z) :
  0 <= w -> 0 <= w' -> w' <> w ->
  load_word (store_word buffer w x) w' = load_word buffer w'.
Proof.
  intros Hw Hw' Hne. unfold load_word, store_word.
  rewrite !nth_lookup. rewrite list_lookup_insert_ne by lia. reflexivity.
Qed.

Lemma word_index_in_range (buffer : list Z) (i : Z) :
  0 <= i < byte_length buffer -> 0 <= word_index i < Z.of_nat (length buffer).
Proof.
  unfold byte_length, word_index. intros Hi. split.
  - apply Z.div_pos; lia.
  - apply Z.div_lt_upper_bound; lia.
Qed.

Lemma byte_offset_range (i : Z) : 0 <= byte_offset i < 4.
Proof. unfold byte_offset. apply Z.mod_pos_bound. lia. Qed.

Lemma byte_index_split (i : Z) : i = 4 * word_index i + byte_offset i.
Proof. unfold word_index, byte_offset. apply Z.div_mod. lia. Qed.

(** C1. For every buffer, every byte index [i] inside it and every byte
    value [v]: reading byte [i] after writing [v] at [i] gives [v], and
    every other byte [j], in the same word as [i] or in another one, reads
    as it did before the write. *)
Theorem read_byte_write_byte (buf : list Z) (i v : Z) :
  0 <= i < byte_length buf -> is_u8 v ->
  read_byte (write_byte buf i v) i = v /\
  forall j, 0 <= j < byte_length buf -> j <> i ->
    read_byte (write_byte buf i v) j = read_byte buf j.
Proof.
  intros Hi Hv.
  pose proof (word_index_in_range buf i Hi) as Hw.
  pose proof (byte_offset_range i) as Ho.
  split.
  - unfold read_byte, write_byte. rewrite load_store_same by assumption.
    apply extract_replace_same; assumption.
  - intros j Hj Hne.
    pose proof (word_index_in_range buf j Hj) as Hwj.
    pose proof (byte_offset_range j) as Hoj.
    unfold read_byte, write_byte.
    destruct (Z.eq_dec (word_index j) (word_index i)) as [Heq | Hdiff].
    + rewrite Heq, load_store_same by assumption.
      apply extract_replace_other; try assumption.
      intros Hoff. apply Hne.
      rewrite (byte_index_split j), (byte_index_split i). lia.
    + rewrite load_store_other by lia. reflexivity.
Qed.

Lemma read_byte_write_byte_witness :
  read_byte (write_byte [287454020; 2291772091] 5 171) 5 = 171 /\
  read_byte (write_byte [287454020; 2291772091] 5 171) 4 =
  read_byte [287454020; 2291772091] 4.
Proof.
  assert (Hi : 0 <= 5 < byte_length [287454020; 2291772091])
    by (unfold byte_length; simpl; lia).
  assert (Hv : is_u8 171) by (unfold is_u8; lia).
  destruct (read_byte_write_byte [287454020; 2291772091] 5 171 Hi Hv)
    as [Hsame Hother].
  split; [exact Hsame |].
  apply Hother; [unfold byte_length; simpl; lia | lia].
Defined.

(** C4. [read_byte buffer i] is the [(i mod 4)]-th little-endian byte of
    the word [buffer[i / 4]]; [write_byte] stores into that same word
    [i / 4] a word whose byte [i mod 4] is the new value and whose other
    three bytes are those of the old word. *)
Theorem byte_to_word_mapping (buf : list Z) (i v : Z) :
  0 <= i < byte_length buf -> is_u8 v ->
  read_byte buf i = le_byte (load_word buf (i / 4)) (i mod 4) /\
  exists w',
    write_byte buf i v = store_word buf (i / 4) w' /\
    is_u32 w' /\
    le_byte w' (i mod 4) = v /\
    forall k, 0 <= k < 4 -> k <> i mod 4 ->
      le_byte w' k = le_byte (load_word buf (i / 4)) k.
Proof.
  intros Hi Hv.
  pose proof (byte_offset_range i) as Ho.
  change (i / 4) with (word_index i). change (i mod 4) with (byte_offset i).
  split.
  - unfold read_byte. apply shift_mask_le_byte. lia.
  - exists (replace_byte (load_word buf (word_index i)) (byte_offset i) v).
    split; [reflexivity |].
    split; [apply replace_byte_is_u32; assumption |].
    split.
    + rewrite <- shift_mask_le_byte by lia.
      apply extract_replace_same; assumption.
    + intros k Hk Hne.
      rewrite <- !shift_mask_le_byte by lia.
      apply extract_replace_other; assumption.
Qed.

Lemma byte_to_word_mapping_witness :
  read_byte [287454020; 2291772091] 6 =
  le_byte (load_word [287454020; 2291772091] (6 / 4)) (6 mod 4) /\
  exists w',
    write_byte [287454020; 2291772091] 6 9 =
    store_word [287454020; 2291772091] (6 / 4) w' /\
    is_u32 w' /\
    le_byte w' (6 mod 4) = 9 /\
    forall k, 0 <= k < 4 -> k <> 6 mod 4 ->
      le_byte w' k = le_byte (load_word [287454020; 2291772091] (6 / 4)) k.
Proof.
  apply (byte_to_word_mapping [287454020; 2291772091] 6 9).
  - unfold byte_length; simpl; lia.
  - unfold is_u8; lia.
Defined.

End ByteBufferFacts.

(** ** The selection of the conversion code *)

Section SelectorFacts.
Import Selector.

(** C2. For every image source, the selection returns the 4-channel code
    [RgbaToGray], and not the 3-channel code, when the source has 4
    channels, and the 3-channel code [BgrToGray], and not the 4-channel
    code, when it has 3. *)
Theorem select_conversion_by_channels (source : Image) :
  (channels source = 4 ->
     select_conversion (channels source) = inr RgbaToGray /\
     select_conversion (channels source) <> inr BgrToGray) /\
  (channels source = 3 ->
     select_conversion (channels source) = inr BgrToGray /\
     select_conversion (channels source) <> inr RgbaToGray).
Proof.
  split; intros ->; split; try reflexivity; discriminate.
Qed.

Lemma select_conversion_by_channels_witness :
  select_conversion (channels (mkImage 2 1 4 [1; 2; 3; 4; 5; 6; 7; 8]%Z))
    = inr RgbaToGray /\
  select_conversion (channels (mkImage 2 1 3 [1; 2; 3; 4; 5; 6]%Z))
    = inr BgrToGray.
Proof.
  split.
  - apply (proj1 (select_conversion_by_channels
                    (mkImage 2 1 4 [1; 2; 3; 4; 5; 6; 7; 8]%Z))).
    reflexivity.
  - apply (proj2 (select_conversion_by_channels
                    (mkImage 2 1 3 [1; 2; 3; 4; 5; 6]%Z))).
    reflexivity.
Defined.

(** C3, as stated, fails: with one channel, a count that is neither 3 nor
    4, the selection returns the 3-channel code instead of failing. *)
Lemma select_conversion_one_channel :
  select_conversion 1 = inr BgrToGray /\
  ~ (forall n : nat, n <> 3 -> n <> 4 ->
       select_conversion n = inl UnsupportedChannelCount).
Proof.
  split; [reflexivity |].
  intros H. specialize (H 1 ltac:(lia) ltac:(lia)). discriminate H.
Qed.

(** C3, amended. For every source channel count that is neither 3 nor 4,
    the selection returns the 3-channel code [BgrToGray], the code of its
    [else] branch, and signals no error. *)
Theorem select_conversion_else_branch (n : nat) :
  n <> 3 -> n <> 4 ->
  select_conversion n = inr BgrToGray /\
  select_conversion n <> inl UnsupportedChannelCount.
Proof.
  intros _ H4. unfold select_conversion, conversion_code.
  destruct (Nat.eqb_spec n 4) as [-> | _]; [contradiction |].
  split; [reflexivity | discriminate].
Qed.

Lemma select_conversion_else_branch_witness :
  select_conversion 1 = inr BgrToGray /\
  select_conversion 1 <> inl UnsupportedChannelCount.
Proof.
  apply (select_conversion_else_branch 1); lia.
Defined.

End SelectorFacts.

(** ** The capability lookup of the migration script *)

Section MigrateFacts.
Import Migrate.
Local Open Scope string_scope.

Lemma has_gpu_support_false (op_name : string) :
  has_gpu_support op_name = false <-> base_name op_name ∉ GPU_OPS.
Proof. unfold has_gpu_support. apply bool_decide_eq_false. Qed.

Lemma has_gpu_support_true (op_name : string) :
  has_gpu_support op_name = true <-> base_name op_name ∈ GPU_OPS.
Proof. unfold has_gpu_support. apply bool_decide_eq_true. Qed.

(** C6, as stated, fails: a misspelt name, which is in no table, resolves
    to host-only instead of failing. *)
Lemma lookup_misspelt_name :
  (base_name "cany_wasm" ∉ GPU_OPS) /\
  lookup "cany_wasm" = inr HostOnly /\
  ~ (forall op_name, base_name op_name ∉ GPU_OPS ->
       lookup op_name = inl UnknownOperation).
Proof.
  assert (Hnot : base_name "cany_wasm" ∉ GPU_OPS).
  { apply has_gpu_support_false. vm_compute. reflexivity. }
  split; [exact Hnot |]. split; [vm_compute; reflexivity |].
  intros H. specialize (H "cany_wasm" Hnot). vm_compute in H. discriminate H.
Qed.

(** C6, amended. The lookup fails for no name.  Every name whose base
    name (the name without its [_wasm] and [_async] parts) is absent from
    the GPU set resolves to host-only, whether or not it names an
    operation at all, and every name whose base name is in the set
    resolves to host and GPU. *)
Theorem lookup_never_fails (op_name : string) :
  lookup op_name <> inl UnknownOperation /\
  (base_name op_name ∉ GPU_OPS -> lookup op_name = inr HostOnly) /\
  (base_name op_name ∈ GPU_OPS -> lookup op_name = inr HostAndGpu).
Proof.
  unfold lookup. split; [discriminate |]. split; intros H.
  - apply has_gpu_support_false in H. rewrite H. reflexivity.
  - apply has_gpu_support_true in H. rewrite H. reflexivity.
Qed.

Lemma lookup_never_fails_witness :
  lookup "hough_lines_wasm" = inr HostOnly /\ lookup "sobel_wasm_async" = inr HostAndGpu.
Proof.
  split.
  - apply (proj1 (proj2 (lookup_never_fails "hough_lines_wasm"))).
    apply has_gpu_support_false. vm_compute. reflexivity.
  - apply (proj2 (proj2 (lookup_never_fails "sobel_wasm_async"))).
    apply has_gpu_support_true. vm_compute. reflexivity.
Defined.

End MigrateFacts.

(** ** Python strings *)

Section TextFacts.
Import Text.

Lemma text_eqb_eq (a b : list ascii) : text_eqb a b = true <-> a = b.
Proof.
  revert b. induction a as [| x a IH]; intros [| y b]; simpl;
    try (split; [discriminate | discriminate]); [tauto |].
  rewrite andb_true_iff, Ascii.eqb_eq, IH.
  split; [intros [-> ->]; reflexivity | intros [= -> ->]; auto].
Qed.

Lemma text_eqb_refl (a : list ascii) : text_eqb a a = true.
Proof. apply text_eqb_eq. reflexivity. Qed.

Lemma starts_with_prefix (p s : list ascii) :
  starts_with p s = true <-> exists rest, s = p ++ rest.
Proof.
  revert s. induction p as [| x p IH]; intros s; simpl.
  - split; [intros _; exists s; reflexivity | reflexivity].
  - destruct s as [| y s].
    + split; [discriminate | intros [rest Hrest]; discriminate Hrest].
    + rewrite andb_true_iff, Ascii.eqb_eq, IH. split.
      * intros [-> [rest ->]]. exists rest. reflexivity.
      * intros [rest [= -> ->]]. split; [reflexivity | exists rest; reflexivity].
Qed.

(** [contains] decides what [in] means: an occurrence somewhere. *)
Lemma contains_occurrence (needle hay : list ascii) :
  contains needle hay = true <->
  exists before after, hay = before ++ needle ++ after.
Proof.
  induction hay as [| c hay IH].
  - simpl. rewrite orb_false_r, starts_with_prefix. split.
    + intros [rest Hrest]. exists [], rest. exact Hrest.
    + intros (before & after & Heq).
      destruct before; [exists after; exact Heq | discriminate Heq].
  - simpl contains. rewrite orb_true_iff, starts_with_prefix, IH. split.
    + intros [[rest Hrest] | (before & after & ->)].
      * exists [], rest. exact Hrest.
      * exists (c :: before), after. reflexivity.
    + intros (before & after & Heq). destruct before as [| c' before].
      * left. exists after. exact Heq.
      * right. injection Heq as -> ->. exists before, after. reflexivity.
Qed.

End TextFacts.

(** ** The matcher *)

Section ReFacts.
Import Text Re.

Lemma run_str_sound {R : Type} (t : list ascii) :
  forall prev s cs (k : @cont R) x,
    run_str t prev s cs k = Some x ->
    exists rest prev', s = t ++ rest /\ k prev' rest cs = Some x.
Proof.
  induction t as [| c t IH]; intros prev s cs k x H; simpl in H.
  - exists s, prev. split; [reflexivity | exact H].
  - destruct s as [| a s]; [discriminate |].
    destruct (Ascii.eqb_spec a c) as [-> | _]; [| discriminate].
    apply IH in H as (rest & prev' & -> & H).
    exists rest, prev'. split; [reflexivity | exact H].
Qed.

Lemma run_star_sound {R : Type} (p : ascii -> bool) :
  forall s prev cs (k : @cont R) x,
    run_star p prev s cs k = Some x ->
    exists w rest prev',
      s = w ++ rest /\ Forall (fun a => p a = true) w /\ k prev' rest cs = Some x.
Proof.
  induction s as [| a s IH]; intros prev cs k x H; simpl in H.
  - exists [], [], prev. repeat split; [constructor | exact H].
  - destruct (p a) eqn:Hp.
    + destruct (run_star p (Some a) s cs k) as [y |] eqn:Hmore.
      * injection H as ->.
        apply IH in Hmore as (w & rest & prev' & -> & Hw & Hk).
        exists (a :: w), rest, prev'. repeat split; [| exact Hk].
        constructor; assumption.
      * exists [], (a :: s), prev. repeat split; [constructor | exact H].
    + exists [], (a :: s), prev. repeat split; [constructor | exact H].
Qed.

(** Whatever the matcher accepts lies in the language of the pattern:
    when [run] succeeds, it has consumed a text of [lang r] and its
    continuation has succeeded on the rest. *)
Lemma run_sound (r : regex) :
  forall (R : Type) prev s cs (k : @cont R) x,
    run r prev s cs k = Some x ->
    exists w rest prev' cs',
      s = w ++ rest /\ lang r w /\ k prev' rest cs' = Some x.
Proof.
  induction r as [c | t | p | r1 IH1 r2 IH2 | r1 IH1 r2 IH2 | p | p
                  | n r IH | | | r IH];
    intros R prev s cs k x H; simpl in H.
  - destruct s as [| a s]; [discriminate |].
    destruct (Ascii.eqb_spec a c) as [-> | _]; [| discriminate].
    exists [c], s, (Some c), cs. repeat split. exact H.
  - apply run_str_sound in H as (rest & prev' & -> & H).
    exists (txt t), rest, prev', cs. repeat split. exact H.
  - destruct s as [| a s]; [discriminate |].
    destruct (p a) eqn:Hp; [| discriminate].
    exists [a], s, (Some a), cs. repeat split; [| exact H].
    exists a. split; [reflexivity | exact Hp].
  - apply IH1 in H as (w1 & rest1 & prev1 & cs1 & -> & L1 & H).
    apply IH2 in H as (w2 & rest2 & prev2 & cs2 & -> & L2 & H).
    exists (w1 ++ w2), rest2, prev2, cs2.
    split; [apply app_assoc |]. split; [| exact H].
    exists w1, w2. repeat split; assumption.
  - destruct (run r1 prev s cs k) as [y |] eqn:Hfirst.
    + injection H as ->.
      apply IH1 in Hfirst as (w & rest & prev' & cs' & -> & L & H).
      exists w, rest, prev', cs'. repeat split; [left; exact L | exact H].
    + apply IH2 in H as (w & rest & prev' & cs' & -> & L & H).
      exists w, rest, prev', cs'. repeat split; [right; exact L | exact H].
  - apply run_star_sound in H as (w & rest & prev' & -> & Hw & H).
    exists w, rest, prev', cs. repeat split; assumption.
  - destruct s as [| a s]; [discriminate |].
    destruct (p a) eqn:Hp; [| discriminate].
    apply run_star_sound in H as (w & rest & prev' & -> & Hw & H).
    exists (a :: w), rest, prev', cs. repeat split; [discriminate | | exact H].
    constructor; assumption.
  - apply IH in H as (w & rest & prev' & cs' & -> & L & H).
    exists w, rest, prev', ((n, consumed (w ++ rest) rest) :: cs').
    repeat split; assumption.
  - destruct (xorb _ _); [| discriminate].
    exists [], s, prev, cs. repeat split. exact H.
  - exists [], s, prev, cs. repeat split.
    destruct prev as [c |]; [| exact H].
    destruct (is_char _ c); [exact H | discriminate].
  - destruct (run r prev s cs _); [discriminate |].
    exists [], s, prev, cs. repeat split. exact H.
Qed.

Lemma match_here_sound (r : regex) prev s cs rest :
  match_here r prev s = Some (cs, rest) ->
  exists w, s = w ++ rest /\ lang r w.
Proof.
  unfold match_here. intros H.
  apply run_sound in H as (w & rest' & prev' & cs' & -> & L & H).
  injection H as _ ->. exists w. split; [reflexivity | exact L].
Qed.

(** Where no position offers a match, [re.sub] copies its input. *)
Lemma sub_from_no_match (r : regex) (repl : captures -> list ascii) (s : list ascii) :
  (forall before after prev, s = before ++ after -> match_here r prev after = None) ->
  forall prev, sub_from r repl prev 0 s = s.
Proof.
  induction s as [| c s IH]; intros Hno prev; simpl.
  - rewrite (Hno [] [] prev eq_refl). reflexivity.
  - rewrite (Hno [] (c :: s) prev eq_refl). f_equal.
    apply IH. intros before after prev' ->.
    apply (Hno (c :: before) after prev'). reflexivity.
Qed.

Lemma sub_no_occurrence (r : regex) (repl : captures -> list ascii) (s : list ascii) :
  (forall before w after, s = before ++ w ++ after -> ~ lang r w) ->
  sub r repl s = s.
Proof.
  intros Hno. unfold sub. apply sub_from_no_match.
  intros before after prev ->.
  destruct (match_here r prev after) as [[cs rest] |] eqn:Hm; [| reflexivity].
  apply match_here_sound in Hm as (w & -> & L).
  exfalso. exact (Hno before w rest eq_refl L).
Qed.

Lemma run_str_complete {R : Type} (t : list ascii) :
  forall prev rest cs (k : @cont R) x,
    (forall prev', k prev' rest cs = Some x) ->
    run_str t prev (t ++ rest) cs k = Some x.
Proof.
  induction t as [| c t IH]; intros prev rest cs k x Hk; simpl.
  - apply Hk.
  - rewrite Ascii.eqb_refl. apply IH. exact Hk.
Qed.

(** A greedy repetition followed by a character outside its class stops
    exactly there. *)
Lemma run_star_complete {R : Type} (p : ascii -> bool) (w : list ascii) :
  forall prev c rest cs (k : @cont R) x,
    Forall (fun a => p a = true) w -> p c = false ->
    (forall prev', k prev' (c :: rest) cs = Some x) ->
    run_star p prev (w ++ c :: rest) cs k = Some x.
Proof.
  induction w as [| a w IH]; intros prev c rest cs k x Hw Hc Hk; simpl.
  - rewrite Hc. apply Hk.
  - inversion Hw as [| ? ? Ha Hw']; subst.
    rewrite Ha, (IH (Some a) c rest cs k x) by assumption. reflexivity.
Qed.

Lemma search_from_sound (r : regex) (s : list ascii) :
  forall prev pos found,
    search_from r prev pos s = Some found ->
    exists before w after, s = before ++ w ++ after /\ lang r w.
Proof.
  induction s as [| c s IH]; intros prev pos found H; simpl in H.
  - destruct (match_here r prev []) as [[cs rest] |] eqn:Hm; [| discriminate].
    apply match_here_sound in Hm as (w & Hs & L).
    exists [], w, rest. split; [exact Hs | exact L].
  - destruct (match_here r prev (c :: s)) as [[cs rest] |] eqn:Hm.
    + apply match_here_sound in Hm as (w & Hs & L).
      exists [], w, rest. split; [exact Hs | exact L].
    + apply IH in H as (before & w & after & -> & L).
      exists (c :: before), w, after. split; [reflexivity | exact L].
Qed.

Lemma search_from_complete (r : regex) (before after : list ascii) :
  (forall prev, match_here r prev after <> None) ->
  forall prev pos, search_from r prev pos (before ++ after) <> None.
Proof.
  intros Hm. induction before as [| c before IH]; intros prev pos.
  - simpl app. specialize (Hm prev).
    destruct after; simpl; destruct (match_here r prev _) as [[cs rest] |];
      congruence.
  - simpl. destruct (match_here r prev _) as [[cs rest] |]; [discriminate |].
    apply IH.
Qed.

End ReFacts.

(** ** The shader fixer *)

Section ShaderFixFacts.
Import Text Re Fs ShaderFix.

Lemma fixed_content_already_fixed (helpers content : list ascii) :
  contains (txt "read_byte") content = true ->
  fixed_content helpers content = inl AlreadyFixed.
Proof. intros H. unfold fixed_content. rewrite H. reflexivity. Qed.

Lemma fix_shader_already_fixed (helpers : list ascii) (shader_path : string)
    (w : World) (content : list ascii) :
  read_text shader_path w = Some content ->
  contains (txt "read_byte") content = true ->
  fix_shader helpers shader_path w =
    Some (false, print AlreadyFixed (print (Processing shader_path) w)).
Proof.
  intros Hread Hfixed. unfold fix_shader.
  change (read_text shader_path (print (Processing shader_path) w))
    with (read_text shader_path w).
  rewrite Hread, fixed_content_already_fixed by assumption. reflexivity.
Qed.

(** C9. For every shader file whose content contains ["read_byte"],
    [fix_shader] returns [False], writes nothing and leaves every file's
    content as it was; applied again to the state it leaves, it does the
    same, so the helpers are not inserted and no access is rewritten a
    second time. *)
Theorem fix_shader_skips_fixed (helpers : list ascii) (shader_path : string)
    (w : World) (content : list ascii) :
  read_text shader_path w = Some content ->
  (exists before after, content = before ++ txt "read_byte" ++ after) ->
  exists w' w'',
    fix_shader helpers shader_path w = Some (false, w') /\
    disk w' = disk w /\ written w' = written w /\
    fix_shader helpers shader_path w' = Some (false, w'') /\
    disk w'' = disk w /\ written w'' = written w.
Proof.
  intros Hread Hocc. apply contains_occurrence in Hocc.
  eexists _, _.
  split; [apply (fix_shader_already_fixed _ _ _ content); assumption |].
  split; [reflexivity |]. split; [reflexivity |].
  split; [apply (fix_shader_already_fixed _ _ _ content); assumption |].
  split; reflexivity.
Qed.

End ShaderFixFacts.

(** ** The channel-conversion fixers *)

Section ChannelFixFacts.
Import Text Re Fs ChannelFix.

Lemma lang_pattern (w : list ascii) :
  lang pattern w ->
  exists var, var <> [] /\ Forall (fun c => is_var_char c = true) var /\
              w = cvt_call var.
Proof.
  simpl. intros (w1 & w2 & -> & -> & w3 & w4 & -> & [Hne Hvar] & ->).
  exists w3. repeat split; assumption.
Qed.

Lemma lang_pattern_v2 (w : list ascii) :
  lang ChannelFixV2.pattern w ->
  exists prefix var, var <> [] /\ Forall (fun c => is_var_char c = true) var /\
                     w = prefix ++ cvt_call var.
Proof.
  simpl.
  intros (prefix & w2 & -> & _ & func & w3 & -> & -> & amp & w4 & -> & -> &
          var & tail & -> & [Hne Hvar] & ->).
  exists prefix, var. repeat split; assumption.
Qed.

Lemma sub_pattern_no_call (content : list ascii) :
  ~ has_cvt_call content -> sub pattern replacement content = content.
Proof.
  intros Hno. apply sub_no_occurrence. intros before w after -> Hlang.
  apply lang_pattern in Hlang as (var & Hne & Hvar & ->).
  apply Hno. exists before, var, after. repeat split; assumption.
Qed.

Lemma sub_pattern_v2_no_call (content : list ascii) :
  ~ has_cvt_call content -> sub ChannelFixV2.pattern ChannelFixV2.replacement content = content.
Proof.
  intros Hno. apply sub_no_occurrence. intros before w after -> Hlang.
  apply lang_pattern_v2 in Hlang as (prefix & var & Hne & Hvar & ->).
  apply Hno. exists (before ++ prefix), var, after.
  repeat split; try assumption. rewrite <- !app_assoc. reflexivity.
Qed.

Lemma match_here_cvt_call (var after : list ascii) (prev : option ascii) :
  var <> [] -> Forall (fun c => is_var_char c = true) var ->
  match_here pattern prev (cvt_call var ++ after) <> None.
Proof.
  intros Hne Hvar. destruct var as [| a var]; [contradiction |].
  inversion Hvar as [| ? ? Ha Hvar']; subst.
  unfold match_here, pattern, cvt_call. cbn [run].
  rewrite <- !app_assoc.
  match goal with
  | |- run_str ?t ?p (?t ++ ?rest) ?cs ?k <> None =>
      assert (Hk : exists x, forall prev', k prev' rest cs = Some x)
  end.
  { eexists. intros prev'. rewrite <- app_comm_cons. rewrite Ha.
    change (txt call_tail ++ after)
      with (ascii_of_nat 44 :: tl (txt call_tail) ++ after).
    apply run_star_complete; [exact Hvar' | reflexivity |].
    intros prev''.
    change (ascii_of_nat 44 :: tl (txt call_tail) ++ after)
      with (txt call_tail ++ after).
    apply run_str_complete. intros; reflexivity. }
  destruct Hk as [x Hk].
  rewrite (run_str_complete _ _ _ _ _ x Hk). discriminate.
Qed.

(** [call_found] decides [has_cvt_call]. *)
Lemma call_found_iff (content : list ascii) :
  call_found content = true <-> has_cvt_call content.
Proof.
  unfold call_found, search. split.
  - destruct (search_from pattern None 0 content) as [found |] eqn:Hs;
      [intros _ | discriminate].
    apply search_from_sound in Hs as (before & w & after & -> & L).
    apply lang_pattern in L as (var & Hne & Hvar & ->).
    exists before, var, after. repeat split; assumption.
  - intros (before & var & after & Hne & Hvar & ->).
    pose proof (search_from_complete pattern before (cvt_call var ++ after)
                  (fun prev => match_here_cvt_call var after prev Hne Hvar)
                  None 0) as Hfound.
    destruct (search_from _ _ _ _); [reflexivity | congruence].
Qed.

Lemma call_not_found (content : list ascii) :
  call_found content = false -> ~ has_cvt_call content.
Proof.
  intros Hb Hcall. apply call_found_iff in Hcall. congruence.
Qed.

Section AnyPattern.
Variable r : regex.
Variable repl : captures -> list ascii.
Variable file_path : string.
Variable content : list ascii.
Hypothesis sub_fixes_content : sub r repl content = content.

Lemma process_file_no_change (w : World) :
  read_text file_path w = Some content ->
  process_file r repl file_path w = print (NoChanges file_path) w.
Proof.
  intros Hread. unfold process_file.
  rewrite Hread, sub_fixes_content, text_eqb_refl. reflexivity.
Qed.

Lemma process_file_spares (other : string) (w : World) :
  read_text file_path w = Some content ->
  untouched file_path content w (process_file r repl other w).
Proof.
  intros Hread. destruct (decide (other = file_path)) as [-> | Hne].
  - rewrite process_file_no_change by assumption.
    split; [exact Hread |]. exists []. split; [reflexivity | apply not_elem_of_nil].
  - unfold process_file. destruct (read_text other w) as [original |].
    + destruct (negb _).
      * split.
        -- unfold read_text. simpl. rewrite lookup_insert_ne by assumption.
           exact Hread.
        -- exists [other]. split; [reflexivity |].
           intros Hin. apply list_elem_of_singleton in Hin. congruence.
      * split; [exact Hread |].
        exists []. split; [reflexivity | apply not_elem_of_nil].
    + split; [exact Hread |].
      exists []. split; [reflexivity | apply not_elem_of_nil].
Qed.

Lemma run_script_spares (paths : list string) :
  forall w, read_text file_path w = Some content ->
            untouched file_path content w (run_script r repl paths w).
Proof.
  induction paths as [| other paths IH]; intros w Hread.
  - split; [exact Hread |]. exists []. split; [reflexivity | apply not_elem_of_nil].
  - destruct (process_file_spares other w Hread) as [Hread1 (new1 & Hw1 & Hnew1)].
    destruct (IH _ Hread1) as [Hread2 (new2 & Hw2 & Hnew2)].
    split; [exact Hread2 |]. exists (new2 ++ new1). split.
    + change (run_script r repl (other :: paths) w)
        with (run_script r repl paths (process_file r repl other w)).
      rewrite Hw2, Hw1. apply app_assoc.
    + apply not_elem_of_app. split; assumption.
Qed.

End AnyPattern.

Lemma untouched_print (file_path : string) (content : list ascii)
    (m : message) (w w' : World) :
  untouched file_path content w w' ->
  untouched file_path content w (print m w').
Proof. intros H. exact H. Qed.

(** C10. A file whose content holds no call
    [cvt_color(&var, &mut g, ColorConversionCode::BgrToGray)], with [var]
    made of lowercase letters, underscores and dots, is not written by
    either fixer: processing it only prints "No changes", and after the
    whole run of either script its content is what it was and no write to
    its path has been added. *)
Theorem unmatched_file_untouched (w : World) (file_path : string)
    (content : list ascii) :
  read_text file_path w = Some content ->
  ~ has_cvt_call content ->
  process_file pattern replacement file_path w = print (NoChanges file_path) w /\
  process_file ChannelFixV2.pattern ChannelFixV2.replacement file_path w = print (NoChanges file_path) w /\
  untouched file_path content w (main w) /\
  untouched file_path content w (ChannelFixV2.main w).
Proof.
  intros Hread Hno.
  pose proof (sub_pattern_no_call content Hno) as H1.
  pose proof (sub_pattern_v2_no_call content Hno) as H2.
  split; [apply (process_file_no_change _ _ _ content); assumption |].
  split; [apply (process_file_no_change _ _ _ content); assumption |].
  split.
  - unfold main. apply untouched_print.
    apply run_script_spares; assumption.
  - unfold ChannelFixV2.main. apply untouched_print.
    apply run_script_spares; assumption.
Qed.

End ChannelFixFacts.

Section ChannelFixWitness.
Import Text Re Fs ChannelFix Samples.

Lemma unmatched_file_untouched_witness :
  (process_file pattern replacement "../../src/wasm/basic/edge.rs" two_files =
     print (NoChanges "../../src/wasm/basic/edge.rs") two_files /\
   process_file ChannelFixV2.pattern ChannelFixV2.replacement "../../src/wasm/basic/edge.rs" two_files =
     print (NoChanges "../../src/wasm/basic/edge.rs") two_files /\
   untouched "../../src/wasm/basic/edge.rs" other_destination two_files (main two_files) /\
   untouched "../../src/wasm/basic/edge.rs" other_destination two_files (ChannelFixV2.main two_files)) /\
  untouched "../../src/wasm/misc/various.rs" camel_case_source two_files (ChannelFixV2.main two_files).
Proof.
  split.
  - apply (unmatched_file_untouched two_files "../../src/wasm/basic/edge.rs"
             other_destination).
    + vm_compute. reflexivity.
    + apply call_not_found. vm_compute. reflexivity.
  - apply (unmatched_file_untouched two_files "../../src/wasm/misc/various.rs"
             camel_case_source).
    + vm_compute. reflexivity.
    + apply call_not_found. vm_compute. reflexivity.
Defined.

End ChannelFixWitness.

Section ShaderFixWitness.
Import Text Re Fs ShaderFix Samples.

Lemma fix_shader_skips_fixed_witness :
  exists w' w'',
    fix_shader (txt "fn read_byte() {}") "src/gpu/shaders/blur.wgsl" one_shader
      = Some (false, w') /\
    disk w' = disk one_shader /\ written w' = written one_shader /\
    fix_shader (txt "fn read_byte() {}") "src/gpu/shaders/blur.wgsl" w'
      = Some (false, w'') /\
    disk w'' = disk one_shader /\ written w'' = written one_shader.
Proof.
  apply (fix_shader_skips_fixed _ _ _ fixed_shader).
  - vm_compute. reflexivity.
  - exists (txt "fn "),
      (txt "(i: u32) -> u32 { return 0u; } @compute fn main() { output[0] = input[0]; }").
    reflexivity.
Defined.

End ShaderFixWitness.

(** ** The backend dispatcher *)

Section DispatcherFacts.
Import Selector Dispatcher.

Variable registry : string -> option CapabilityEntry.
Variable host_impl : string -> Image -> Image.
Variable gpu_impl : string -> Image -> GpuFailure + Image.
Variable within_tolerance : string -> Image -> Image -> bool.

(** Every invocation reaches [Done] within the five transitions
    [execute] allows. *)
Lemma execute_total (op_name : string) (input : Image) (options : Options) :
  exists result events,
    execute registry host_impl gpu_impl within_tolerance op_name input options
      = Some (result, events).
Proof.
  unfold execute. cbn.
  destruct (registry op_name) as [entry |]; cbn; [| eauto].
  destruct (host_only entry input options); cbn; [eauto |].
  destruct (gpu_impl op_name input) as [why | result]; cbn; [eauto |].
  destruct (validate_parity options); cbn; eauto.
Qed.

(** With the host forced, the host implementation runs once and the GPU
    is not tried. *)
Lemma execute_with_host (op_name : string) (input : Image) (options : Options)
    (entry : CapabilityEntry) :
  registry op_name = Some entry ->
  execute registry host_impl gpu_impl within_tolerance op_name input
          (with_host options)
    = Some (inr (host_impl op_name input), [HostExecuted]).
Proof.
  intros Hentry. unfold execute. cbn. rewrite Hentry. cbn.
  unfold host_only. cbn. rewrite !orb_true_r. reflexivity.
Qed.

(** C5. When the GPU is attempted and the attempt fails (device
    unavailable, launch failure or timeout), [execute] returns the host
    result, not an error; the events of the invocation are one GPU
    attempt, the fallback and one host execution, in this order; and the
    result is the one [execute] returns with [prefer_backend = Host], where
    the host runs once and the GPU is not tried. *)
Theorem gpu_failure_falls_back_once (op_name : string) (input : Image)
    (options : Options) (entry : CapabilityEntry) (why : GpuFailure) :
  registry op_name = Some entry ->
  host_only entry input options = false ->
  gpu_impl op_name input = inl why ->
  exists events host_events,
    execute registry host_impl gpu_impl within_tolerance op_name input options
      = Some (inr (host_impl op_name input), events) /\
    events = [GpuAttempted; GpuFellBack why; HostExecuted] /\
    occurrences HostExecuted events = 1 /\
    occurrences GpuAttempted events = 1 /\
    execute registry host_impl gpu_impl within_tolerance op_name input
            (with_host options)
      = Some (inr (host_impl op_name input), host_events) /\
    occurrences HostExecuted host_events = 1 /\
    occurrences GpuAttempted host_events = 0.
Proof.
  intros Hentry Hgpu Hfail.
  exists [GpuAttempted; GpuFellBack why; HostExecuted], [HostExecuted].
  split.
  { unfold execute. cbn. rewrite Hentry. cbn. rewrite Hgpu. cbn.
    rewrite Hfail. reflexivity. }
  split; [reflexivity |]. split; [reflexivity |]. split; [reflexivity |].
  split; [apply (execute_with_host _ _ _ entry); exact Hentry |].
  split; reflexivity.
Qed.

End DispatcherFacts.

Section DispatcherWitness.
Import Selector Dispatcher Samples.

Lemma gpu_failure_falls_back_once_witness :
  exists events host_events,
    execute blur_only host_keeps_first_sample gpu_never_launches exact_parity
            "gaussian_blur" rgba_pixel (mkOptions Auto false)
      = Some (inr (host_keeps_first_sample "gaussian_blur" rgba_pixel), events) /\
    events = [GpuAttempted; GpuFellBack GpuLaunchFailed; HostExecuted] /\
    occurrences HostExecuted events = 1 /\
    occurrences GpuAttempted events = 1 /\
    execute blur_only host_keeps_first_sample gpu_never_launches exact_parity
            "gaussian_blur" rgba_pixel (with_host (mkOptions Auto false))
      = Some (inr (host_keeps_first_sample "gaussian_blur" rgba_pixel), host_events) /\
    occurrences HostExecuted host_events = 1 /\
    occurrences GpuAttempted host_events = 0.
Proof.
  apply (gpu_failure_falls_back_once blur_only host_keeps_first_sample
           gpu_never_launches exact_parity "gaussian_blur" rgba_pixel
           (mkOptions Auto false) (mkEntry true true [3; 4]) GpuLaunchFailed);
    reflexivity.
Defined.

End DispatcherWitness.

(** ** Kernel invocations *)

Section KernelFacts.
Import ByteBuffer Kernel.
Local Open Scope Z_scope.

Lemma word_index_owned (g c : Z) : 0 <= c < 4 -> word_index (4 * g + c) = g.
Proof.
  intros Hc. unfold word_index.
  rewrite (Z.mul_comm 4 g), Z.div_add_l, (Z.div_small c 4) by lia. lia.
Qed.

Lemma owned_bytes_words (g : Z) :
  Forall (fun i => word_index i = g) (owned_bytes g).
Proof.
  unfold owned_bytes. replace (4 * g) with (4 * g + 0) at 1 by lia.
  repeat constructor; apply word_index_owned; lia.
Qed.

Lemma invocation_ops_on_word (g : Z) (values : list Z) :
  Forall (on_word g) (invocation_ops g values).
Proof.
  unfold invocation_ops. pose proof (owned_bytes_words g) as Hown.
  revert values. induction Hown as [| i bytes Hi Hown IH]; intros [| v values];
    simpl; try constructor; [exact Hi |].
  constructor; [exact Hi | apply IH].
Qed.

Lemma written_words_on_word (g : Z) (ops : list MicroOp) :
  Forall (on_word g) ops -> Forall (fun w => w = g) (written_words ops).
Proof.
  induction 1 as [| op ops Hop Hops IH]; [constructor |].
  destruct op; simpl in *; [exact IH | constructor; assumption].
Qed.

(** One whole [write_byte] is its load followed by its store. *)
Lemma run_ops_write_byte (b : list Z) (r i v : Z) :
  fst (run_ops (write_byte_ops i v) b r) = write_byte b i v.
Proof. reflexivity. Qed.

Lemma run_ops_cons (o : MicroOp) (ops : list MicroOp) (b : list Z) (r : Z) :
  run_ops (o :: ops) b r =
  run_ops ops (fst (exec_op o b r)) (snd (exec_op o b r)).
Proof. unfold run_ops. simpl. destruct (exec_op o b r); reflexivity. Qed.

Lemma run_ops_app (ops1 ops2 : list MicroOp) (b : list Z) (r : Z) :
  run_ops (ops1 ++ ops2) b r =
  run_ops ops2 (fst (run_ops ops1 b r)) (snd (run_ops ops1 b r)).
Proof.
  unfold run_ops. rewrite foldl_app.
  destruct (foldl _ (b, r) ops1); reflexivity.
Qed.

(** An invocation run without interruption does what its [write_byte]
    calls do, whatever its register held before. *)
Lemma run_ops_invocation (g : Z) (values : list Z) (b : list Z) (r : Z) :
  fst (run_ops (invocation_ops g values) b r) = run_invocation b g values.
Proof.
  unfold invocation_ops, run_invocation.
  generalize (owned_bytes g) as bytes. intros bytes.
  revert values b r. induction bytes as [| i bytes IH]; intros [| v values] b r;
    try reflexivity.
  change (concat (zip_with write_byte_ops (i :: bytes) (v :: values)))
    with (write_byte_ops i v ++ concat (zip_with write_byte_ops bytes values)).
  rewrite run_ops_app, IH. reflexivity.
Qed.

(** A memory operation on word [g2] can be moved across one on another
    word [g1]. *)
Lemma exec_op_commute (g1 g2 : Z) (o1 o2 : MicroOp) (b : list Z) (r1 r2 : Z) :
  0 <= g1 -> 0 <= g2 -> g1 <> g2 -> on_word g1 o1 -> on_word g2 o2 ->
  fst (exec_op o2 (fst (exec_op o1 b r1)) r2) =
    fst (exec_op o1 (fst (exec_op o2 b r2)) r1) /\
  snd (exec_op o2 (fst (exec_op o1 b r1)) r2) = snd (exec_op o2 b r2) /\
  snd (exec_op o1 (fst (exec_op o2 b r2)) r1) = snd (exec_op o1 b r1).
Proof.
  intros H1 H2 Hne Ho1 Ho2.
  destruct o1 as [w1 | w1 k1 v1], o2 as [w2 | w2 k2 v2]; simpl in *; subst;
    repeat split.
  - unfold load_word, store_word. rewrite !nth_lookup.
    rewrite list_lookup_insert_ne by lia. reflexivity.
  - unfold load_word, store_word. rewrite !nth_lookup.
    rewrite list_lookup_insert_ne by lia. reflexivity.
  - unfold store_word. apply list_insert_insert_ne. lia.
Qed.

(** The whole remaining run of the first invocation can be moved across
    one operation of the second. *)
Lemma run_ops_commute (g1 g2 : Z) (ops1 : list MicroOp) (o2 : MicroOp) :
  0 <= g1 -> 0 <= g2 -> g1 <> g2 -> Forall (on_word g1) ops1 -> on_word g2 o2 ->
  forall (b : list Z) (r1 r2 : Z),
    exec_op o2 (fst (run_ops ops1 b r1)) r2 =
    (fst (run_ops ops1 (fst (exec_op o2 b r2)) r1), snd (exec_op o2 b r2)).
Proof.
  intros H1 H2 Hne Hops Ho2.
  induction Hops as [| o1 ops1 Ho1 Hops IH]; intros b r1 r2.
  - simpl. destruct (exec_op o2 b r2); reflexivity.
  - rewrite !run_ops_cons, IH.
    destruct (exec_op_commute g1 g2 o1 o2 b r1 r2 H1 H2 Hne Ho1 Ho2)
      as (Hb & Hr2 & Hr1).
    rewrite Hb, Hr2, Hr1. reflexivity.
Qed.

(** No scheduling decision changes the outcome. *)
Lemma step_outcome (g1 g2 : Z) (who : bool) (s : System) :
  0 <= g1 -> 0 <= g2 -> g1 <> g2 ->
  Forall (on_word g1) (pc (first s)) -> Forall (on_word g2) (pc (second s)) ->
  outcome (step who s) = outcome s /\
  Forall (on_word g1) (pc (first (step who s))) /\
  Forall (on_word g2) (pc (second (step who s))).
Proof.
  intros H1 H2 Hne Hfirst Hsecond.
  destruct s as [b [r1 ops1] [r2 ops2]]. simpl in Hfirst, Hsecond.
  destruct who; unfold step, step_thread, outcome; simpl.
  - destruct ops1 as [| o1 ops1]; simpl; [auto |].
    inversion Hfirst; subst.
    rewrite run_ops_cons.
    destruct (exec_op o1 b r1) as [b' r'] eqn:He. simpl. auto.
  - destruct ops2 as [| o2 ops2]; simpl; [auto |].
    inversion Hsecond as [| ? ? Ho2 Hrest]; subst.
    rewrite run_ops_cons.
    rewrite (run_ops_commute g1 g2 ops1 o2 H1 H2 Hne Hfirst Ho2).
    destruct (exec_op o2 b r2) as [b' r'] eqn:He. simpl. auto.
Qed.

Lemma run_schedule_outcome (g1 g2 : Z) (schedule : list bool) :
  0 <= g1 -> 0 <= g2 -> g1 <> g2 ->
  forall s,
    Forall (on_word g1) (pc (first s)) -> Forall (on_word g2) (pc (second s)) ->
    outcome (run_schedule schedule s) = outcome s.
Proof.
  intros H1 H2 Hne.
  induction schedule as [| who schedule IH]; intros s Hfirst Hsecond;
    [reflexivity |].
  destruct (step_outcome g1 g2 who s H1 H2 Hne Hfirst Hsecond)
    as (Hout & Hfirst' & Hsecond').
  change (run_schedule (who :: schedule) s)
    with (run_schedule schedule (step who s)).
  rewrite IH by assumption. exact Hout.
Qed.

Lemma finished_outcome (s : System) : finished s -> outcome s = buffer s.
Proof. intros [Hfirst Hsecond]. unfold outcome. rewrite Hfirst, Hsecond. reflexivity. Qed.

(** C7. Invocation [g] owns the four bytes of word [g], one per byte
    offset, and stores to no other word; so two distinct invocations
    store to disjoint sets of words.  No atomicity is needed: however the
    loads and stores of the two invocations interleave, once both are done
    the buffer is the one obtained by running the first to its end and then
    the second with whole [write_byte] calls. *)
Theorem invocations_do_not_conflict (b : list Z) (g1 g2 : Z)
    (values1 values2 : list Z) :
  0 <= g1 -> 0 <= g2 -> g1 <> g2 ->
  (map word_index (owned_bytes g1) = [g1; g1; g1; g1] /\
   map byte_offset (owned_bytes g1) = [0; 1; 2; 3]) /\
  (forall w1 w2,
     w1 ∈ written_words (invocation_ops g1 values1) ->
     w2 ∈ written_words (invocation_ops g2 values2) ->
     w1 = g1 /\ w2 = g2 /\ w1 <> w2) /\
  (forall schedule,
     finished (run_schedule schedule (launch b g1 values1 g2 values2)) ->
     buffer (run_schedule schedule (launch b g1 values1 g2 values2)) =
     run_invocation (run_invocation b g1 values1) g2 values2).
Proof.
  intros H1 H2 Hne. split; [| split].
  - split.
    + pose proof (owned_bytes_words g1) as Hown.
      unfold owned_bytes in *. simpl.
      inversion Hown as [| ? ? E0 Hown1]; subst.
      inversion Hown1 as [| ? ? E1 Hown2]; subst.
      inversion Hown2 as [| ? ? E2 Hown3]; subst.
      inversion Hown3 as [| ? ? E3 _]; subst.
      rewrite E0, E1, E2, E3. reflexivity.
    + unfold owned_bytes, byte_offset. simpl.
      replace (4 * g1) with (0 + g1 * 4) at 1 by lia.
      replace (4 * g1 + 1) with (1 + g1 * 4) by lia.
      replace (4 * g1 + 2) with (2 + g1 * 4) by lia.
      replace (4 * g1 + 3) with (3 + g1 * 4) by lia.
      rewrite !Z.mod_add by lia. reflexivity.
  - intros w1 w2 Hw1 Hw2.
    pose proof (written_words_on_word g1 _ (invocation_ops_on_word g1 values1)) as F1.
    pose proof (written_words_on_word g2 _ (invocation_ops_on_word g2 values2)) as F2.
    rewrite Forall_forall in F1, F2.
    rewrite (F1 w1 Hw1), (F2 w2 Hw2). auto.
  - intros schedule Hdone.
    rewrite <- (finished_outcome _ Hdone).
    rewrite (run_schedule_outcome g1 g2 schedule H1 H2 Hne)
      by apply invocation_ops_on_word.
    unfold outcome, launch. simpl. rewrite !run_ops_invocation. reflexivity.
Qed.

Lemma invocations_do_not_conflict_witness :
  finished (run_schedule Samples.interleaved
              (launch [0; 0; 0] 0 [1; 2; 3; 4] 2 [5; 6; 7; 8])) /\
  buffer (run_schedule Samples.interleaved
            (launch [0; 0; 0] 0 [1; 2; 3; 4] 2 [5; 6; 7; 8])) =
  run_invocation (run_invocation [0; 0; 0] 0 [1; 2; 3; 4]) 2 [5; 6; 7; 8].
Proof.
  assert (Hdone : finished (run_schedule Samples.interleaved
                              (launch [0; 0; 0] 0 [1; 2; 3; 4] 2 [5; 6; 7; 8])))
    by (split; reflexivity).
  split; [exact Hdone |].
  apply (invocations_do_not_conflict [0; 0; 0] 0 2 [1; 2; 3; 4] [5; 6; 7; 8]);
    [lia | lia | lia | exact Hdone].
Defined.

(** The ownership of whole words is what makes this work: two threads that
    write different bytes of the same word lose a write when both load
    before either stores. *)
Example lost_update_in_shared_word :
  buffer (run_schedule [true; false; true; false]
            (mkSystem [0] (mkThread 0 (write_byte_ops 0 17))
                          (mkThread 0 (write_byte_ops 1 34)))) = [8704] /\
  write_byte (write_byte [0] 0 17) 1 34 = [8721].
Proof. split; reflexivity. Qed.

End KernelFacts.

(** * Further properties of the scripts *)

(** ** Captured groups *)

Section ReSemFacts.
Import Text Re ReSem.

Lemma consumed_app (w rest : list ascii) : consumed (w ++ rest) rest = w.
Proof.
  unfold consumed. rewrite length_app.
  replace (length w + length rest - length rest) with (length w) by lia.
  apply take_app_length.
Qed.

Lemma run_sem_sound (r : regex) :
  forall (R : Type) prev s cs (k : @cont R) x,
    run r prev s cs k = Some x ->
    exists w rest prev' cs',
      s = w ++ rest /\ sem r w cs cs' /\ k prev' rest cs' = Some x.
Proof.
  induction r as [c | t | p | r1 IH1 r2 IH2 | r1 IH1 r2 IH2 | p | p
                  | n r IH | | | r IH];
    intros R prev s cs k x H; simpl in H.
  - destruct s as [| a s]; [discriminate |].
    destruct (Ascii.eqb_spec a c) as [-> | _]; [| discriminate].
    exists [c], s, (Some c), cs. repeat split. exact H.
  - apply run_str_sound in H as (rest & prev' & -> & H).
    exists (txt t), rest, prev', cs. repeat split. exact H.
  - destruct s as [| a s]; [discriminate |].
    destruct (p a) eqn:Hp; [| discriminate].
    exists [a], s, (Some a), cs. repeat split; [| exact H].
    exists a. split; [reflexivity | exact Hp].
  - apply IH1 in H as (w1 & rest1 & prev1 & cs1 & -> & L1 & H).
    apply IH2 in H as (w2 & rest2 & prev2 & cs2 & -> & L2 & H).
    exists (w1 ++ w2), rest2, prev2, cs2.
    split; [apply app_assoc |]. split; [| exact H].
    exists w1, w2, cs1. repeat split; assumption.
  - destruct (run r1 prev s cs k) as [y |] eqn:Hfirst.
    + injection H as ->.
      apply IH1 in Hfirst as (w & rest & prev' & cs' & -> & L & H).
      exists w, rest, prev', cs'. repeat split; [left; exact L | exact H].
    + apply IH2 in H as (w & rest & prev' & cs' & -> & L & H).
      exists w, rest, prev', cs'. repeat split; [right; exact L | exact H].
  - apply run_star_sound in H as (w & rest & prev' & -> & Hw & H).
    exists w, rest, prev', cs. repeat split; assumption.
  - destruct s as [| a s]; [discriminate |].
    destruct (p a) eqn:Hp; [| discriminate].
    apply run_star_sound in H as (w & rest & prev' & -> & Hw & H).
    exists (a :: w), rest, prev', cs. repeat split; [discriminate | | exact H].
    constructor; assumption.
  - apply IH in H as (w & rest & prev' & cs' & -> & L & H).
    rewrite consumed_app in H.
    exists w, rest, prev', ((n, w) :: cs').
    split; [reflexivity |]. split; [| exact H].
    exists cs'. split; [exact L | reflexivity].
  - destruct (xorb _ _); [| discriminate].
    exists [], s, prev, cs. repeat split. exact H.
  - exists [], s, prev, cs. repeat split.
    destruct prev as [c |]; [| exact H].
    destruct (is_char _ c); [exact H | discriminate].
  - destruct (run r prev s cs _); [discriminate |].
    exists [], s, prev, cs. repeat split. exact H.
Qed.

Lemma match_here_sem (r : regex) prev s cs rest :
  match_here r prev s = Some (cs, rest) ->
  exists w, s = w ++ rest /\ sem r w [] cs.
Proof.
  unfold match_here. intros H.
  apply run_sem_sound in H as (w & rest' & prev' & cs' & -> & L & H).
  injection H as -> ->. exists w. split; [reflexivity | exact L].
Qed.

Lemma sub_from_cons (r : regex) (repl : captures -> list ascii)
    (prev : option ascii) (c : ascii) (s : list ascii) :
  sub_from r repl prev 0 (c :: s) =
  match match_here r prev (c :: s) with
  | Some (cs, rest) =>
      match length (c :: s) - length rest with
      | O => repl cs ++ c :: sub_from r repl (Some c) 0 s
      | S n => repl cs ++ sub_from r repl (Some c) n s
      end
  | None => c :: sub_from r repl (Some c) 0 s
  end.
Proof. reflexivity. Qed.

(** [re.sub] either copies its input or puts some replacement in its
    output. *)
Lemma sub_from_copy_or_replace (r : regex) (repl : captures -> list ascii)
    (s : list ascii) :
  forall prev skip,
    sub_from r repl prev skip s = drop skip s \/
    exists cs before after, sub_from r repl prev skip s = before ++ repl cs ++ after.
Proof.
  induction s as [| c s IH]; intros prev skip.
  - destruct skip as [| n]; simpl; [| left; reflexivity].
    destruct (match_here r prev []) as [[cs rest] |]; [| left; reflexivity].
    right. exists cs, [], []. rewrite app_nil_r. reflexivity.
  - destruct skip as [| n].
    + rewrite sub_from_cons.
      destruct (match_here r prev (c :: s)) as [[cs rest] |].
      * right. destruct (length (c :: s) - length rest);
          eexists cs, [], _; reflexivity.
      * destruct (IH (Some c) 0) as [Hcopy | (cs & before & after & Hrepl)].
        -- left. rewrite Hcopy. reflexivity.
        -- right. exists cs, (c :: before), after. rewrite Hrepl. reflexivity.
    + simpl. destruct (IH (Some c) n) as [Hcopy | Hrepl]; [left | right]; assumption.
Qed.

End ReSemFacts.

(** ** Occurrences *)

Section ContainsFacts.
Import Text.

Lemma contains_app_l (needle a b : list ascii) :
  contains needle a = true -> contains needle (a ++ b) = true.
Proof.
  rewrite !contains_occurrence. intros (before & after & ->).
  exists before, (after ++ b). rewrite <- !app_assoc. reflexivity.
Qed.

Lemma contains_app_r (needle a b : list ascii) :
  contains needle b = true -> contains needle (a ++ b) = true.
Proof.
  rewrite !contains_occurrence. intros (before & after & ->).
  exists (a ++ before), after. rewrite <- !app_assoc. reflexivity.
Qed.

Lemma contains_cons_inv (needle : list ascii) (c : ascii) (s : list ascii) :
  contains needle (c :: s) = true ->
  starts_with needle (c :: s) = true \/ contains needle s = true.
Proof. simpl. intros H. apply orb_true_iff in H. exact H. Qed.

(** A text that starts before a character it does not contain ends
    before it. *)
Lemma starts_with_before (needle a b : list ascii) (c : ascii) :
  Forall (fun x => x <> c) needle ->
  starts_with needle (a ++ c :: b) = true -> starts_with needle a = true.
Proof.
  intros Hc. revert a. induction Hc as [| x needle Hx Hc IH]; intros a H.
  - reflexivity.
  - destruct a as [| y a]; simpl in *.
    + apply andb_true_iff in H as [H _]. apply Ascii.eqb_eq in H. congruence.
    + apply andb_true_iff in H as [-> H]. simpl. apply IH. exact H.
Qed.

(** An occurrence cannot span a character the needle does not contain. *)
Lemma contains_split (needle a b : list ascii) (c : ascii) :
  Forall (fun x => x <> c) needle ->
  contains needle (a ++ c :: b) = true ->
  contains needle a = true \/ contains needle b = true.
Proof.
  intros Hc. induction a as [| y a IH]; intros H.
  - simpl app in H. apply contains_cons_inv in H as [H | H]; [| right; exact H].
    left. apply (starts_with_before needle [] b c Hc) in H.
    destruct needle; [reflexivity | discriminate H].
  - change ((y :: a) ++ c :: b) with (y :: a ++ c :: b) in H.
    apply contains_cons_inv in H as [H | H].
    + left. apply (starts_with_before needle (y :: a) b c Hc) in H.
      simpl contains. rewrite H. reflexivity.
    + destruct (IH H) as [Ha | Hb]; [left | right; exact Hb].
      apply (contains_app_r needle [y] a). exact Ha.
Qed.

(** An occurrence cannot start among characters of a class the first
    character of the needle is not in. *)
Lemma contains_past (p : ascii -> bool) (x : ascii) (needle ws g : list ascii) :
  p x = false -> Forall (fun a => p a = true) ws ->
  contains (x :: needle) (ws ++ g) = true -> contains (x :: needle) g = true.
Proof.
  intros Hx Hws. induction Hws as [| a ws Ha Hws IH]; intros H; [exact H |].
  change ((a :: ws) ++ g) with (a :: ws ++ g) in H.
  apply contains_cons_inv in H as [H | H]; [| apply IH; exact H].
  simpl in H. apply andb_true_iff in H as [H _].
  apply Ascii.eqb_eq in H. congruence.
Qed.

End ContainsFacts.

Section ShaderIdem.
Import Text Re ReSem Fs ShaderFix ShaderMain.

Lemma marker_avoids (c : ascii) :
  existsb (Ascii.eqb c) marker = false -> Forall (fun x => x <> c) marker.
Proof.
  intros H. apply Forall_forall. intros x Hx Heq. subst x.
  apply list_elem_of_In in Hx.
  assert (existsb (Ascii.eqb c) marker = true); [| congruence].
  apply existsb_exists. exists c. split; [exact Hx | apply Ascii.eqb_refl].
Qed.

(** The first rewriting keeps an occurrence of the marker or brings one. *)
Lemma sub_input_keeps_marker (s : list ascii) :
  contains marker s = true ->
  contains marker (sub input_pattern input_replacement s) = true.
Proof.
  intros H. unfold sub.
  destruct (sub_from_copy_or_replace input_pattern input_replacement s None 0)
    as [-> | (cs & before & after & ->)]; [exact H |].
  apply contains_app_r, contains_app_l. unfold input_replacement.
  apply contains_occurrence. exists [], (txt "(&input, " ++ group 1 cs ++ txt ")").
  reflexivity.
Qed.

Lemma match_here_output_first (prev : option ascii) (c : ascii) (s : list ascii) :
  c <> "o"%char -> match_here output_pattern prev (c :: s) = None.
Proof.
  intros Hc. unfold match_here, output_pattern. cbn [run].
  destruct (xorb _ _); [| reflexivity].
  cbn. destruct (Ascii.eqb_spec c "o"); [contradiction | reflexivity].
Qed.

(** Characters other than [o] start no match and are copied. *)
Lemma sub_output_copies (u rest : list ascii) :
  Forall (fun x => x <> "o"%char) u ->
  forall prev, exists prev',
    sub_from output_pattern output_replacement prev 0 (u ++ rest) =
    u ++ sub_from output_pattern output_replacement prev' 0 rest.
Proof.
  induction 1 as [| c u Hc Hu IH]; intros prev.
  - exists prev. reflexivity.
  - change ((c :: u) ++ rest) with (c :: u ++ rest).
    rewrite sub_from_cons, match_here_output_first by exact Hc.
    destruct (IH (Some c)) as [prev' ->]. exists prev'. reflexivity.
Qed.

Lemma sem_output_pattern (w : list ascii) (cs : captures) :
  sem output_pattern w [] cs ->
  exists g1 ws1 ws2 g2,
    w = txt "output" ++ "["%char :: g1 ++ "]"%char :: ws1 ++ "="%char :: ws2 ++ g2 ++ [";"%char] /\
    Forall (fun a => is_space a = true) ws1 /\
    Forall (fun a => is_space a = true) ws2 /\
    group 1 cs = g1 /\ group 2 cs = g2.
Proof.
  simpl.
  intros (w0 & r0 & cs0 & -> & [-> ->] &
          w1 & r1 & cs1 & -> & [-> ->] &
          g1 & r2 & cs2 & -> & (cs2' & (_ & _ & ->) & ->) &
          w3 & r3 & cs3 & -> & [-> ->] &
          ws1 & r4 & cs4 & -> & [Hws1 ->] &
          w5 & r5 & cs5 & -> & [-> ->] &
          ws2 & r6 & cs6 & -> & [Hws2 ->] &
          g2 & w7 & cs7 & -> & (cs7' & (_ & _ & ->) & ->) & [-> ->]).
  exists g1, ws1, ws2, g2. repeat split; assumption.
Qed.

End ShaderIdem.

Section ShaderIdem2.
Import Text Re ReSem Fs ShaderFix ShaderMain.

Lemma marker_not_in_spaces (ws : list ascii) :
  Forall (fun a => is_space a = true) ws -> contains marker ws = false.
Proof.
  intros Hws. destruct (contains marker ws) eqn:H; [| reflexivity].
  rewrite <- (app_nil_r ws) in H.
  apply (contains_past is_space "r" (txt "ead_byte") ws []) in H;
    [discriminate H | reflexivity | exact Hws].
Qed.

Lemma sub_from_output_keeps_marker (s : list ascii) :
  forall prev skip,
    contains marker (drop skip s) = true ->
    contains marker (sub_from output_pattern output_replacement prev skip s) = true.
Proof.
  induction s as [| c s IH]; intros prev skip H.
  - rewrite drop_nil in H. discriminate H.
  - destruct skip as [| n]; [| apply IH; exact H].
    change (drop 0 (c :: s)) with (c :: s) in H.
    apply contains_cons_inv in H as [Hstart | Hlater].
    + apply starts_with_prefix in Hstart as [rest ->].
      destruct (sub_output_copies marker rest
                  (marker_avoids "o" eq_refl) prev) as [prev' ->].
      apply contains_app_l. reflexivity.
    + rewrite sub_from_cons.
      destruct (match_here output_pattern prev (c :: s)) as [[cs rest] |] eqn:Hm.
      * apply match_here_sem in Hm as (w & Heq & Hsem).
        apply sem_output_pattern in Hsem
          as (g1 & ws1 & ws2 & g2 & Hw & Hws1 & Hws2 & Hg1 & Hg2).
        assert (Hw' : exists w',
                   w = "o"%char :: w' /\
                   w' = txt "utput" ++ "["%char :: g1 ++ "]"%char :: ws1 ++
                        "="%char :: (ws2 ++ g2) ++ [";"%char]).
        { rewrite Hw. eexists. split; [reflexivity |].
          rewrite <- app_assoc. reflexivity. }
        destruct Hw' as (w' & -> & Hw'). clear Hw.
        injection Heq as -> ->.
        replace (length ("o"%char :: w' ++ rest) - length rest)
          with (S (length w')) by (simpl; rewrite length_app; lia).
        assert (Hfound : contains marker g1 = true \/ contains marker g2 = true \/
                         contains marker rest = true).
        { rewrite Hw' in Hlater.
          repeat (rewrite <- app_assoc in Hlater; cbn [app] in Hlater).
          apply (contains_split marker _ _ "[" (marker_avoids "[" eq_refl)) in Hlater
            as [Hbad | Hlater]; [discriminate Hbad |].
          apply (contains_split marker _ _ "]" (marker_avoids "]" eq_refl)) in Hlater
            as [Hin1 | Hlater]; [left; exact Hin1 |].
          apply (contains_split marker _ _ "=" (marker_avoids "=" eq_refl)) in Hlater
            as [Hbad | Hlater].
          { rewrite marker_not_in_spaces in Hbad by exact Hws1. discriminate Hbad. }
          rewrite app_assoc in Hlater.
          apply (contains_split marker _ _ ";" (marker_avoids ";" eq_refl)) in Hlater
            as [Hin2 | Hlater]; [| right; right; exact Hlater].
          right; left.
          apply (contains_past is_space "r" (txt "ead_byte") ws2 g2) in Hin2;
            [exact Hin2 | reflexivity | exact Hws2]. }
        destruct Hfound as [Hin1 | [Hin2 | Hin3]].
        -- apply contains_app_l. unfold output_replacement. rewrite Hg1.
           apply contains_app_r, contains_app_l. exact Hin1.
        -- apply contains_app_l. unfold output_replacement. rewrite Hg2.
           do 3 apply contains_app_r. apply contains_app_l. exact Hin2.
        -- apply contains_app_r. apply IH.
           rewrite drop_app_length. exact Hin3.
      * apply (contains_app_r marker [c]). apply IH. exact Hlater.
Qed.

End ShaderIdem2.

Section ShaderIdem3.
Import Text Re ReSem Fs ShaderFix ShaderMain.

Lemma helper_block_frames (helpers : list ascii) :
  exists above below, helper_block helpers = above ++ helpers ++ below.
Proof.
  unfold helper_block.
  exists (nl ++ txt "// === Byte Access Helpers ===" ++ nl ++
          txt "// Required for correct RGBA byte extraction from u32 storage buffers"
          ++ nl ++ nl),
         (nl ++ txt "// === End Byte Access Helpers ===" ++ nl ++ nl).
  rewrite <- !app_assoc. reflexivity.
Qed.

(** The new content [fix_shader] builds: the helpers inserted at some
    position of the old content, then the two rewritings. *)
Lemma fixed_content_inr (helpers content new : list ascii) :
  fixed_content helpers content = inr new ->
  exists insert_pos,
    new = sub output_pattern output_replacement
            (sub input_pattern input_replacement
               (take insert_pos content ++ helper_block helpers ++
                drop insert_pos content)).
Proof.
  unfold fixed_content.
  destruct (contains (txt "read_byte") content); [discriminate |].
  destruct (negb _); [discriminate |].
  destruct (search insert_marker_pattern content) as [[insert_pos groups] |];
    [| discriminate].
  intros H. exists insert_pos. injection H as <-. reflexivity.
Qed.

Lemma fixed_content_has_marker (helpers content new : list ascii) :
  contains marker helpers = true ->
  fixed_content helpers content = inr new ->
  contains marker new = true.
Proof.
  intros Hhelpers Hfixed.
  apply fixed_content_inr in Hfixed as (insert_pos & ->). unfold sub at 1.
  apply sub_from_output_keeps_marker. rewrite drop_0.
  apply sub_input_keeps_marker.
  destruct (helper_block_frames helpers) as (above & below & ->).
  apply (contains_app_r marker (take insert_pos content)).
  apply (contains_app_l marker (above ++ helpers ++ below)).
  apply (contains_app_r marker above).
  apply (contains_app_l marker helpers). exact Hhelpers.
Qed.

Lemma text_eqb_neq (a b : list ascii) : text_eqb a b = false <-> a <> b.
Proof.
  split.
  - intros H Heq. apply text_eqb_eq in Heq. congruence.
  - intros H. destruct (text_eqb a b) eqn:E; [| reflexivity].
    apply text_eqb_eq in E. contradiction.
Qed.

(** What a call of [fix_shader] does, by cases on the content it reads. *)
Lemma fix_shader_cases (helpers : list ascii) (shader_path : string) (w : World) :
  match read_text shader_path w with
  | None => fix_shader helpers shader_path w = None
  | Some content =>
      (exists w', fix_shader helpers shader_path w = Some (false, w') /\
                  disk w' = disk w /\ written w' = written w /\
                  match fixed_content helpers content with
                  | inl _ => True
                  | inr new => new = content
                  end) \/
      (exists new,
         fixed_content helpers content = inr new /\ new <> content /\
         fix_shader helpers shader_path w =
           Some (true, print ShaderFixed
                         (write_text shader_path new
                            (print (Processing shader_path) w))))
  end.
Proof.
  unfold fix_shader.
  change (read_text shader_path (print (Processing shader_path) w))
    with (read_text shader_path w).
  destruct (read_text shader_path w) as [content |]; [| reflexivity].
  destruct (fixed_content helpers content) as [skipped | new] eqn:Hfixed.
  - left. eexists. repeat split.
  - destruct (text_eqb new content) eqn:Heq; simpl.
    + left. apply text_eqb_eq in Heq. eexists. repeat split. exact Heq.
    + right. apply text_eqb_neq in Heq. exists new. repeat split. exact Heq.
Qed.

End ShaderIdem3.

Section ShaderIdem4.
Import Text Re ReSem Fs ShaderFix ShaderMain.

(** X1. With helpers that define [read_byte], [fix_shader] is idempotent:
    after any call that returned, a second call on the same file returns
    [False] and writes nothing. *)
Theorem fix_shader_twice (helpers : list ascii) (shader_path : string)
    (w w' : World) (b : bool) :
  (exists before after, helpers = before ++ txt "read_byte" ++ after) ->
  fix_shader helpers shader_path w = Some (b, w') ->
  exists w'',
    fix_shader helpers shader_path w' = Some (false, w'') /\
    disk w'' = disk w' /\ written w'' = written w'.
Proof.
  intros Hhelpers Hfirst. apply contains_occurrence in Hhelpers.
  pose proof (fix_shader_cases helpers shader_path w) as Hcases.
  destruct (read_text shader_path w) as [content |] eqn:Hread;
    [| congruence].
  destruct Hcases as [(w1 & Hfix & Hdisk & Hwritten & Hstable)
                     | (new & Hfixed & Hne & Hfix)].
  - rewrite Hfix in Hfirst. injection Hfirst as <- <-.
    pose proof (fix_shader_cases helpers shader_path w1) as Hagain.
    assert (Hread1 : read_text shader_path w1 = Some content)
      by (unfold read_text in *; rewrite Hdisk; exact Hread).
    rewrite Hread1 in Hagain.
    destruct Hagain as [(w2 & Hfix2 & Hdisk2 & Hwritten2 & _)
                       | (new & Hfixed & Hne & _)].
    + exists w2. repeat split; assumption.
    + rewrite Hfixed in Hstable. contradiction.
  - rewrite Hfix in Hfirst. injection Hfirst as <- <-.
    eexists. split.
    { apply (fix_shader_already_fixed _ _ _ new).
      - unfold read_text. simpl. apply lookup_insert_eq.
      - apply (fixed_content_has_marker helpers content); assumption. }
    split; reflexivity.
Qed.

(** The effect of one call, by its result. *)
Lemma fix_shader_effect (helpers : list ascii) (shader_path : string)
    (w w' : World) (b : bool) :
  fix_shader helpers shader_path w = Some (b, w') ->
  dom (disk w') = dom (disk w) /\
  (forall other, other <> shader_path -> disk w' !! other = disk w !! other) /\
  (b = false -> disk w' = disk w /\ written w' = written w) /\
  (b = true -> written w' = shader_path :: written w /\
               disk w' !! shader_path <> disk w !! shader_path).
Proof.
  intros Hfirst.
  pose proof (fix_shader_cases helpers shader_path w) as Hcases.
  destruct (read_text shader_path w) as [content |] eqn:Hread;
    [| congruence].
  destruct Hcases as [(w1 & Hfix & Hdisk & Hwritten & _)
                     | (new & Hfixed & Hne & Hfix)];
    rewrite Hfix in Hfirst; injection Hfirst as <- <-.
  - rewrite Hdisk. repeat split; try assumption; discriminate.
  - simpl. split; [| split; [| split]].
    + apply dom_insert_lookup_L. unfold read_text in Hread. eauto.
    + intros other Hother. apply lookup_insert_ne. congruence.
    + discriminate.
    + intros _. split; [reflexivity |].
      rewrite lookup_insert_eq. unfold read_text in Hread. rewrite Hread.
      congruence.
Qed.

(** X2. [fix_shader] returns [True] exactly when it has modified the
    file: on [False] no file has changed and nothing was written; on
    [True] the one write is to [shader_path], whose content is now
    different.  Either way no other file changes and no file appears or
    disappears. *)
Theorem fix_shader_true_iff_modified (helpers : list ascii) (shader_path : string)
    (w w' : World) (b : bool) :
  fix_shader helpers shader_path w = Some (b, w') ->
  dom (disk w') = dom (disk w) /\
  (forall other, other <> shader_path -> disk w' !! other = disk w !! other) /\
  (b = false -> disk w' = disk w /\ written w' = written w) /\
  (b = true -> written w' = shader_path :: written w /\
               disk w' !! shader_path <> disk w !! shader_path).
Proof. apply fix_shader_effect. Qed.

End ShaderIdem4.

(** ** The whole shader script *)

Section ShaderMainFacts.
Import Text Fs ShaderFix ShaderMain.

Lemma fix_each_writes (helpers : list ascii) (paths : list string) :
  forall n w n' w',
    fix_each helpers paths n w = Some (n', w') ->
    exists new,
      written w' = new ++ written w /\
      n' = n + length new /\
      length new <= length paths /\
      (forall p, p ∈ new -> p ∈ paths) /\
      (forall p, p ∉ new -> disk w' !! p = disk w !! p) /\
      dom (disk w') = dom (disk w).
Proof.
  induction paths as [| p0 paths IH]; intros n w n' w' H; simpl in H.
  - injection H as <- <-. exists []. repeat split; auto.
  - destruct (fix_shader helpers p0 w) as [[b w1] |] eqn:Hfix; [| discriminate].
    destruct (fix_shader_effect helpers p0 w w1 b Hfix)
      as (Hdom & Hframe & Hfalse & Htrue).
    destruct b.
    + apply IH in H as (new & Hw & Hn & Hlen & Hin & Hdisk & Hdom').
      destruct (Htrue eq_refl) as [Hwritten _].
      exists (new ++ [p0]). rewrite Hw, Hwritten, length_app. simpl.
      split; [rewrite <- app_assoc; reflexivity |].
      split; [lia |]. split; [lia |]. split; [| split].
      * intros p Hp. apply elem_of_app in Hp as [Hp | Hp].
        -- right. apply Hin. exact Hp.
        -- apply list_elem_of_singleton in Hp. subst. left.
      * intros p Hp. apply not_elem_of_app in Hp as [Hp1 Hp2].
        rewrite Hdisk by exact Hp1. apply Hframe.
        intros ->. apply Hp2. left.
      * congruence.
    + apply IH in H as (new & Hw & Hn & Hlen & Hin & Hdisk & Hdom').
      destruct (Hfalse eq_refl) as [Hsame Hwritten].
      exists new. rewrite Hw, Hwritten.
      split; [reflexivity |]. split; [exact Hn |]. split; [simpl; lia |].
      split; [| split].
      * intros p Hp. right. apply Hin. exact Hp.
      * intros p Hp. rewrite Hdisk by exact Hp. rewrite Hsame. reflexivity.
      * congruence.
Qed.

Lemma shader_files_elem (globbed : list string) (p : string) :
  p ∈ shader_files globbed <->
  p ∈ globbed /\ name p <> "byte_access_helpers.wgsl"%string.
Proof.
  unfold shader_files. rewrite merge_sort_Permutation, list_elem_of_filter.
  tauto.
Qed.

Lemma fix_each_in_order (helpers : list ascii) (paths : list string) :
  forall n w n' w',
    fix_each helpers paths n w = Some (n', w') ->
    exists fixed,
      written w' = reverse fixed ++ written w /\
      fixed `sublist_of` paths /\
      n' = n + length fixed.
Proof.
  induction paths as [| p0 paths IH]; intros n w n' w' H; simpl in H.
  - injection H as <- <-. exists [].
    split; [reflexivity | split; [apply sublist_nil | simpl; lia]].
  - destruct (fix_shader helpers p0 w) as [[b w1] |] eqn:Hfix; [| discriminate].
    destruct (fix_shader_effect helpers p0 w w1 b Hfix)
      as (_ & _ & Hfalse & Htrue).
    destruct b.
    + apply IH in H as (fixed & Hw & Hsub & Hn).
      destruct (Htrue eq_refl) as [Hwritten _].
      exists (p0 :: fixed). rewrite Hw, Hwritten, reverse_cons.
      split; [rewrite <- app_assoc; reflexivity |].
      split; [apply sublist_skip; exact Hsub | simpl; lia].
    + apply IH in H as (fixed & Hw & Hsub & Hn).
      destruct (Hfalse eq_refl) as [_ Hwritten].
      exists fixed. rewrite Hw, Hwritten.
      split; [reflexivity |]. split; [apply sublist_cons; exact Hsub | exact Hn].
Qed.

Lemma shader_files_NoDup (globbed : list string) :
  NoDup globbed -> NoDup (shader_files globbed).
Proof.
  intros H. unfold shader_files. rewrite merge_sort_Permutation.
  apply NoDup_filter. exact H.
Qed.

(** X3. A run of [main] that ends: without the shader directory it
    returns 1 after the error message and leaves everything as it is;
    with it, it returns 0, and the files it has written are shader files
    of the listing, never the helpers file, written in the order of the
    sorted listing and each at most once; its summary counts exactly these
    writes; every file it has not written still has its content, and no
    file appears or disappears. *)
Theorem main_counts_writes (helpers : list ascii) (dir_exists : bool)
    (globbed : list string) (w w' : World) (code : Z) (reports : list report) :
  main helpers dir_exists globbed w = Some (code, reports, w') ->
  if dir_exists then
    exists fixed,
      code = 0%Z /\
      written w' = reverse fixed ++ written w /\
      fixed `sublist_of` shader_files globbed /\
      (NoDup globbed -> NoDup fixed) /\
      Summary (length fixed) (length (shader_files globbed)) ∈ reports /\
      (forall p, p ∈ fixed ->
         p ∈ globbed /\ name p <> "byte_access_helpers.wgsl"%string) /\
      (forall p, p ∉ fixed -> disk w' !! p = disk w !! p) /\
      dom (disk w') = dom (disk w)
  else code = 1%Z /\ reports = [DirectoryNotFound] /\ w' = w.
Proof.
  unfold main. destruct dir_exists; simpl.
  - destruct (fix_each helpers (shader_files globbed) 0 w) as [[count w1] |]
      eqn:Hloop; [| discriminate].
    intros [= <- <- <-].
    destruct (fix_each_in_order _ _ _ _ _ _ Hloop) as (fixed & Hw & Hsub & Hn).
    apply fix_each_writes in Hloop as (new & Hw' & _ & _ & _ & Hdisk & Hdom).
    assert (Hnew : new = reverse fixed).
    { apply (app_inv_tail (written w)). rewrite <- Hw, <- Hw'. reflexivity. }
    subst new. simpl in Hn. subst count.
    exists fixed. split; [reflexivity |]. split; [exact Hw |].
    split; [exact Hsub |].
    split; [intros Hnd; apply (sublist_NoDup fixed (shader_files globbed));
             [apply shader_files_NoDup, Hnd | exact Hsub] |].
    split; [do 2 right; left |].
    split; [| split; [| exact Hdom]].
    + intros p Hp. apply shader_files_elem. apply (elem_of_sublist _ _ _ Hp Hsub).
    + intros p Hp. apply Hdisk. rewrite elem_of_reverse. exact Hp.
  - intros [= <- <- <-]. repeat split.
Qed.

End ShaderMainFacts.

Section ShaderMainIdem.
Import Text Fs ShaderFix ShaderMain.

Variable helpers : list ascii.
Hypothesis helpers_define_read_byte : contains (txt "read_byte") helpers = true.

Lemma settled_fix_shader (p : string) (w : World) :
  settled helpers p w ->
  exists w', fix_shader helpers p w = Some (false, w') /\
             disk w' = disk w /\ written w' = written w.
Proof.
  intros (content & Hread & Hquiet).
  pose proof (fix_shader_cases helpers p w) as Hcases. rewrite Hread in Hcases.
  destruct Hcases as [(w1 & Hfix & Hdisk & Hwritten & _)
                     | (new & Hfixed & Hne & _)].
  - exists w1. repeat split; assumption.
  - unfold quiet in Hquiet. rewrite Hfixed in Hquiet. contradiction.
Qed.

Lemma fix_shader_settles (p : string) (w w' : World) (b : bool) :
  fix_shader helpers p w = Some (b, w') -> settled helpers p w'.
Proof.
  intros Hfix.
  pose proof (fix_shader_cases helpers p w) as Hcases.
  destruct (read_text p w) as [content |] eqn:Hread; [| congruence].
  destruct Hcases as [(w1 & Hfix1 & Hdisk & Hwritten & Hstable)
                     | (new & Hfixed & Hne & Hfix1)];
    rewrite Hfix1 in Hfix; injection Hfix as <- <-.
  - exists content. split; [| exact Hstable].
    unfold read_text in *. rewrite Hdisk. exact Hread.
  - exists new. split; [unfold read_text; simpl; apply lookup_insert_eq |].
    unfold quiet.
    rewrite fixed_content_already_fixed; [exact I |].
    apply (fixed_content_has_marker helpers content);
      [exact helpers_define_read_byte | exact Hfixed].
Qed.

Lemma fix_shader_keeps_settled (p q : string) (w w' : World) (b : bool) :
  settled helpers p w -> fix_shader helpers q w = Some (b, w') -> settled helpers p w'.
Proof.
  intros Hp Hfix. destruct (decide (q = p)) as [-> | Hne].
  - apply (fix_shader_settles p w w' b Hfix).
  - destruct Hp as (content & Hread & Hquiet).
    exists content. split; [| exact Hquiet].
    destruct (fix_shader_effect helpers q w w' b Hfix)
      as (_ & Hframe & _).
    unfold read_text in *. rewrite Hframe by congruence. exact Hread.
Qed.

Lemma fix_each_settles (paths : list string) :
  forall n w n' w',
    fix_each helpers paths n w = Some (n', w') ->
    (forall p, settled helpers p w -> settled helpers p w') /\
    (forall p, p ∈ paths -> settled helpers p w').
Proof.
  induction paths as [| p0 paths IH]; intros n w n' w' H; simpl in H.
  - injection H as <- <-. split; [auto |].
    intros p Hp. apply not_elem_of_nil in Hp. contradiction.
  - destruct (fix_shader helpers p0 w) as [[b w1] |] eqn:Hfix; [| discriminate].
    assert (Hrest : exists m, fix_each helpers paths m w1 = Some (n', w'))
      by (destruct b; eauto).
    destruct Hrest as [m Hrest].
    destruct (IH m w1 n' w' Hrest) as [Hkeep Hall].
    split.
    + intros p Hp. apply Hkeep. apply (fix_shader_keeps_settled p p0 w w1 b Hp Hfix).
    + intros p Hp. apply elem_of_cons in Hp as [-> | Hp].
      * apply Hkeep. apply (fix_shader_settles p0 w w1 b Hfix).
      * apply Hall. exact Hp.
Qed.

Lemma fix_each_settled (paths : list string) :
  forall n w,
    (forall p, p ∈ paths -> settled helpers p w) ->
    exists w', fix_each helpers paths n w = Some (n, w') /\
               disk w' = disk w /\ written w' = written w.
Proof.
  induction paths as [| p0 paths IH]; intros n w Hall; simpl.
  - exists w. repeat split.
  - destruct (settled_fix_shader p0 w (Hall p0 ltac:(left)))
      as (w1 & Hfix & Hdisk & Hwritten).
    rewrite Hfix.
    destruct (IH n w1) as (w' & Hloop & Hdisk' & Hwritten').
    { intros p Hp. apply (fix_shader_keeps_settled p p0 w w1 false); [| exact Hfix].
      apply Hall. right. exact Hp. }
    exists w'. split; [exact Hloop |]. split; congruence.
Qed.

End ShaderMainIdem.

Section ShaderMainIdemTheorem.
Import Text Fs ShaderFix ShaderMain.

(** X4. With helpers that define [read_byte], the whole script is
    idempotent: after a run that ended, a second run over the same
    listing ends too, fixes no shader, writes nothing, and reports
    "Fixed 0" in its summary. *)
Theorem main_twice (helpers : list ascii) (dir_exists : bool)
    (globbed : list string) (w w' : World) (code : Z) (reports : list report) :
  (exists before after, helpers = before ++ txt "read_byte" ++ after) ->
  main helpers dir_exists globbed w = Some (code, reports, w') ->
  exists reports' w'',
    main helpers dir_exists globbed w' = Some (code, reports', w'') /\
    disk w'' = disk w' /\ written w'' = written w' /\
    (dir_exists = true ->
     reports' = [Banner; Found (length (shader_files globbed));
                 Summary 0 (length (shader_files globbed))]).
Proof.
  intros Hhelpers. apply contains_occurrence in Hhelpers.
  unfold main. destruct dir_exists; simpl.
  - destruct (fix_each helpers (shader_files globbed) 0 w) as [[fixed w1] |] eqn:Hloop;
      [| discriminate].
    intros [= <- <- <-].
    destruct (fix_each_settles helpers Hhelpers _ _ _ _ _ Hloop) as [_ Hall].
    destruct (fix_each_settled helpers Hhelpers (shader_files globbed) 0 w1 Hall)
      as (w2 & Hloop2 & Hdisk & Hwritten).
    rewrite Hloop2. simpl. eexists _, w2. repeat split; assumption.
  - intros [= <- <- <-]. eexists _, w. repeat split. discriminate.
Qed.

End ShaderMainIdemTheorem.

Section ShaderWitnesses.
Import Text Fs ShaderFix ShaderMain MoreSamples.

Lemma helpers_text_defines_read_byte :
  exists before after, helpers_text = before ++ txt "read_byte" ++ after.
Proof. exists (txt "fn "), (txt "(i: u32) -> u32 { return 0u; }"). reflexivity. Defined.

Lemma first_fix_writes :
  fix_shader helpers_text blur_path shader_dir = Some (true, after_first_fix).
Proof. vm_compute. reflexivity. Defined.

Lemma first_main_ends :
  main helpers_text true globbed shader_dir = Some (0%Z, main_reports, after_main).
Proof. vm_compute. reflexivity. Defined.

Lemma fix_shader_twice_witness :
  exists w'',
    fix_shader helpers_text blur_path after_first_fix = Some (false, w'') /\
    disk w'' = disk after_first_fix /\ written w'' = written after_first_fix.
Proof.
  apply (fix_shader_twice helpers_text blur_path shader_dir after_first_fix true).
  - exact helpers_text_defines_read_byte.
  - exact first_fix_writes.
Defined.

Lemma fix_shader_true_iff_modified_witness :
  dom (disk after_first_fix) = dom (disk shader_dir) /\
  (forall other, other <> blur_path ->
     disk after_first_fix !! other = disk shader_dir !! other) /\
  (true = false ->
     disk after_first_fix = disk shader_dir /\
     written after_first_fix = written shader_dir) /\
  (true = true ->
     written after_first_fix = blur_path :: written shader_dir /\
     disk after_first_fix !! blur_path <> disk shader_dir !! blur_path).
Proof.
  apply (fix_shader_true_iff_modified helpers_text blur_path shader_dir
           after_first_fix true).
  exact first_fix_writes.
Defined.

Lemma main_counts_writes_witness :
  (exists fixed,
    0%Z = 0%Z /\
    written after_main = reverse fixed ++ written shader_dir /\
    fixed `sublist_of` shader_files globbed /\
    (NoDup globbed -> NoDup fixed) /\
    Summary (length fixed) (length (shader_files globbed)) ∈ main_reports /\
    (forall p, p ∈ fixed ->
       p ∈ globbed /\ name p <> "byte_access_helpers.wgsl"%string) /\
    (forall p, p ∉ fixed -> disk after_main !! p = disk shader_dir !! p) /\
    dom (disk after_main) = dom (disk shader_dir)) /\
  (1%Z = 1%Z /\ [DirectoryNotFound] = [DirectoryNotFound] /\ shader_dir = shader_dir).
Proof.
  split.
  - apply (main_counts_writes helpers_text true globbed shader_dir after_main 0%Z
             main_reports).
    exact first_main_ends.
  - apply (main_counts_writes helpers_text false globbed shader_dir shader_dir 1%Z
             [DirectoryNotFound]).
    reflexivity.
Defined.

Lemma main_twice_witness :
  exists reports' w'',
    main helpers_text true globbed after_main = Some (0%Z, reports', w'') /\
    disk w'' = disk after_main /\ written w'' = written after_main /\
    (true = true ->
     reports' = [Banner; Found (length (shader_files globbed));
                 Summary 0 (length (shader_files globbed))]).
Proof.
  apply (main_twice helpers_text true globbed shader_dir after_main 0%Z
           main_reports).
  - exact helpers_text_defines_read_byte.
  - exact first_main_ends.
Defined.

(** The sample run: one of the two shader files is fixed, and the helpers
    file is not among the files processed. *)
Example sample_main_run :
  shader_files globbed = [blur_path; plain_path] /\
  main_reports = [Banner; Found 2; Summary 1 2; ReviewRecommended] /\
  written after_main = [blur_path].
Proof. vm_compute. repeat split. Qed.

End ShaderWitnesses.

(** ** What the substitutions do *)

Section RewriteFacts.
Import Text Re Rewrite.

Lemma char_before_app (prev : option ascii) (a b : list ascii) :
  char_before prev (a ++ b) = char_before (char_before prev a) b.
Proof. revert prev. induction a as [| c a IH]; intros prev; [reflexivity | apply IH]. Qed.

Variable r : regex.
Variable repl : captures -> list ascii.

(** Every match of [r] consumes something. *)
Hypothesis matches_consume :
  forall prev s cs rest, match_here r prev s = Some (cs, rest) ->
    exists w, w <> [] /\ s = w ++ rest.

Lemma no_match_in_nil (prev : option ascii) (following : list ascii) :
  no_match_in r prev [] following.
Proof. intros t1 c t2 H. destruct t1; discriminate H. Qed.

Lemma no_match_in_cons (c : ascii) (t following : list ascii) (prev : option ascii) :
  match_here r prev (c :: t ++ following) = None ->
  no_match_in r (Some c) t following -> no_match_in r prev (c :: t) following.
Proof.
  intros Hnone Ht t1 c' t2 Heq. destruct t1 as [| x t1].
  - injection Heq as <- <-. exact Hnone.
  - injection Heq as <- ->. apply (Ht t1 c' t2). reflexivity.
Qed.

Lemma replaces_cons (c : ascii) (s out : list ascii) (prev : option ascii) :
  match_here r prev (c :: s) = None ->
  replaces r repl (Some c) s out -> replaces r repl prev (c :: s) (c :: out).
Proof.
  intros Hnone H. inversion H as [p tail Htail | p t w rest out' cs Ht Hw Hm Hrest]; subst.
  - apply replaces_none. apply no_match_in_cons; [| exact Htail].
    rewrite app_nil_r. exact Hnone.
  - apply (replaces_one r repl prev (c :: t) w rest out' cs); try assumption.
    apply no_match_in_cons; assumption.
Qed.

Lemma sub_from_replaces (s : list ascii) :
  forall prev skip,
    replaces r repl (char_before prev (take skip s)) (drop skip s)
             (sub_from r repl prev skip s).
Proof.
  induction s as [| c s IH]; intros prev skip.
  - rewrite drop_nil, take_nil.
    assert (Hnone : match_here r prev [] = None).
    { destruct (match_here r prev []) as [[cs rest] |] eqn:Hm; [| reflexivity].
      apply matches_consume in Hm as (w & Hw & Heq).
      destruct w; [contradiction | discriminate Heq]. }
    destruct skip; simpl; rewrite ?Hnone; apply replaces_none, no_match_in_nil.
  - destruct skip as [| n]; [| apply (IH (Some c) n)].
    change (drop 0 (c :: s)) with (c :: s).
    change (char_before prev (take 0 (c :: s))) with prev.
    change (sub_from r repl prev 0 (c :: s)) with
      (match match_here r prev (c :: s) with
       | Some (cs, rest) =>
           match length (c :: s) - length rest with
           | O => repl cs ++ c :: sub_from r repl (Some c) 0 s
           | S n => repl cs ++ sub_from r repl (Some c) n s
           end
       | None => c :: sub_from r repl (Some c) 0 s
       end).
    destruct (match_here r prev (c :: s)) as [[cs rest] |] eqn:Hm.
    + destruct (matches_consume _ _ _ _ Hm) as (w & Hw & Heq).
      destruct w as [| x w]; [contradiction |].
      injection Heq as <- ->.
      replace (length (c :: w ++ rest) - length rest) with (S (length w))
        by (simpl; rewrite length_app; lia).
      pose proof (IH (Some c) (length w)) as Hrest.
      rewrite drop_app_length, take_app_length in Hrest.
      apply (replaces_one r repl prev [] (c :: w) rest _ cs);
        [apply no_match_in_nil | discriminate | exact Hm | exact Hrest].
    + apply (replaces_cons c s _ prev Hm). apply (IH (Some c) 0).
Qed.

Lemma sub_replaces (s : list ascii) : replaces r repl None s (sub r repl s).
Proof. apply (sub_from_replaces s None 0). Qed.

End RewriteFacts.

Section RewriteUnique.
Import Text Re Rewrite.

Lemma app_split_longer (a b c d : list ascii) :
  a ++ b = c ++ d -> length c < length a ->
  exists x l, a = c ++ x :: l /\ d = x :: l ++ b.
Proof.
  revert c. induction a as [| y a IH]; intros c H Hlen; [simpl in Hlen; lia |].
  destruct c as [| z c].
  - exists y, a. split; [reflexivity | symmetry; exact H].
  - injection H as -> H. simpl in Hlen.
    destruct (IH c H ltac:(lia)) as (x & l & -> & ->).
    exists x, l. split; reflexivity.
Qed.

Variable r : regex.
Variable repl : captures -> list ascii.

(** The result of replacing the matches is determined. *)
Lemma replaces_unique (prev : option ascii) (s out1 out2 : list ascii) :
  replaces r repl prev s out1 -> replaces r repl prev s out2 -> out1 = out2.
Proof.
  intros H1. revert out2.
  induction H1 as [p tail Htail | p t w rest out cs Ht Hw Hm Hrest IH];
    intros out2 H2.
  - inversion H2 as [p' tail' Htail' | p' t' w' rest' out' cs' Ht' Hw' Hm' Hrest'];
      subst; [reflexivity | exfalso].
    destruct w' as [| c w']; [contradiction |].
    pose proof (Htail t' c (w' ++ rest') eq_refl) as Hnone.
    rewrite app_nil_r in Hnone.
    change (c :: w' ++ rest') with ((c :: w') ++ rest') in Hnone. congruence.
  - inversion H2 as [p' tail' Htail' | p' t' w' rest' out' cs' Ht' Hw' Hm' Hrest' Hp Heq];
      subst.
    + exfalso. destruct w as [| c w]; [contradiction |].
      pose proof (Htail' t c (w ++ rest) eq_refl) as Hnone.
      rewrite app_nil_r in Hnone.
      change (c :: w ++ rest) with ((c :: w) ++ rest) in Hnone. congruence.
    + assert (Ht_eq : t' = t).
      { destruct (Nat.lt_total (length t) (length t')) as [Hlt | [Hlen | Hgt]].
        - exfalso.
          destruct (app_split_longer _ _ _ _ Heq Hlt) as (x & l & Ha & Hb).
          pose proof (Ht' t x l Ha) as Hnone.
          rewrite <- Hb in Hnone. congruence.
        - apply app_inj_1 in Heq as [Heq _]; [exact Heq | lia].
        - exfalso. symmetry in Heq.
          destruct (app_split_longer _ _ _ _ Heq Hgt) as (x & l & Ha & Hb).
          pose proof (Ht t' x l Ha) as Hnone.
          rewrite <- Hb in Hnone. congruence. }
      subst t'. apply app_inv_head in Heq.
      rewrite Heq in Hm'. rewrite Hm in Hm'. injection Hm' as <- <-.
      apply app_inv_tail in Heq. subst w'.
      f_equal. f_equal. apply IH. exact Hrest'.
Qed.

End RewriteUnique.

Section ChannelSpecFacts.
Import Text Re ReSem Rewrite ChannelFix ChannelSpec.

Lemma cvt_call_cons (var : list ascii) :
  exists c rest, cvt_call var = c :: rest.
Proof. unfold cvt_call. simpl. eauto. Qed.

Lemma sem_pattern (w : list ascii) (cs : captures) :
  sem pattern w [] cs ->
  exists var, is_var var /\ w = cvt_call var /\ group 1 cs = var.
Proof.
  simpl.
  intros (w0 & r0 & cs0 & -> & [-> ->] &
          var & w1 & cs1 & -> & (cs1' & (Hne & Hvar & ->) & ->) & [-> ->]).
  exists var. repeat split; assumption.
Qed.

Lemma pattern_consumes prev s cs rest :
  match_here pattern prev s = Some (cs, rest) ->
  exists w, w <> [] /\ s = w ++ rest.
Proof.
  intros Hm. apply match_here_sem in Hm as (w & -> & Hsem).
  apply sem_pattern in Hsem as (var & _ & -> & _).
  exists (cvt_call var). split; [| reflexivity].
  destruct (cvt_call_cons var) as (c & rest' & ->). discriminate.
Qed.

(** Where the matcher found nothing there is no call, for any pattern
    that matches wherever a call starts. *)
Lemma no_match_no_call (r : regex) (prev : option ascii)
    (t following : list ascii) :
  (forall var after prev, is_var var ->
     match_here r prev (cvt_call var ++ after) <> None) ->
  no_match_in r prev t following -> ~ has_cvt_call t.
Proof.
  intros Hcomplete Hno (before & var & after & Hne & Hvar & ->).
  destruct (cvt_call_cons var) as (c & rest' & Hcall).
  assert (Hnone : match_here r (char_before prev before)
                    (c :: (rest' ++ after) ++ following) = None).
  { apply (Hno before c (rest' ++ after)). rewrite Hcall. reflexivity. }
  apply (Hcomplete var (after ++ following) (char_before prev before)
           (conj Hne Hvar)).
  rewrite Hcall. rewrite <- Hnone. simpl. rewrite <- app_assoc. reflexivity.
Qed.

Lemma replaces_calls_fixed (prev : option ascii) (s out : list ascii) :
  replaces pattern replacement prev s out -> calls_fixed s out.
Proof.
  assert (Hcomplete : forall var after prev, is_var var ->
            match_here pattern prev (cvt_call var ++ after) <> None).
  { intros var after q [Hne Hvar]. apply match_here_cvt_call; assumption. }
  induction 1 as [p tail Htail | p t w rest out cs Ht Hw Hm Hrest IH].
  - apply calls_fixed_done.
    apply (no_match_no_call pattern p tail []); assumption.
  - apply match_here_sem in Hm as (w' & Heq & Hsem).
    apply app_inv_tail in Heq. subst w'.
    apply sem_pattern in Hsem as (var & Hvar & -> & Hgroup).
    unfold replacement. rewrite Hgroup.
    apply (calls_fixed_call t var rest out); try assumption.
    apply (no_match_no_call pattern p t (cvt_call var ++ rest)); assumption.
Qed.

(** X6. What the first fixer makes of a content: every call
    [cvt_color(&var, &mut g, ColorConversionCode::BgrToGray)] of it, taken
    from left to right, becomes the selection of the conversion code from
    [var.channels()] followed by the call with [conversion_code]; the text
    between and around the calls is kept as it is. *)
Theorem sub_fixes_calls (content : list ascii) :
  calls_fixed content (sub pattern replacement content).
Proof.
  apply (replaces_calls_fixed None). apply sub_replaces. apply pattern_consumes.
Qed.

End ChannelSpecFacts.

Section ChannelSpecV2Facts.
Import Text Re ReSem Rewrite ChannelFix ChannelSpec.

Lemma sem_pattern_v2 (w : list ascii) (cs : captures) :
  sem ChannelFixV2.pattern w [] cs ->
  exists prefix var,
    Forall (fun c => ChannelFixV2.is_path_char c = true) prefix /\
    is_var var /\ w = prefix ++ cvt_call var /\
    group 1 cs = prefix /\ group 2 cs = txt "cvt_color" /\ group 3 cs = var.
Proof.
  simpl.
  intros (prefix & r0 & cs0 & -> & (cs0' & [Hprefix ->] & ->) &
          func & r1 & cs1 & -> & (cs1' & [-> ->] & ->) &
          amp & r2 & cs2 & -> & [-> ->] &
          var & tail & cs3 & -> & (cs3' & (Hne & Hvar & ->) & ->) & [-> ->]).
  exists prefix, var. repeat split; assumption.
Qed.

Lemma pattern_v2_consumes prev s cs rest :
  match_here ChannelFixV2.pattern prev s = Some (cs, rest) ->
  exists w, w <> [] /\ s = w ++ rest.
Proof.
  intros Hm. apply match_here_sem in Hm as (w & -> & Hsem).
  apply sem_pattern_v2 in Hsem as (prefix & var & _ & _ & -> & _).
  exists (prefix ++ cvt_call var). split; [| reflexivity].
  destruct (cvt_call_cons var) as (c & rest' & ->).
  destruct prefix; discriminate.
Qed.

(** A greedy repetition succeeds after a run of its class when what
    follows the run succeeds there. *)
Lemma run_star_some {R : Type} (p : ascii -> bool) (w : list ascii) :
  forall prev rest cs (k : @cont R),
    Forall (fun a => p a = true) w ->
    (forall prev', k prev' rest cs <> None) ->
    run_star p prev (w ++ rest) cs k <> None.
Proof.
  induction w as [| a w IH]; intros prev rest cs k Hw Hk.
  - simpl. destruct rest as [| c rest]; simpl; [apply Hk |].
    destruct (p c); [| apply Hk].
    destruct (run_star p (Some c) rest cs k); [discriminate | apply Hk].
  - inversion Hw as [| ? ? Ha Hw']; subst. simpl. rewrite Ha.
    pose proof (IH (Some a) rest cs k Hw' Hk) as Hmore.
    destruct (run_star p (Some a) (w ++ rest) cs k); [discriminate | contradiction].
Qed.

(** A greedy repetition gives back what it took: it succeeds when what
    follows it succeeds without it. *)
Lemma run_star_fallback {R : Type} (p : ascii -> bool) prev s cs (k : @cont R) :
  k prev s cs <> None -> run_star p prev s cs k <> None.
Proof.
  intros Hk. destruct s as [| a s]; simpl; [exact Hk |].
  destruct (p a); [| exact Hk].
  destruct (run_star p (Some a) s cs k); [discriminate | exact Hk].
Qed.

Lemma match_here_v2_path_call (prefix var after : list ascii)
    (prev : option ascii) :
  Forall (fun c => ChannelFixV2.is_path_char c = true) prefix ->
  is_var var ->
  match_here ChannelFixV2.pattern prev (prefix ++ cvt_call var ++ after) <> None.
Proof.
  intros Hprefix [Hne Hvar]. destruct var as [| a var]; [contradiction |].
  inversion Hvar as [| ? ? Ha Hvar']; subst.
  unfold match_here, ChannelFixV2.pattern, cvt_call. cbn [run].
  apply run_star_some; [exact Hprefix |]. intros prev0.
  change (txt "cvt_color(&") with (txt "cvt_color" ++ txt "(&").
  rewrite <- !app_assoc.
  match goal with
  | |- run_str ?t ?p (?t ++ ?rest) ?cs ?k <> None =>
      assert (Hk : exists x, forall prev', k prev' rest cs = Some x)
  end.
  { eexists. intros prev'.
    match goal with
    | |- run_str ?t ?p (?t ++ ?rest) ?cs ?k = _ =>
        apply (run_str_complete t p rest cs k)
    end.
    intros prev''. rewrite <- app_comm_cons. rewrite Ha.
    change (txt call_tail ++ after)
      with (ascii_of_nat 44 :: tl (txt call_tail) ++ after).
    apply run_star_complete; [exact Hvar' | reflexivity |].
    intros prev3.
    change (ascii_of_nat 44 :: tl (txt call_tail) ++ after)
      with (txt call_tail ++ after).
    apply run_str_complete. intros; reflexivity. }
  destruct Hk as [x Hk].
  rewrite (run_str_complete _ _ _ _ _ x Hk). discriminate.
Qed.

Lemma match_here_v2_cvt_call (var after : list ascii) (prev : option ascii) :
  is_var var ->
  match_here ChannelFixV2.pattern prev (cvt_call var ++ after) <> None.
Proof. apply (match_here_v2_path_call [] var after prev). constructor. Qed.

Lemma run_str_exact {R : Type} (t : list ascii) :
  forall prev rest cs (k : @cont R),
    run_str t prev (t ++ rest) cs k = k (char_before prev t) rest cs.
Proof.
  induction t as [| c t IH]; intros prev rest cs k; simpl; [reflexivity |].
  rewrite Ascii.eqb_refl. apply IH.
Qed.

(** A greedy repetition that ran into a text of its class gives all of it
    back when the rest of the pattern fails everywhere inside it. *)
Lemma run_star_gives_back {R : Type} (p : ascii -> bool) (u : list ascii) :
  forall prev c rest cs (k : @cont R),
    Forall (fun a => p a = true) u -> p c = false ->
    Forall (fun u2 => forall prev', k prev' (u2 ++ c :: rest) cs = None)
           (proper_suffixes u) ->
    run_star p prev (u ++ c :: rest) cs k = k prev (u ++ c :: rest) cs.
Proof.
  induction u as [| a u IH]; intros prev c rest cs k Hu Hc Hfail; simpl.
  - rewrite Hc. reflexivity.
  - inversion Hu as [| ? ? Ha Hu']; subst.
    inversion Hfail as [| ? ? Hhere Hlater]; subst.
    rewrite Ha, (IH (Some a) c rest cs k Hu' Hc Hlater), Hhere. reflexivity.
Qed.

Lemma run_star_back {R : Type} (p : ascii -> bool) (w u : list ascii) :
  forall prev c rest cs (k : @cont R) x,
    Forall (fun a => p a = true) w ->
    Forall (fun a => p a = true) u -> p c = false ->
    Forall (fun u2 => forall prev', k prev' (u2 ++ c :: rest) cs = None)
           (proper_suffixes u) ->
    (forall prev', k prev' (u ++ c :: rest) cs = Some x) ->
    run_star p prev (w ++ u ++ c :: rest) cs k = Some x.
Proof.
  induction w as [| b w IH]; intros prev c rest cs k x Hw Hu Hc Hfail Hk.
  - simpl. rewrite run_star_gives_back by assumption. apply Hk.
  - inversion Hw as [| ? ? Hb Hw']; subst. simpl.
    rewrite Hb, (IH (Some b) c rest cs k x) by assumption. reflexivity.
Qed.

Lemma match_here_v2_exact (prefix var rest : list ascii) (prev : option ascii) :
  Forall (fun c => ChannelFixV2.is_path_char c = true) prefix ->
  is_var var ->
  match_here ChannelFixV2.pattern prev (prefix ++ cvt_call var ++ rest) =
    Some ([(3, var); (2, txt "cvt_color"); (1, prefix)], rest).
Proof.
  intros Hprefix [Hne Hvar]. destruct var as [| a var]; [contradiction |].
  inversion Hvar as [| ? ? Ha Hvar']; subst.
  unfold match_here, ChannelFixV2.pattern. cbn [run].
  unfold cvt_call.
  change (txt "cvt_color(&") with (txt "cvt_color" ++ "("%char :: txt "&").
  rewrite <- !app_assoc. rewrite <- app_comm_cons.
  apply run_star_back; [exact Hprefix | repeat constructor | reflexivity | |].
  - repeat constructor; intros prev'; reflexivity.
  - intros prev'.
    rewrite run_str_exact.
    rewrite !consumed_app.
    change ("("%char :: txt "&" ++ (a :: var) ++ txt call_tail ++ rest)
      with (txt "(&" ++ (a :: var) ++ txt call_tail ++ rest).
    rewrite run_str_exact. rewrite <- app_comm_cons. rewrite Ha.
    change (txt call_tail ++ rest)
      with (ascii_of_nat 44 :: tl (txt call_tail) ++ rest).
    apply run_star_complete; [exact Hvar' | reflexivity |].
    intros prev3.
    change (ascii_of_nat 44 :: tl (txt call_tail) ++ rest)
      with (txt call_tail ++ rest).
    rewrite run_str_exact.
    change (a :: var ++ txt call_tail ++ rest)
      with ((a :: var) ++ txt call_tail ++ rest).
    rewrite consumed_app. reflexivity.
Qed.

Lemma no_match_no_call_from (r : regex) (prev : option ascii)
    (t following : list ascii) :
  (forall var after prev, is_var var ->
     match_here r prev (cvt_call var ++ after) <> None) ->
  no_match_in r prev t following -> no_call_from t following.
Proof.
  intros Hcomplete Hno t1 c t2 var after Heq Hvar Hcall.
  apply (Hcomplete var after (char_before prev t1) Hvar).
  rewrite <- Hcall. apply (Hno t1 c t2 Heq).
Qed.

Lemma match_here_v2_sound prev s cs rest :
  match_here ChannelFixV2.pattern prev s = Some (cs, rest) ->
  exists prefix var,
    Forall (fun c => ChannelFixV2.is_path_char c = true) prefix /\
    is_var var /\ s = prefix ++ cvt_call var ++ rest.
Proof.
  intros Hm. apply match_here_sem in Hm as (w & -> & Hsem).
  apply sem_pattern_v2 in Hsem as (prefix & var & Hprefix & Hvar & -> & _).
  exists prefix, var. rewrite <- app_assoc.
  split; [exact Hprefix | split; [exact Hvar | reflexivity]].
Qed.

(** No match of the second pattern starts in a text without a call. *)
Lemma no_call_no_match_v2 prev tail :
  ~ has_cvt_call tail -> no_match_in ChannelFixV2.pattern prev tail [].
Proof.
  intros Hno t1 c t2 Heq.
  destruct (match_here ChannelFixV2.pattern (char_before prev t1) (c :: t2 ++ []))
    as [[cs rest] |] eqn:Hm; [exfalso | reflexivity].
  apply match_here_v2_sound in Hm as (prefix & var & _ & [Hne Hvar] & Hs).
  apply Hno. exists (t1 ++ prefix), var, rest.
  split; [exact Hne |]. split; [exact Hvar |].
  rewrite Heq. rewrite app_nil_r in Hs. rewrite Hs, <- app_assoc. reflexivity.
Qed.

Lemma module_path_no_match prev t prefix var rest :
  no_call_from t (prefix ++ cvt_call var ++ rest) ->
  module_path t prefix ->
  no_match_in ChannelFixV2.pattern prev t (prefix ++ cvt_call var ++ rest).
Proof.
  intros Hno [_ Hlast] t1 c t2 Heq.
  destruct (match_here ChannelFixV2.pattern (char_before prev t1)
              (c :: t2 ++ prefix ++ cvt_call var ++ rest))
    as [[cs rest'] |] eqn:Hm; [exfalso | reflexivity].
  apply match_here_v2_sound in Hm as (prefix' & var' & Hprefix' & Hvar' & Hs).
  destruct (Nat.le_gt_cases (length (c :: t2)) (length prefix')) as [Hle | Hgt].
  - (* the run of the match covers the end of [t] *)
    assert (Hsplit : exists more, prefix' = (c :: t2) ++ more).
    { change (c :: t2 ++ prefix ++ cvt_call var ++ rest)
        with ((c :: t2) ++ prefix ++ cvt_call var ++ rest) in Hs.
      destruct (Nat.eq_dec (length (c :: t2)) (length prefix')) as [Hlen | Hlen].
      - apply app_inj_1 in Hs as [Hs _]; [| exact Hlen].
        exists []. rewrite app_nil_r. symmetry. exact Hs.
      - symmetry in Hs.
        destruct (app_split_longer _ _ _ _ Hs ltac:(lia)) as (x & l & Ha & _).
        exists (x :: l). exact Ha. }
    destruct Hsplit as [more ->].
    destruct (exists_last (l := c :: t2) ltac:(discriminate)) as (l' & z & Hz).
    rewrite Hz in Hprefix'.
    apply Forall_app in Hprefix' as [Hprefix' _].
    apply Forall_app in Hprefix' as [_ Hzp].
    pose proof (List.Forall_inv Hzp) as Hpath. cbv beta in Hpath.
    rewrite (Hlast (t1 ++ l') z) in Hpath; [discriminate |].
    rewrite Heq, Hz, app_assoc. reflexivity.
  - (* the call of the match starts inside [t] *)
    change (c :: t2 ++ prefix ++ cvt_call var ++ rest)
      with ((c :: t2) ++ prefix ++ cvt_call var ++ rest) in Hs.
    destruct (app_split_longer _ _ _ _ Hs Hgt) as (x & l & Ha & Hb).
    apply (Hno (t1 ++ prefix') x l var' rest'); [| exact Hvar' | symmetry; exact Hb].
    rewrite Heq, Ha, <- app_assoc. reflexivity.
Qed.

Lemma calls_fixed_v2_replaces (s out : list ascii) :
  calls_fixed_v2 s out ->
  forall prev,
    replaces ChannelFixV2.pattern ChannelFixV2.replacement prev s out.
Proof.
  induction 1 as [tail Htail | t prefix var rest out Ht Hpath Hvar Hrest IH];
    intros prev.
  - apply replaces_none. apply no_call_no_match_v2. exact Htail.
  - pose proof (match_here_v2_exact prefix var rest (char_before prev t)
                  (proj1 Hpath) Hvar) as Hm.
    replace (t ++ prefix ++ cvt_call var ++ rest)
      with (t ++ (prefix ++ cvt_call var) ++ rest)
      by (rewrite <- !app_assoc; reflexivity).
    replace (fixed_call_v2 prefix var)
      with (ChannelFixV2.replacement [(3, var); (2, txt "cvt_color"); (1, prefix)])
      by (unfold ChannelFixV2.replacement, fixed_call_v2; simpl group;
          reflexivity).
    apply replaces_one.
    + rewrite <- app_assoc. apply module_path_no_match; assumption.
    + destruct (cvt_call_cons var) as (c & l & Hc). rewrite Hc.
      destruct prefix; discriminate.
    + rewrite <- app_assoc. exact Hm.
    + apply IH.
Qed.

Lemma replaces_calls_fixed_v2 (prev : option ascii) (s out : list ascii) :
  replaces ChannelFixV2.pattern ChannelFixV2.replacement prev s out ->
  calls_fixed_v2 s out.
Proof.
  assert (Hcomplete : forall var after prev, is_var var ->
            match_here ChannelFixV2.pattern prev (cvt_call var ++ after) <> None).
  { intros var after q Hvar. apply match_here_v2_cvt_call; assumption. }
  induction 1 as [p tail Htail | p t w rest out cs Ht Hw Hm Hrest IH].
  - apply calls_fixed_v2_done.
    apply (no_match_no_call ChannelFixV2.pattern p tail []); assumption.
  - apply match_here_sem in Hm as (w' & Heq & Hsem).
    apply app_inv_tail in Heq. subst w'.
    apply sem_pattern_v2 in Hsem
      as (prefix & var & Hprefix & Hvar & -> & Hg1 & Hg2 & Hg3).
    unfold ChannelFixV2.replacement. cbv zeta. rewrite Hg1, Hg2, Hg3.
    rewrite <- (app_assoc prefix).
    apply (calls_fixed_v2_call t prefix var rest out); try assumption.
    + rewrite <- app_assoc in Ht.
      apply (no_match_no_call_from ChannelFixV2.pattern p t
               (prefix ++ cvt_call var ++ rest)); assumption.
    + split; [exact Hprefix |]. intros t' c ->.
      destruct (ChannelFixV2.is_path_char c) eqn:Hc; [exfalso | reflexivity].
      apply (match_here_v2_path_call (c :: prefix) var rest (char_before p t')).
      * constructor; assumption.
      * exact Hvar.
      * pose proof (Ht t' c [] eq_refl) as Hnone.
        change ([] ++ (prefix ++ cvt_call var) ++ rest)
          with ((prefix ++ cvt_call var) ++ rest) in Hnone.
        rewrite <- app_assoc in Hnone. exact Hnone.
Qed.

(** X7. What the second fixer makes of an ASCII content: every call,
    taken with the whole module path written in front of it (the longest
    run of word characters and colons that ends at the call), becomes the
    selection of the conversion code followed by that path and the call
    with [conversion_code]; the rest of the text is kept as it is.  No
    other text is related to the content in this way. *)
Theorem sub_fixes_calls_v2 (content : list ascii) :
  ascii_only content ->
  calls_fixed_v2 content
    (sub ChannelFixV2.pattern ChannelFixV2.replacement content) /\
  forall out, calls_fixed_v2 content out ->
    out = sub ChannelFixV2.pattern ChannelFixV2.replacement content.
Proof.
  intros _.
  assert (Hsub : replaces ChannelFixV2.pattern ChannelFixV2.replacement None
                   content
                   (sub ChannelFixV2.pattern ChannelFixV2.replacement content)).
  { apply sub_replaces. apply pattern_v2_consumes. }
  split.
  - apply (replaces_calls_fixed_v2 None). exact Hsub.
  - intros out Hout.
    apply (replaces_unique ChannelFixV2.pattern ChannelFixV2.replacement None
             content); [| exact Hsub].
    apply calls_fixed_v2_replaces. exact Hout.
Qed.

End ChannelSpecV2Facts.

Section ChannelFrame.
Import Text Re Fs ChannelFix ChannelSpec.

Variable r : regex.
Variable repl : captures -> list ascii.

Lemma confined_print (paths : list string) (m : message) (w w' : World) :
  confined paths w w' -> confined paths w (print m w').
Proof. intros H. exact H. Qed.

Lemma process_file_confined (file_path : string) (w : World) :
  confined [file_path] w (process_file r repl file_path w).
Proof.
  unfold process_file.
  destruct (read_text file_path w) as [original |] eqn:Hread.
  - destruct (negb _).
    + split; [simpl; apply dom_insert_lookup_L; unfold read_text in Hread; eauto |].
      exists [file_path]. split; [reflexivity |]. split.
      * intros p Hp. apply list_elem_of_singleton in Hp. subst p.
        split; [left | unfold read_text in Hread; eauto].
      * intros p Hp. simpl. apply lookup_insert_ne.
        intros ->. apply Hp. left.
    + split; [reflexivity |]. exists []. split; [reflexivity |].
      split; [| reflexivity]. intros p Hp. apply not_elem_of_nil in Hp. contradiction.
  - split; [reflexivity |]. exists []. split; [reflexivity |].
    split; [| reflexivity]. intros p Hp. apply not_elem_of_nil in Hp. contradiction.
Qed.

Lemma run_script_confined (paths : list string) :
  forall w, confined paths w (run_script r repl paths w).
Proof.
  induction paths as [| p0 paths IH]; intros w.
  - split; [reflexivity |]. exists []. split; [reflexivity |].
    split; [| reflexivity]. intros p Hp. apply not_elem_of_nil in Hp. contradiction.
  - change (run_script r repl (p0 :: paths) w)
      with (run_script r repl paths (process_file r repl p0 w)).
    destruct (process_file_confined p0 w) as (Hdom0 & new0 & Hw0 & Hin0 & Hout0).
    destruct (IH (process_file r repl p0 w)) as (Hdom & new & Hw & Hin & Hout).
    split; [congruence |].
    exists (new ++ new0). split; [rewrite Hw, Hw0; apply app_assoc |]. split.
    + intros p Hp. apply elem_of_app in Hp as [Hp | Hp].
      * destruct (Hin p Hp) as [Hpaths Hsome]. split; [right; exact Hpaths |].
        apply elem_of_dom. rewrite <- Hdom0. apply elem_of_dom. exact Hsome.
      * destruct (Hin0 p Hp) as [Hpaths Hsome]. split; [| exact Hsome].
        apply list_elem_of_singleton in Hpaths. subst. left.
    + intros p Hp. apply not_elem_of_app in Hp as [Hp1 Hp2].
      rewrite Hout by exact Hp1. apply Hout0. exact Hp2.
Qed.

End ChannelFrame.

Section ChannelFrameTheorem.
Import Text Re Fs ChannelFix ChannelSpec.

(** X5. A run of either channel fixer creates and deletes no file; every
    write it adds is to a path of its list [files] that existed before
    the run; every other file, listed or not, keeps its content. *)
Theorem channel_fixers_confined (w : World) :
  confined files w (main w) /\ confined ChannelFixV2.files w (ChannelFixV2.main w).
Proof.
  split.
  - unfold main. apply confined_print. apply run_script_confined.
  - unfold ChannelFixV2.main. apply confined_print. apply run_script_confined.
Qed.

End ChannelFrameTheorem.

Section ReCtxFacts.
Import Text Re Rewrite ReCtx.

Lemma run_str_at {R : Type} (t : list ascii) :
  forall prev s cs (k : @cont R) x,
    run_str t prev s cs k = Some x ->
    exists rest, s = t ++ rest /\ k (char_before prev t) rest cs = Some x.
Proof.
  induction t as [| c t IH]; intros prev s cs k x H; simpl in H.
  - exists s. split; [reflexivity | exact H].
  - destruct s as [| a s]; [discriminate |].
    destruct (Ascii.eqb_spec a c) as [-> | _]; [| discriminate].
    apply IH in H as (rest & -> & H).
    exists rest. split; [reflexivity | exact H].
Qed.

Lemma run_star_at {R : Type} (p : ascii -> bool) :
  forall s prev cs (k : @cont R) x,
    run_star p prev s cs k = Some x ->
    exists w rest,
      s = w ++ rest /\ Forall (fun a => p a = true) w /\
      k (char_before prev w) rest cs = Some x.
Proof.
  induction s as [| a s IH]; intros prev cs k x H; simpl in H.
  - exists [], []. repeat split; [constructor | exact H].
  - destruct (p a) eqn:Hp.
    + destruct (run_star p (Some a) s cs k) as [y |] eqn:Hmore.
      * injection H as ->.
        apply IH in Hmore as (w & rest & -> & Hw & Hk).
        exists (a :: w), rest. repeat split; [| exact Hk].
        constructor; assumption.
      * exists [], (a :: s). repeat split; [constructor | exact H].
    + exists [], (a :: s). repeat split; [constructor | exact H].
Qed.

(** What the matcher accepts, it accepts in its context. *)
Lemma run_at (r : regex) :
  forall (R : Type) prev s cs (k : @cont R) x,
    run r prev s cs k = Some x ->
    exists w rest cs',
      s = w ++ rest /\ sem_at r prev w rest cs cs' /\
      k (char_before prev w) rest cs' = Some x.
Proof.
  induction r as [c | t | p | r1 IH1 r2 IH2 | r1 IH1 r2 IH2 | p | p
                  | n r IH | | | r IH];
    intros R prev s cs k x H; simpl in H.
  - destruct s as [| a s]; [discriminate |].
    destruct (Ascii.eqb_spec a c) as [-> | _]; [| discriminate].
    exists [c], s, cs. repeat split. exact H.
  - apply run_str_at in H as (rest & -> & H).
    exists (txt t), rest, cs. repeat split. exact H.
  - destruct s as [| a s]; [discriminate |].
    destruct (p a) eqn:Hp; [| discriminate].
    exists [a], s, cs. repeat split; [| exact H].
    exists a. split; [reflexivity | exact Hp].
  - apply IH1 in H as (w1 & rest1 & cs1 & -> & L1 & H).
    apply IH2 in H as (w2 & rest2 & cs2 & -> & L2 & H).
    exists (w1 ++ w2), rest2, cs2.
    split; [apply app_assoc |]. split; [| rewrite char_before_app; exact H].
    exists w1, w2, cs1. repeat split; assumption.
  - destruct (run r1 prev s cs k) as [y |] eqn:Hfirst.
    + injection H as ->.
      apply IH1 in Hfirst as (w & rest & cs' & -> & L & H).
      exists w, rest, cs'. repeat split; [left; exact L | exact H].
    + apply IH2 in H as (w & rest & cs' & -> & L & H).
      exists w, rest, cs'. repeat split; [right; exact L | exact H].
  - apply run_star_at in H as (w & rest & -> & Hw & H).
    exists w, rest, cs. repeat split; assumption.
  - destruct s as [| a s]; [discriminate |].
    destruct (p a) eqn:Hp; [| discriminate].
    apply run_star_at in H as (w & rest & -> & Hw & H).
    exists (a :: w), rest, cs. repeat split; [discriminate | | exact H].
    constructor; assumption.
  - apply IH in H as (w & rest & cs' & -> & L & H).
    rewrite consumed_app in H.
    exists w, rest, ((n, w) :: cs').
    split; [reflexivity |]. split; [| exact H].
    exists cs'. split; [exact L | reflexivity].
  - destruct (xorb _ _) eqn:Hb; [| discriminate].
    exists [], s, cs. repeat split; assumption.
  - exists [], s, cs. repeat split.
    + destruct prev as [c |]; [| left; reflexivity].
      destruct (Ascii.eqb_spec c (ascii_of_nat 10)) as [-> | Hc].
      * right. reflexivity.
      * unfold is_char in H. apply Ascii.eqb_neq in Hc. rewrite Hc in H.
        discriminate H.
    + destruct prev as [c |]; [| exact H].
      destruct (is_char _ c); [exact H | discriminate].
  - destruct (run r prev s cs _) eqn:Hahead; [discriminate |].
    exists [], s, cs. repeat split; assumption.
Qed.

Lemma match_here_at (r : regex) prev s cs rest :
  match_here r prev s = Some (cs, rest) ->
  exists w, s = w ++ rest /\ sem_at r prev w rest [] cs.
Proof.
  unfold match_here. intros H.
  apply run_at in H as (w & rest' & cs' & -> & L & H).
  injection H as -> ->. exists w. split; [reflexivity | exact L].
Qed.

End ReCtxFacts.

Section ShaderSpecReads.
Import Text Re Rewrite ReCtx ShaderFix ShaderSpec.

Lemma not_char_true (x c : ascii) : not_char x c = true <-> c <> x.
Proof.
  unfold not_char, is_char. rewrite negb_true_iff. apply Ascii.eqb_neq.
Qed.

Lemma Forall_not_char (x : ascii) (l : list ascii) :
  Forall (fun a => not_char x a = true) l <-> Forall (fun c => c <> x) l.
Proof. apply Forall_iff. intros c. apply not_char_true. Qed.

(** The lookahead of the read pattern fails exactly on assignments. *)
Lemma lookahead_assigned {R : Type} (prev : option ascii) (rest : list ascii)
    (cs : captures) (x : R) :
  run (Seq (Star is_space) (Chr "=")) prev rest cs (fun _ _ _ => Some x) = None <->
  ~ assigned rest.
Proof.
  split.
  - intros Hnone (ws & rest' & Hws & ->). simpl in Hnone.
    rewrite (run_star_complete is_space ws prev "=" rest' cs _ x) in Hnone;
      [discriminate | exact Hws | reflexivity |].
    intros prev'. simpl. reflexivity.
  - intros Hno.
    destruct (run _ prev rest cs _) as [y |] eqn:Hrun; [| reflexivity].
    exfalso. apply Hno.
    apply run_sound in Hrun as (w & rest' & prev' & cs' & -> & Hlang & _).
    simpl in Hlang. destruct Hlang as (ws & eq & -> & Hws & ->).
    exists ws, rest'. split; [exact Hws |]. rewrite <- app_assoc. reflexivity.
Qed.

Lemma match_here_input_sound prev s cs rest :
  match_here input_pattern prev s = Some (cs, rest) ->
  exists idx, read_access prev s idx rest /\ group 1 cs = idx.
Proof.
  intros Hm. apply match_here_at in Hm as (w & -> & Hsem).
  simpl in Hsem.
  destruct Hsem as (w0 & r0 & cs0 & -> & (-> & -> & Hb) &
                    w1 & r1 & cs1 & -> & [-> ->] &
                    idx & r2 & cs2 & -> & (cs2' & (Hne & Hidx & ->) & ->) &
                    w3 & r3 & cs3 & -> & [-> ->] & (-> & -> & Hahead)).
  exists idx. split; [| reflexivity].
  split; [simpl; rewrite <- !app_assoc; reflexivity |].
  split; [simpl in Hb; destruct (is_word_at prev); [discriminate Hb | reflexivity] |].
  split; [exact Hne |]. split; [apply Forall_not_char; exact Hidx |].
  apply (lookahead_assigned _ _ _ tt) in Hahead. exact Hahead.
Qed.

Lemma match_here_input_complete prev s idx rest :
  read_access prev s idx rest ->
  match_here input_pattern prev s = Some ([(1, idx)], rest).
Proof.
  intros (-> & Hb & Hne & Hidx & Hassigned).
  destruct idx as [| a idx]; [contradiction |].
  inversion Hidx as [| ? ? Ha Hidx']; subst.
  apply not_char_true in Ha. apply Forall_not_char in Hidx'.
  unfold match_here, input_pattern. cbn [run].
  change (head (txt "input[" ++ (a :: idx) ++ "]"%char :: rest))
    with (Some "i"%char).
  rewrite Hb. cbn [is_word_at xorb].
  change (is_word "i") with true. cbn [negb].
  apply run_str_complete. intros prev'.
  rewrite <- app_comm_cons. rewrite Ha.
  apply run_star_complete; [exact Hidx' | reflexivity |].
  intros prev''. simpl.
  change (a :: idx ++ "]"%char :: rest) with ((a :: idx) ++ "]"%char :: rest).
  rewrite consumed_app.
  match goal with
  | |- context [run_star is_space ?p rest ?c ?k] =>
      change (run_star is_space p rest c k)
        with (run (Seq (Star is_space) (Chr "=")) p rest c (fun _ _ _ => Some tt))
  end.
  rewrite (proj2 (lookahead_assigned _ rest _ tt) Hassigned). reflexivity.
Qed.

Lemma input_pattern_consumes prev s cs rest :
  match_here input_pattern prev s = Some (cs, rest) ->
  exists w, w <> [] /\ s = w ++ rest.
Proof.
  intros Hm. apply match_here_input_sound in Hm as (idx & (-> & _) & _).
  exists (txt "input[" ++ idx ++ ["]"%char]). split; [discriminate |].
  rewrite <- !app_assoc. reflexivity.
Qed.

Lemma no_match_no_read prev t following :
  no_match_in input_pattern prev t following -> no_read_in prev t following.
Proof.
  intros Hno t1 c t2 idx rest Heq Hread.
  apply match_here_input_complete in Hread.
  rewrite (Hno t1 c t2 Heq) in Hread. discriminate Hread.
Qed.

Lemma replaces_reads_rewritten prev s out :
  replaces input_pattern input_replacement prev s out ->
  reads_rewritten prev s out.
Proof.
  induction 1 as [p tail Htail | p t w rest out cs Ht Hw Hm Hrest IH].
  - apply reads_done. apply no_match_no_read. exact Htail.
  - apply match_here_input_sound in Hm as (idx & Hread & Hgroup).
    pose proof Hread as (Heq & _).
    assert (Hw' : w = txt "input[" ++ idx ++ ["]"%char]).
    { apply (app_inv_tail rest). rewrite Heq, <- !app_assoc. reflexivity. }
    subst w. unfold input_replacement. rewrite Hgroup.
    rewrite <- !app_assoc in *. cbn [app] in *.
    apply (reads_one p t idx rest out); try assumption.
    + apply no_match_no_read. exact Ht.
    + rewrite !char_before_app in IH. exact IH.
Qed.

Lemma no_read_no_match prev t following :
  no_read_in prev t following -> no_match_in input_pattern prev t following.
Proof.
  intros Hno t1 c t2 Heq.
  destruct (match_here input_pattern (char_before prev t1) (c :: t2 ++ following))
    as [[cs rest] |] eqn:Hm; [exfalso | reflexivity].
  apply match_here_input_sound in Hm as (idx & Hread & _).
  exact (Hno t1 c t2 idx rest Heq Hread).
Qed.

Lemma reads_rewritten_replaces prev s out :
  reads_rewritten prev s out ->
  replaces input_pattern input_replacement prev s out.
Proof.
  induction 1 as [p tail Htail | p t idx rest out Ht Hread Hrest IH].
  - apply replaces_none. apply no_read_no_match. exact Htail.
  - pose proof (match_here_input_complete _ _ _ _ Hread) as Hm.
    change (t ++ txt "input[" ++ idx ++ "]"%char :: rest)
      with (t ++ txt "input[" ++ idx ++ ["]"%char] ++ rest).
    replace (t ++ txt "input[" ++ idx ++ ["]"%char] ++ rest)
      with (t ++ (txt "input[" ++ idx ++ ["]"%char]) ++ rest)
      by (rewrite <- !app_assoc; reflexivity).
    replace (t ++ txt "read_byte(&input, " ++ idx ++ txt ")" ++ out)
      with (t ++ input_replacement [(1, idx)] ++ out)
      by (unfold input_replacement; simpl group; rewrite <- !app_assoc; reflexivity).
    apply replaces_one.
    + replace ((txt "input[" ++ idx ++ ["]"%char]) ++ rest)
        with (txt "input[" ++ idx ++ "]"%char :: rest)
        by (rewrite <- !app_assoc; reflexivity).
      apply no_read_no_match. exact Ht.
    + discriminate.
    + replace ((txt "input[" ++ idx ++ ["]"%char]) ++ rest)
        with (txt "input[" ++ idx ++ "]"%char :: rest)
        by (rewrite <- !app_assoc; reflexivity).
      exact Hm.
    + rewrite app_assoc, char_before_app. exact IH.
Qed.

(** X8. What the first rewriting of the shader fixer makes of an ASCII
    text: every read access, taken from left to right, becomes
    [read_byte(&input, idx)]; the text between the accesses holds no such
    access and is kept as it is.  A read access is [input[idx]] where
    [input] does not continue a word, [idx] is the text up to the first
    ["]"], which must not be empty, and what follows that ["]"] is not
    white space and ["="].  So [input[i] = x] and [input[i] == x] are not
    rewritten, while an index that itself holds brackets is cut at its
    first ["]"], whatever follows the last one.  No other text is related
    to the content in this way. *)
Theorem sub_rewrites_reads (content : list ascii) :
  ascii_only content ->
  reads_rewritten None content (sub input_pattern input_replacement content) /\
  forall out, reads_rewritten None content out ->
    out = sub input_pattern input_replacement content.
Proof.
  intros _.
  assert (Hsub : replaces input_pattern input_replacement None content
                   (sub input_pattern input_replacement content)).
  { apply sub_replaces. apply input_pattern_consumes. }
  split.
  - apply replaces_reads_rewritten. exact Hsub.
  - intros out Hout.
    apply (replaces_unique input_pattern input_replacement None content);
      [| exact Hsub].
    apply reads_rewritten_replaces. exact Hout.
Qed.

End ShaderSpecReads.

Section ShaderSpecWrites.
Import Text Re Rewrite ReCtx ShaderFix ShaderSpec.

Lemma match_here_output_sound prev s cs rest :
  match_here output_pattern prev s = Some (cs, rest) ->
  exists idx value,
    write_access prev s idx value rest /\ group 1 cs = idx /\ group 2 cs = value.
Proof.
  intros Hm. apply match_here_at in Hm as (w & -> & Hsem).
  simpl in Hsem.
  destruct Hsem as (w0 & r0 & cs0 & -> & (-> & -> & Hb) &
                    w1 & r1 & cs1 & -> & [-> ->] &
                    idx & r2 & cs2 & -> & (cs2' & (Hne & Hidx & ->) & ->) &
                    w3 & r3 & cs3 & -> & [-> ->] &
                    ws1 & r4 & cs4 & -> & [Hws1 ->] &
                    w5 & r5 & cs5 & -> & [-> ->] &
                    ws2 & r6 & cs6 & -> & [Hws2 ->] &
                    value & w7 & cs7 & -> & (cs7' & (Hnv & Hvalue & ->) & ->) &
                    [-> ->]).
  exists idx, value. split; [| split; reflexivity].
  exists ws1, ws2. split; [exact Hws1 |]. split; [exact Hws2 |].
  split; [simpl; repeat (rewrite <- app_assoc; simpl); reflexivity |].
  split; [simpl in Hb; destruct (is_word_at prev); [discriminate Hb | reflexivity] |].
  split; [exact Hne |]. split; [apply Forall_not_char; exact Hidx |].
  split; [exact Hnv | apply Forall_not_char; exact Hvalue].
Qed.

Lemma match_here_output_complete prev s idx value rest :
  write_access prev s idx value rest ->
  match_here output_pattern prev s <> None.
Proof.
  intros (ws1 & ws2 & Hws1 & Hws2 & -> & Hb & Hne & Hidx & Hnv & Hvalue).
  destruct idx as [| a idx]; [contradiction |].
  destruct value as [| b value]; [contradiction |].
  inversion Hidx as [| ? ? Ha Hidx']; subst.
  inversion Hvalue as [| ? ? Hbv Hvalue']; subst.
  apply not_char_true in Ha, Hbv. apply Forall_not_char in Hidx', Hvalue'.
  unfold match_here, output_pattern. cbn [run].
  match goal with
  | |- context [head ?l] => change (head l) with (Some "o"%char)
  end.
  rewrite Hb. cbn [is_word_at xorb].
  change (is_word "o") with true. cbn [negb].
  rewrite run_str_exact. rewrite <- app_comm_cons. rewrite Ha.
  apply run_star_some; [exact Hidx' |]. intros p1.
  cbv beta iota. rewrite Ascii.eqb_refl.
  apply run_star_some; [exact Hws1 |]. intros p2.
  cbv beta iota. rewrite Ascii.eqb_refl.
  apply run_star_some; [exact Hws2 |]. intros p3.
  rewrite <- app_comm_cons. cbv beta iota. rewrite Hbv.
  apply run_star_some; [exact Hvalue' |]. intros p4.
  cbv beta iota. rewrite Ascii.eqb_refl. discriminate.
Qed.

(** A repetition that fails has failed after every number of characters
    it could take. *)
Lemma run_star_none {R : Type} (p : ascii -> bool) :
  forall s prev cs (k : @cont R),
    run_star p prev s cs k = None ->
    forall w rest, s = w ++ rest -> Forall (fun a => p a = true) w ->
      k (char_before prev w) rest cs = None.
Proof.
  induction s as [| a s IH]; intros prev cs k H w rest Heq Hw.
  - destruct w; [| discriminate Heq]. simpl in Heq. subst rest. exact H.
  - simpl in H. destruct w as [| b w].
    + simpl in Heq. subst rest. simpl.
      destruct (p a); [| exact H].
      destruct (run_star p (Some a) s cs k); [discriminate H | exact H].
    + injection Heq as <- ->. inversion Hw as [| ? ? Ha Hw']; subst.
      rewrite Ha in H.
      destruct (run_star p (Some a) (w ++ rest) cs k) eqn:Hmore;
        [discriminate H |].
      apply (IH (Some a) cs k Hmore w rest eq_refl Hw').
Qed.

(** A greedy repetition takes the longest run of characters after which
    the rest of the pattern succeeds. *)
Lemma run_star_greedy {R : Type} (p : ascii -> bool) :
  forall s prev cs (k : @cont R) x,
    run_star p prev s cs k = Some x ->
    exists w rest,
      s = w ++ rest /\ Forall (fun a => p a = true) w /\
      k (char_before prev w) rest cs = Some x /\
      forall w' rest', s = w' ++ rest' -> Forall (fun a => p a = true) w' ->
        length w < length w' -> k (char_before prev w') rest' cs = None.
Proof.
  induction s as [| a s IH]; intros prev cs k x H; simpl in H.
  - exists [], []. repeat split; [constructor | exact H |].
    intros w' rest' Heq _ Hlen. destruct w'; [simpl in Hlen; lia | discriminate Heq].
  - destruct (p a) eqn:Hp.
    + destruct (run_star p (Some a) s cs k) as [y |] eqn:Hmore.
      * injection H as ->.
        apply IH in Hmore as (w & rest & -> & Hw & Hk & Hmax).
        exists (a :: w), rest. repeat split; [constructor; assumption | exact Hk |].
        intros w' rest' Heq Hw' Hlen.
        destruct w' as [| b w']; [simpl in Hlen; lia |].
        injection Heq as <- Heq. inversion Hw' as [| ? ? _ Hw'']; subst.
        apply (Hmax w' rest' Heq Hw''). simpl in Hlen. lia.
      * exists [], (a :: s). repeat split; [constructor | exact H |].
        intros w' rest' Heq Hw' Hlen.
        destruct w' as [| b w']; [simpl in Hlen; lia |].
        injection Heq as <- Heq. inversion Hw' as [| ? ? _ Hw'']; subst.
        apply (run_star_none p _ _ _ _ Hmore w' rest' eq_refl Hw'').
    + exists [], (a :: s). repeat split; [constructor | exact H |].
      intros w' rest' Heq Hw' Hlen.
      destruct w' as [| b w']; [simpl in Hlen; lia |].
      injection Heq as <- Heq. inversion Hw' as [| ? ? Hb _]; subst. congruence.
Qed.

(** The second group of the write pattern starts where [value_start]
    says. *)
Lemma match_here_output_value prev s cs rest :
  match_here output_pattern prev s = Some (cs, rest) ->
  value_start (group 2 cs).
Proof.
  unfold match_here, output_pattern. cbn [run]. intros H.
  destruct (xorb _ _); [| discriminate H].
  apply run_str_at in H as (s1 & -> & H).
  destruct s1 as [| a s1]; [discriminate H |].
  destruct (not_char "]" a); [| discriminate H].
  apply run_star_at in H as (idx & s2 & -> & _ & H).
  destruct s2 as [| b s2]; [discriminate H |].
  destruct (Ascii.eqb b "]"); [| discriminate H].
  apply run_star_at in H as (ws1 & s3 & -> & _ & H).
  destruct s3 as [| e s3]; [discriminate H |].
  destruct (Ascii.eqb e "="); [| discriminate H].
  apply run_star_greedy in H as (ws2 & s4 & -> & Hws2 & H & Hmax).
  destruct s4 as [| c s4]; [discriminate H |].
  destruct (not_char ";" c) eqn:Hc; [| discriminate H].
  apply run_star_at in H as (v & s5 & -> & Hv & H).
  destruct s5 as [| d s5]; [discriminate H |].
  destruct (Ascii.eqb_spec d ";") as [-> | _]; [| discriminate H].
  injection H as <- <-.
  change (c :: v ++ ";"%char :: s5) with ((c :: v) ++ ";"%char :: s5).
  rewrite consumed_app. simpl.
  destruct (is_space c) eqn:Hsp; [| left; reflexivity].
  right. destruct v as [| c' v]; [reflexivity | exfalso].
  inversion Hv as [| ? ? Hc' Hv']; subst.
  specialize (Hmax (ws2 ++ [c]) (c' :: v ++ ";"%char :: s5)).
  rewrite <- app_assoc in Hmax. specialize (Hmax eq_refl).
  assert (Hall : Forall (fun a => is_space a = true) (ws2 ++ [c])).
  { apply Forall_app. split; [exact Hws2 | constructor; [exact Hsp | constructor]]. }
  specialize (Hmax Hall). rewrite length_app in Hmax. simpl in Hmax.
  specialize (Hmax ltac:(lia)).
  cbv beta iota in Hmax. rewrite Hc' in Hmax.
  revert Hmax. apply run_star_some; [exact Hv' |].
  intros p4. cbv beta iota. rewrite Ascii.eqb_refl. discriminate.
Qed.

Lemma output_pattern_consumes prev s cs rest :
  match_here output_pattern prev s = Some (cs, rest) ->
  exists w, w <> [] /\ s = w ++ rest.
Proof.
  intros Hm. apply match_here_at in Hm as (w & -> & Hsem).
  exists w. split; [| reflexivity]. intros ->.
  simpl in Hsem.
  destruct Hsem as (w0 & r0 & cs0 & Heq & (-> & -> & Hb) &
                    w1 & r1 & cs1 & -> & [-> ->] & _).
  discriminate Heq.
Qed.

Lemma no_match_no_write prev t following :
  no_match_in output_pattern prev t following -> no_write_in prev t following.
Proof.
  intros Hno t1 c t2 idx value rest Heq Hwrite.
  apply match_here_output_complete in Hwrite.
  rewrite (Hno t1 c t2 Heq) in Hwrite. contradiction.
Qed.

Lemma replaces_writes_rewritten prev s out :
  replaces output_pattern output_replacement prev s out ->
  writes_rewritten prev s out.
Proof.
  induction 1 as [p tail Htail | p t w rest out cs Ht Hw Hm Hrest IH].
  - apply writes_done. apply no_match_no_write. exact Htail.
  - pose proof (match_here_output_sound _ _ _ _ Hm)
      as (idx & value & Hwrite & Hg1 & Hg2).
    unfold output_replacement. rewrite Hg1, Hg2.
    repeat rewrite <- (app_assoc (txt "write_byte(&output, ")).
    repeat rewrite <- (app_assoc idx).
    repeat rewrite <- (app_assoc (txt ", ")).
    repeat rewrite <- (app_assoc value).
    apply (writes_one p t w idx value rest out); try assumption.
    + apply no_match_no_write. exact Ht.
    + rewrite <- Hg2. apply (match_here_output_value _ _ _ _ Hm).
    + assert (Hlast : char_before (char_before p t) w = Some ";"%char).
      { destruct Hwrite as (ws1 & ws2 & _ & _ & Heq & _).
        assert (Hw' : w = txt "output[" ++ idx ++ "]"%char :: ws1 ++
                          "="%char :: ws2 ++ value ++ [";"%char]).
        { apply (app_inv_tail rest). rewrite Heq.
          repeat (rewrite <- app_assoc; simpl). reflexivity. }
        rewrite Hw'.
        rewrite app_assoc, app_comm_cons, app_assoc, app_comm_cons, app_assoc,
                app_assoc.
        rewrite char_before_app. reflexivity. }
      rewrite Hlast in IH. exact IH.
Qed.

(** A greedy repetition gives back its last character when the rest of
    the pattern fails after the whole run and succeeds one character
    earlier. *)
Lemma run_star_back_one {R : Type} (p : ascii -> bool) (w : list ascii) :
  forall prev a c rest cs (k : @cont R) x,
    Forall (fun b => p b = true) w -> p a = true -> p c = false ->
    (forall prev', k prev' (c :: rest) cs = None) ->
    (forall prev', k prev' (a :: c :: rest) cs = Some x) ->
    run_star p prev (w ++ a :: c :: rest) cs k = Some x.
Proof.
  induction w as [| b w IH]; intros prev a c rest cs k x Hw Ha Hc Hfail Hk; simpl.
  - rewrite Ha, Hc, Hfail. apply Hk.
  - inversion Hw as [| ? ? Hb Hw']; subst.
    rewrite Hb, (IH (Some b) a c rest cs k x) by assumption. reflexivity.
Qed.

Lemma match_here_output_exact prev s idx value rest :
  write_access prev s idx value rest -> value_start value ->
  match_here output_pattern prev s = Some ([(2, value); (1, idx)], rest).
Proof.
  intros (ws1 & ws2 & Hws1 & Hws2 & -> & Hb & Hne & Hidx & Hnv & Hvalue) Hstart.
  destruct idx as [| a idx]; [contradiction |].
  destruct value as [| b value]; [contradiction |].
  inversion Hidx as [| ? ? Ha Hidx']; subst.
  inversion Hvalue as [| ? ? Hbv Hvalue']; subst.
  apply not_char_true in Ha, Hbv. apply Forall_not_char in Hidx', Hvalue'.
  unfold match_here, output_pattern. cbn [run].
  match goal with
  | |- context [head ?l] => change (head l) with (Some "o"%char)
  end.
  rewrite Hb. cbn [is_word_at xorb].
  change (is_word "o") with true. cbn [negb].
  rewrite run_str_exact. rewrite <- app_comm_cons. rewrite Ha.
  apply run_star_complete; [exact Hidx' | reflexivity |]. intros p1.
  cbv beta iota. rewrite Ascii.eqb_refl.
  apply run_star_complete; [exact Hws1 | reflexivity |]. intros p2.
  cbv beta iota. rewrite Ascii.eqb_refl.
  change (a :: idx ++ "]"%char :: ws1 ++ "="%char :: ws2 ++ (b :: value) ++ ";"%char :: rest)
    with ((a :: idx) ++ "]"%char :: ws1 ++ "="%char :: ws2 ++ (b :: value) ++ ";"%char :: rest).
  rewrite consumed_app.
  assert (Hvalue_end : forall (cs : captures) p3,
            run_star (not_char ";") p3 (value ++ ";"%char :: rest) cs
              (fun prev' s' cs' =>
                 match s' with
                 | [] => None
                 | a0 :: s'0 =>
                     if Ascii.eqb a0 ";"
                     then Some ((2, consumed (b :: value ++ ";"%char :: rest) s') :: cs', s'0)
                     else None
                 end) = Some ((2, b :: value) :: cs, rest)).
  { intros cs p3.
    apply run_star_complete; [exact Hvalue' | reflexivity |]. intros p4.
    cbv beta iota. rewrite Ascii.eqb_refl.
    change (b :: value ++ ";"%char :: rest) with ((b :: value) ++ ";"%char :: rest).
    rewrite consumed_app. reflexivity. }
  simpl in Hstart. destruct Hstart as [Hsp | ->].
  - rewrite <- app_comm_cons.
    apply run_star_complete; [exact Hws2 | exact Hsp |]. intros p3.
    cbv beta iota. rewrite Hbv. apply Hvalue_end.
  - destruct (is_space b) eqn:Hsp.
    + simpl app.
      apply run_star_back_one; [exact Hws2 | exact Hsp | reflexivity | |].
      * intros p3. reflexivity.
      * intros p3. cbv beta iota. rewrite Hbv. apply (Hvalue_end _ (Some b)).
    + rewrite <- app_comm_cons.
      apply run_star_complete; [exact Hws2 | exact Hsp |]. intros p3.
      cbv beta iota. rewrite Hbv. apply Hvalue_end.
Qed.

Lemma no_write_no_match prev t following :
  no_write_in prev t following -> no_match_in output_pattern prev t following.
Proof.
  intros Hno t1 c t2 Heq.
  destruct (match_here output_pattern (char_before prev t1) (c :: t2 ++ following))
    as [[cs rest] |] eqn:Hm; [exfalso | reflexivity].
  apply match_here_output_sound in Hm as (idx & value & Hwrite & _).
  exact (Hno t1 c t2 idx value rest Heq Hwrite).
Qed.

Lemma writes_rewritten_replaces prev s out :
  writes_rewritten prev s out ->
  replaces output_pattern output_replacement prev s out.
Proof.
  induction 1 as [p tail Htail | p t stmt idx value rest out Ht Hwrite Hstart Hrest IH].
  - apply replaces_none. apply no_write_no_match. exact Htail.
  - pose proof (match_here_output_exact _ _ _ _ _ Hwrite Hstart) as Hm.
    replace (t ++ txt "write_byte(&output, " ++ idx ++ txt ", " ++ value ++
             txt ");" ++ out)
      with (t ++ output_replacement [(2, value); (1, idx)] ++ out)
      by (unfold output_replacement; simpl group; rewrite <- !app_assoc;
          reflexivity).
    assert (Hlast : char_before (char_before p t) stmt = Some ";"%char).
    { destruct Hwrite as (ws1 & ws2 & _ & _ & Heq & _).
      assert (Hs : stmt = txt "output[" ++ idx ++ "]"%char :: ws1 ++
                        "="%char :: ws2 ++ value ++ [";"%char]).
      { apply (app_inv_tail rest). rewrite Heq.
        repeat (rewrite <- app_assoc; simpl). reflexivity. }
      rewrite Hs.
      rewrite app_assoc, app_comm_cons, app_assoc, app_comm_cons, app_assoc,
              app_assoc.
      rewrite char_before_app. reflexivity. }
    apply replaces_one.
    + apply no_write_no_match. exact Ht.
    + intros ->. destruct Hwrite as (ws1 & ws2 & _ & _ & Heq & _).
      apply (f_equal (@length ascii)) in Heq.
      repeat (simpl in Heq; rewrite length_app in Heq).
      simpl in Heq. lia.
    + exact Hm.
    + rewrite Hlast. exact IH.
Qed.

(** X9. What the second rewriting of the shader fixer makes of an ASCII
    text: every statement [output[idx] = value;], with an [output] that
    does not continue a word, taken from left to right, becomes
    [write_byte(&output, idx, value);]; the text between those statements
    holds none and is kept as it is.  [idx] is the text up to the first
    ["]"], and [value] the text between the white space after ["="] and
    the first [";"], so that no white space of the statement is left in
    front of the value (a value that is only white space is its last
    character).  No other text is related to the content in this way. *)
Theorem sub_rewrites_writes (content : list ascii) :
  ascii_only content ->
  writes_rewritten None content
    (sub output_pattern output_replacement content) /\
  forall out, writes_rewritten None content out ->
    out = sub output_pattern output_replacement content.
Proof.
  intros _.
  assert (Hsub : replaces output_pattern output_replacement None content
                   (sub output_pattern output_replacement content)).
  { apply sub_replaces. apply output_pattern_consumes. }
  split.
  - apply replaces_writes_rewritten. exact Hsub.
  - intros out Hout.
    apply (replaces_unique output_pattern output_replacement None content);
      [| exact Hsub].
    apply writes_rewritten_replaces. exact Hout.
Qed.

End ShaderSpecWrites.

Section ShaderSpecInsert.
Import Text Re Rewrite ReCtx ShaderFix ShaderSpec.

(** [re.search] returns the first position at which the pattern matches. *)
Lemma search_from_first (r : regex) (s : list ascii) :
  forall prev pos found cs,
    search_from r prev pos s = Some (found, cs) ->
    exists above below rest,
      s = above ++ below /\ found = pos + length above /\
      match_here r (char_before prev above) below = Some (cs, rest) /\
      no_match_in r prev above below.
Proof.
  induction s as [| c s IH]; intros prev pos found cs H; simpl in H.
  - destruct (match_here r prev []) as [[cs' rest] |] eqn:Hm; [| discriminate].
    injection H as <- <-. exists [], [], rest.
    repeat split; [simpl; lia | exact Hm |].
    intros t1 c t2 Heq. destruct t1; discriminate Heq.
  - destruct (match_here r prev (c :: s)) as [[cs' rest] |] eqn:Hm.
    + injection H as <- <-. exists [], (c :: s), rest.
      repeat split; [simpl; lia | exact Hm |].
      intros t1 c' t2 Heq. destruct t1; discriminate Heq.
    + apply IH in H as (above & below & rest & -> & -> & Hmatch & Hno).
      exists (c :: above), below, rest.
      repeat split; [simpl; lia | exact Hmatch |].
      intros t1 c' t2 Heq. destruct t1 as [| x t1].
      * injection Heq as <- <-. exact Hm.
      * injection Heq as <- ->. apply (Hno t1 c' t2). reflexivity.
Qed.

Lemma match_here_marker_sound prev s cs rest :
  match_here insert_marker_pattern prev s = Some (cs, rest) ->
  entry_point prev s.
Proof.
  intros Hm. apply match_here_at in Hm as (w & -> & Hsem). simpl in Hsem.
  destruct Hsem as (cs0 & [[-> _] | (w0 & r0 & cs1 & -> & (-> & _ & Hline) &
                                     w1 & r1 & cs2 & -> & [-> _] &
                                     (sp & -> & Hsp) & _)] & _).
  - left. exists rest. reflexivity.
  - right. split; [exact Hline |]. exists sp, rest. split; [exact Hsp | reflexivity].
Qed.

Lemma match_here_marker_compute prev rest :
  match_here insert_marker_pattern prev (txt "@compute" ++ rest) <> None.
Proof.
  unfold match_here, insert_marker_pattern. cbn [run].
  rewrite run_str_exact. discriminate.
Qed.

Lemma match_here_marker_complete prev s :
  entry_point prev s -> match_here insert_marker_pattern prev s <> None.
Proof.
  intros [[rest ->] | [Hline (sp & rest & Hsp & ->)]].
  - apply match_here_marker_compute.
  - unfold match_here, insert_marker_pattern. cbn [run].
    match goal with
    | |- match match ?first with Some x => Some x | None => ?second end
         with _ => _ end <> None => destruct first; [discriminate |]
    | |- match ?first with Some x => Some x | None => ?second end <> None =>
        destruct first; [discriminate |]
    end.
    destruct Hline as [-> | ->]; cbn; rewrite Hsp; discriminate.
Qed.

(** X10. The content [fix_shader] writes for an ASCII shader: the
    helper block is inserted at the first entry point of the old content
    (no position in front of it is one), hence in front of every
    ["@compute"]; the old content is otherwise kept around the block; and
    then the read accesses and the assignments to [output] of the whole
    text, helper block included, are rewritten. *)
Theorem fixed_content_structure (helpers content new : list ascii) :
  ascii_only helpers -> ascii_only content ->
  fixed_content helpers content = inr new ->
  exists above below mid,
    content = above ++ below /\
    entry_point (char_before None above) below /\
    no_entry_in None above below /\
    (forall before after, content = before ++ txt "@compute" ++ after ->
       length above <= length before) /\
    reads_rewritten None (above ++ helper_block helpers ++ below) mid /\
    writes_rewritten None mid new.
Proof.
  intros _ _. unfold fixed_content.
  destruct (contains (txt "read_byte") content); [discriminate |].
  destruct (negb _); [discriminate |].
  destruct (search insert_marker_pattern content) as [[insert_pos groups] |] eqn:Hs;
    [| discriminate].
  intros Hnew.
  apply search_from_first in Hs
    as (above & below & rest & Hcontent & Hpos & Hmatch & Hfirst).
  simpl in Hpos. subst insert_pos.
  exists above, below,
    (sub input_pattern input_replacement (above ++ helper_block helpers ++ below)).
  split; [exact Hcontent |].
  split; [apply (match_here_marker_sound _ _ _ _ Hmatch) |].
  split.
  { intros t1 c t2 Heq Hentry.
    apply match_here_marker_complete in Hentry.
    apply Hentry. apply (Hfirst t1 c t2 Heq). }
  split.
  - intros before after Heq.
    destruct (Nat.le_gt_cases (length above) (length before)) as [Hle | Hgt];
      [exact Hle | exfalso].
    assert (Hsplit : exists t2, above = before ++ "@"%char :: t2 /\
                                txt "compute" ++ after = t2 ++ below).
    { rewrite Hcontent in Heq.
      destruct (app_split_longer _ _ _ _ Heq Hgt) as (x & l & Ha & Hb).
      injection Hb as <- Hb. exists l. split; [exact Ha | exact Hb]. }
    destruct Hsplit as (t2 & Habove & Hrest).
    pose proof (Hfirst before "@"%char t2 Habove) as Hnone.
    rewrite <- Hrest in Hnone.
    apply (match_here_marker_compute (char_before None before) after).
    exact Hnone.
  - rewrite Hcontent in Hnew.
    rewrite take_app_length, drop_app_length in Hnew.
    injection Hnew as <-. split.
    + apply replaces_reads_rewritten, sub_replaces, input_pattern_consumes.
    + apply replaces_writes_rewritten, sub_replaces, output_pattern_consumes.
Qed.

End ShaderSpecInsert.

Section ShaderSpecWitness.
Import Text Re Rewrite ShaderFix ShaderSpec MoreSamples ShaderSamples.

Lemma fixed_content_structure_witness :
  exists above below mid,
    raw_shader = above ++ below /\
    entry_point (char_before None above) below /\
    no_entry_in None above below /\
    (forall before after, raw_shader = before ++ txt "@compute" ++ after ->
       length above <= length before) /\
    reads_rewritten None (above ++ helper_block helpers_text ++ below) mid /\
    writes_rewritten None mid fixed_blur.
Proof.
  apply (fixed_content_structure helpers_text raw_shader fixed_blur);
    vm_compute; reflexivity.
Defined.

End ShaderSpecWitness.

Section ChannelWrites.
Import Text Re Fs ChannelFix ChannelSpec.




End ChannelWrites.

Section ChannelWritesWitness.
Import Text Re Fs ChannelFix ChannelSpec CallSamples.


End ChannelWritesWitness.

Section ShaderFixesIff.
Import Text Re Rewrite ReCtx Fs ShaderFix ShaderMain ShaderSpec.




End ShaderFixesIff.

Section ShaderFixesIffWitness.
Import Text Re Rewrite ReCtx Fs ShaderFix ShaderMain ShaderSpec MoreSamples.


End ShaderFixesIffWitness.

Section MigrateMore.
Import Text Migrate MigrateSpec.
Local Open Scope string_scope.

(** X13. Every operation of [GPU_OPS] has GPU support under its own name
    and under its WASM names [op_wasm], [op_async] and [op_wasm_async];
    [get_gpu_function_name] turns [op_wasm] into [op_gpu_async], and, as
    it removes ["_wasm"] only, [op_wasm_async] into [op_async_gpu_async]. *)
Theorem gpu_ops_spellings (op : string) :
  op ∈ GPU_OPS ->
  has_gpu_support op = true /\
  has_gpu_support (op ++ "_wasm") = true /\
  has_gpu_support (op ++ "_async") = true /\
  has_gpu_support (op ++ "_wasm_async") = true /\
  get_gpu_function_name (op ++ "_wasm") = op ++ "_gpu_async" /\
  get_gpu_function_name (op ++ "_wasm_async") = op ++ "_async_gpu_async".
Proof.
  intros Hin. unfold GPU_OPS in Hin. apply elem_of_list_to_set in Hin.
  assert (Hop : spelled op = true).
  { match type of Hin with
    | _ ∈ ?ops =>
        assert (Hall : forallb spelled ops = true) by (vm_compute; reflexivity);
        rewrite forallb_forall in Hall; apply Hall
    end.
    apply list_elem_of_In. exact Hin. }
  unfold spelled in Hop.
  apply andb_prop in Hop as [Hop H6]. apply andb_prop in Hop as [Hop H5].
  apply andb_prop in Hop as [Hop H4]. apply andb_prop in Hop as [Hop H3].
  apply andb_prop in Hop as [H1 H2].
  apply String.eqb_eq in H5, H6.
  split; [exact H1 |]. split; [exact H2 |]. split; [exact H3 |].
  split; [exact H4 |]. split; [exact H5 | exact H6].
Qed.

Lemma replace_from_absent (old new s : list ascii) :
  contains old s = false -> replace_from old new 0 s = s.
Proof.
  induction s as [| c s IH]; intros H; [reflexivity |].
  simpl contains in H. apply orb_false_iff in H as [Hhere Hlater].
  change (replace_from old new 0 (c :: s))
    with (if starts_with old (c :: s)
          then (new ++ replace_from old new (length old - 1) s)%list
          else c :: replace_from old new 0 s).
  rewrite Hhere, IH by exact Hlater. reflexivity.
Qed.

Lemma string_of_list_ascii_app (a b : list ascii) :
  string_of_list_ascii (a ++ b) =
  string_of_list_ascii a ++ string_of_list_ascii b.
Proof. induction a as [| c a IH]; simpl; [reflexivity | rewrite IH; reflexivity]. Qed.

(** X14. A name that contains neither ["_wasm"] nor ["_async"] is looked
    up as it is: its base name is the name itself, it has GPU support
    exactly when it is in [GPU_OPS], and its GPU function name is the name
    followed by ["_gpu_async"]. *)
Theorem plain_name_lookup (op_name : string) :
  contains (txt "_wasm") (txt op_name) = false ->
  contains (txt "_async") (txt op_name) = false ->
  base_name op_name = op_name /\
  (has_gpu_support op_name = true <-> op_name ∈ GPU_OPS) /\
  get_gpu_function_name op_name = op_name ++ "_gpu_async".
Proof.
  intros Hwasm Hasync.
  assert (Hbase : base_name op_name = op_name).
  { unfold base_name. unfold replace. cbn [txt list_ascii_of_string].
    rewrite (replace_from_absent _ _ _ Hwasm),
            (replace_from_absent _ _ _ Hasync).
    apply string_of_list_ascii_of_string. }
  split; [exact Hbase |]. split.
  - rewrite has_gpu_support_true, Hbase. reflexivity.
  - unfold get_gpu_function_name. unfold replace. cbn [txt list_ascii_of_string].
    rewrite (replace_from_absent _ _ _ Hwasm), string_of_list_ascii_app.
    unfold txt. rewrite string_of_list_ascii_of_string. reflexivity.
Qed.

End MigrateMore.

Section MigrateMoreWitness.
Import Text Migrate MigrateSpec.
Local Open Scope string_scope.

Lemma gpu_ops_spellings_witness :
  has_gpu_support "canny" = true /\
  has_gpu_support "canny_wasm" = true /\
  has_gpu_support "canny_async" = true /\
  has_gpu_support "canny_wasm_async" = true /\
  get_gpu_function_name "canny_wasm" = "canny_gpu_async" /\
  get_gpu_function_name "canny_wasm_async" = "canny_async_gpu_async".
Proof.
  apply (gpu_ops_spellings "canny").
  apply (proj1 (has_gpu_support_true "canny")). vm_compute. reflexivity.
Defined.

Lemma plain_name_lookup_witness :
  base_name "hough_lines" = "hough_lines" /\
  (has_gpu_support "hough_lines" = true <-> "hough_lines" ∈ GPU_OPS) /\
  get_gpu_function_name "hough_lines" = "hough_lines_gpu_async".
Proof.
  apply (plain_name_lookup "hough_lines"); vm_compute; reflexivity.
Defined.

End MigrateMoreWitness.

Section RewriteWitnesses.
Import Text Re ChannelFix ChannelSpec ShaderFix ShaderSpec CallSamples MoreSamples.

Lemma sub_fixes_calls_v2_witness :
  calls_fixed_v2 gray_call
    (sub ChannelFixV2.pattern ChannelFixV2.replacement gray_call) /\
  forall out, calls_fixed_v2 gray_call out ->
    out = sub ChannelFixV2.pattern ChannelFixV2.replacement gray_call.
Proof. apply (sub_fixes_calls_v2 gray_call). vm_compute. reflexivity. Defined.

Lemma sub_rewrites_reads_witness :
  reads_rewritten None raw_shader
    (sub input_pattern input_replacement raw_shader) /\
  forall out, reads_rewritten None raw_shader out ->
    out = sub input_pattern input_replacement raw_shader.
Proof. apply (sub_rewrites_reads raw_shader). vm_compute. reflexivity. Defined.

Lemma sub_rewrites_writes_witness :
  writes_rewritten None raw_shader
    (sub output_pattern output_replacement raw_shader) /\
  forall out, writes_rewritten None raw_shader out ->
    out = sub output_pattern output_replacement raw_shader.
Proof. apply (sub_rewrites_writes raw_shader). vm_compute. reflexivity. Defined.

(** The second fixer keeps the module path with the call, behind the
    selection; the first one cuts the selection into the path. *)
Example sample_module_path :
  sub ChannelFixV2.pattern ChannelFixV2.replacement gray_call =
    txt "let r = " ++ selection_lines (txt "src.inner") ++ indent 8 ++
    txt "crate::imgproc::color::cvt_color(&src.inner, &mut g, conversion_code)?;" /\
  sub pattern replacement gray_call =
    txt "let r = crate::imgproc::color::" ++ selection_lines (txt "src.inner") ++
    indent 8 ++ txt "cvt_color(&src.inner, &mut g, conversion_code)?;".
Proof. vm_compute. split; reflexivity. Qed.

(** An index with brackets of its own is cut at its first bracket, also
    in an assignment target; a plain assignment target and a comparison
    are left alone. *)
Example sample_reads :
  sub input_pattern input_replacement (txt "input[a[0]] = 1u;") =
    txt "read_byte(&input, a[0)] = 1u;" /\
  sub input_pattern input_replacement (txt "input[i] = input[j];") =
    txt "input[i] = read_byte(&input, j);" /\
  sub input_pattern input_replacement (txt "if (input[i] == input[j+1]) {}") =
    txt "if (input[i] == read_byte(&input, j+1)) {}".
Proof. vm_compute. repeat split. Qed.

(** The white space after the equals sign is not part of the value,
    unless there is nothing else. *)
Example sample_writes :
  sub output_pattern output_replacement (txt "output[i] =   x + 1;") =
    txt "write_byte(&output, i, x + 1);" /\
  sub output_pattern output_replacement (txt "output[i]=  ;") =
    txt "write_byte(&output, i,  );" /\
  sub output_pattern output_replacement (txt "xoutput[i] = 1; output[j] = 2") =
    txt "xoutput[i] = 1; output[j] = 2".
Proof. vm_compute. repeat split. Qed.

End RewriteWitnesses.

(** ** The fixture generator *)

Section FixturesFacts.
Import Fixtures.
Context {Content Rng Image : Type} `{!Imaging Content Rng Image}.
Local Open Scope string_scope.



















End FixturesFacts.

Section FixtureRun.
Import Fixtures FixtureSamples.

(** A run in a directory that holds [shapes.png] only. *)
Example sample_fixture_run :
  let w' := @main nat nat nat counting "tests/fixtures" only_shapes in
  disk w' !! "tests/fixtures/shapes.png"%string = Some 0 /\
  disk w' !! "tests/fixtures/noise.png"%string = Some 107 /\
  disk w' !! "tests/fixtures/text.png"%string = Some 4 /\
  rng w' = 8 /\
  console w' =
    [VerifyWith; Generated;
     Saved "tests/fixtures/edges.png"; Creating "edges.png";
     Saved "tests/fixtures/noise.png"; Creating "noise.png";
     Saved "tests/fixtures/gradient.png"; Creating "gradient.png";
     Saved "tests/fixtures/text.png"; Creating "text.png";
     AlreadyExists "shapes.png";
     Saved "tests/fixtures/lenna.png"; Creating "lenna.png";
     Generating].
Proof. vm_compute. repeat split. Qed.

End FixtureRun.
